(** * jump-challenge: mailbox sync, classification, unsubscribe and SSE fan-out

    A shallow embedding of the Go sources of the repository and the
    properties of its specification that are checked against them.

    Go strings are byte strings: they are modelled by [string] (a list of
    8-bit [ascii] bytes).  Go's [error] results are modelled by [option]
    or by small result types; external collaborators (the Gmail API, the
    AI provider, HTTP) are oracles carried in records or section
    variables. *)

From Stdlib Require Import ZArith Lia Bool Ascii String List.
From stdpp Require Import base option list gmap strings fin_maps fin_sets.
Import ListNotations.

#[local] Set Warnings "-clear-no-such-hyp".

Local Open Scope Z_scope.
Local Open Scope list_scope.

(** ** Go's [strings] and [html] packages, as far as the sources use them *)

Module GoStrings.

Definition byte (c : ascii) : N := N_of_ascii c.

Definition nl : ascii := "010"%char.
Definition NL : string := String nl EmptyString.

Definition isEmpty (s : string) : bool :=
  match s with EmptyString => true | String _ _ => false end.

Definition nonEmpty (s : string) : bool := negb (isEmpty s).

(** [asciiSpace] of package [strings]: tab, newline, vertical tab,
    form feed, carriage return and space. *)
Definition asciiSpace (c : ascii) : bool :=
  let n := byte c in
  ((9 <=? n) && (n <=? 13) || (n =? 32))%N.

(** [unicode.IsSpace] on the UTF-8 encoding at the front of [s]: the
    number of bytes of the white-space rune found there, or 0.  The
    runes are the ASCII ones, U+0085, U+00A0, U+1680, U+2000..U+200A,
    U+2028, U+2029, U+202F, U+205F and U+3000. *)
Definition spacePrefix (s : list ascii) : nat :=
  match List.map byte s with
  | c :: rest =>
      if asciiSpace (ascii_of_N c) then 1%nat
      else match c, rest with
           | 194%N, d :: _ => if ((d =? 133) || (d =? 160))%N then 2%nat else 0%nat
           | 225%N, 154%N :: 128%N :: _ => 3%nat
           | 226%N, 128%N :: e :: _ =>
               if ((128 <=? e) && (e <=? 138) || (e =? 168) || (e =? 169) || (e =? 175))%N
               then 3%nat else 0%nat
           | 226%N, 129%N :: 159%N :: _ => 3%nat
           | 227%N, 128%N :: 128%N :: _ => 3%nat
           | _, _ => 0%nat
           end
  | [] => 0%nat
  end.

(** The same test on the encoding at the end of a string, read on the
    reversed byte list ([utf8.DecodeLastRuneInString]). *)
Definition spaceSuffixRev (r : list ascii) : nat :=
  match List.map byte r with
  | c :: rest =>
      if asciiSpace (ascii_of_N c) then 1%nat
      else match c, rest with
           | 133%N, 194%N :: _ => 2%nat
           | 160%N, 194%N :: _ => 2%nat
           | 128%N, 154%N :: 225%N :: _ => 3%nat
           | 159%N, 129%N :: 226%N :: _ => 3%nat
           | 128%N, 128%N :: 227%N :: _ => 3%nat
           | e, 128%N :: 226%N :: _ =>
               if ((128 <=? e) && (e <=? 138) || (e =? 168) || (e =? 169) || (e =? 175))%N
               then 3%nat else 0%nat
           | _, _ => 0%nat
           end
  | [] => 0%nat
  end.

Fixpoint dropWhileRune (width : list ascii -> nat) (fuel : nat) (s : list ascii)
  : list ascii :=
  match fuel with
  | O => s
  | S fuel' =>
      match width s with
      | O => s
      | w => dropWhileRune width fuel' (List.skipn w s)
      end
  end.

Definition TrimLeft (s : list ascii) : list ascii :=
  dropWhileRune spacePrefix (List.length s) s.

Definition TrimRight (s : list ascii) : list ascii :=
  List.rev (dropWhileRune spaceSuffixRev (List.length s) (List.rev s)).

(** [strings.TrimSpace]: leading and trailing white space removed. *)
Definition TrimSpace (s : string) : string :=
  string_of_list_ascii (TrimRight (TrimLeft (list_ascii_of_string s))).

Definition isASCII (s : string) : bool :=
  List.forallb (fun c => (byte c <? 128)%N) (list_ascii_of_string s).

Definition lowerByte (c : ascii) : ascii :=
  let n := byte c in
  if ((65 <=? n) && (n <=? 90))%N then ascii_of_N (n + 32) else c.

Fixpoint mapBytes (f : ascii -> ascii) (s : string) : string :=
  match s with
  | EmptyString => EmptyString
  | String c s' => String (f c) (mapBytes f s')
  end.

(** [strings.ToLower]: an ASCII-only string has its letters A..Z
    mapped; any other string goes through [unicode.ToLower] rune by
    rune, which is the parameter [unicodeLower]. *)
Definition ToLower (unicodeLower : string -> string) (s : string) : string :=
  if isASCII s then mapBytes lowerByte s else unicodeLower s.

Fixpoint HasPrefix (s p : string) : bool :=
  match p, s with
  | EmptyString, _ => true
  | String _ _, EmptyString => false
  | String b p', String a s' => Ascii.eqb a b && HasPrefix s' p'
  end.

(** [strings.Contains s sub]. *)
Fixpoint Contains (s sub : string) : bool :=
  HasPrefix s sub ||
  match s with
  | EmptyString => false
  | String _ s' => Contains s' sub
  end.

(** [strings.Split s sep] for a one-byte separator: the pieces between
    the separators, one more than there are separators. *)
Fixpoint Split (s : string) (sep : ascii) : list string :=
  match s with
  | EmptyString => [EmptyString]
  | String c s' =>
      if Ascii.eqb c sep then EmptyString :: Split s' sep
      else match Split s' sep with
           | h :: t => String c h :: t
           | [] => [String c EmptyString]
           end
  end.

(** [html.EscapeString]: the five characters [<], [>], [&], ['] and
    the double quote are replaced by entities. *)
Definition escapeByte (c : ascii) : string :=
  let n := byte c in
  if (n =? 38)%N then "&amp;"%string
  else if (n =? 39)%N then "&#39;"%string
  else if (n =? 60)%N then "&lt;"%string
  else if (n =? 62)%N then "&gt;"%string
  else if (n =? 34)%N then "&#34;"%string
  else String c EmptyString.

Fixpoint EscapeString (s : string) : string :=
  match s with
  | EmptyString => EmptyString
  | String c s' => String.append (escapeByte c) (EscapeString s')
  end.

(** [strconv.Atoi] on a 64-bit platform: an optional sign and decimal
    digits.  Anything else is a syntax error with the value 0; a number
    out of range is a range error with the nearest bound.  The second
    component tells whether an error is returned. *)
Definition digitOf (c : ascii) : option Z :=
  let n := byte c in
  if ((48 <=? n) && (n <=? 57))%N then Some (Z.of_N n - 48) else None.

Fixpoint digitsOf (s : string) (acc : Z) : option Z :=
  match s with
  | EmptyString => Some acc
  | String c s' =>
      match digitOf c with
      | Some d => digitsOf s' (acc * 10 + d)
      | None => None
      end
  end.

Definition maxInt : Z := 9223372036854775807.
Definition minInt : Z := -9223372036854775808.

Definition inRange (n : Z) : Z * bool :=
  if maxInt <? n then (maxInt, true)
  else if n <? minInt then (minInt, true)
  else (n, false).

Definition Atoi (s : string) : Z * bool :=
  match s with
  | EmptyString => (0, true)
  | String c rest =>
      if (byte c =? 45)%N || (byte c =? 43)%N then
        match rest, digitsOf rest 0 with
        | String _ _, Some n => inRange (if (byte c =? 45)%N then - n else n)
        | _, _ => (0, true)
        end
      else
        match digitsOf s 0 with
        | Some n => inRange n
        | None => (0, true)
        end
  end.

(** Number of (possibly overlapping) occurrences of [sub] in [s]. *)
Fixpoint countSub (s sub : string) : nat :=
  match s with
  | EmptyString => O
  | String _ s' => ((if HasPrefix s sub then 1 else 0) + countSub s' sub)%nat
  end.

End GoStrings.

(** ** [encoding/base64]: [URLEncoding.DecodeString] *)

Module Base64.
Import GoStrings.

(** The URL alphabet: A-Z, a-z, 0-9, [-] and [_]. *)
Definition decodeMap (c : ascii) : option N :=
  let n := byte c in
  if ((65 <=? n) && (n <=? 90))%N then Some (n - 65)%N
  else if ((97 <=? n) && (n <=? 122))%N then Some (n - 71)%N
  else if ((48 <=? n) && (n <=? 57))%N then Some (n + 4)%N
  else if (n =? 45)%N then Some 62%N
  else if (n =? 95)%N then Some 63%N
  else None.

Definition isPad (c : ascii) : bool := (byte c =? 61)%N.
Definition isNewline (c : ascii) : bool := ((byte c =? 10) || (byte c =? 13))%N.

Definition quantum (a b c d : N) : N :=
  N.lor (N.lor (N.shiftl a 18) (N.shiftl b 12)) (N.lor (N.shiftl c 6) d).

Definition byteAt (v : N) (shift : N) : ascii :=
  ascii_of_N (N.land (N.shiftr v shift) 255).

Definition isNil {A} (l : list A) : bool :=
  match l with [] => true | _ => false end.

(** Four characters give three bytes; the last group may end in one or
    two padding characters; anything after padding, or a group cut
    short, is corrupt input.  Trailing bits are not checked (the
    encoding is not strict). *)
Fixpoint decodeQuanta (src : list ascii) : option (list ascii) :=
  match src with
  | [] => Some []
  | c1 :: c2 :: c3 :: c4 :: rest =>
      match decodeMap c1, decodeMap c2 with
      | Some a, Some b =>
          match decodeMap c3, decodeMap c4 with
          | Some c, Some d =>
              let v := quantum a b c d in
              match decodeQuanta rest with
              | Some out => Some (byteAt v 16 :: byteAt v 8 :: byteAt v 0 :: out)
              | None => None
              end
          | Some c, None =>
              if isPad c4 && isNil rest
              then let v := quantum a b c 0 in Some [byteAt v 16; byteAt v 8]
              else None
          | None, _ =>
              if isPad c3 && isPad c4 && isNil rest
              then let v := quantum a b 0 0 in Some [byteAt v 16]
              else None
          end
      | _, _ => None
      end
  | _ => None
  end.

(** Carriage returns and newlines are skipped wherever they occur. *)
Definition DecodeString (s : string) : option string :=
  option_map string_of_list_ascii
    (decodeQuanta (List.filter (fun c => negb (isNewline c)) (list_ascii_of_string s))).

End Base64.

(** ** Errors and results *)

(** A Go [error] is its message; [nil] is [None]. *)
Definition error : Type := string.

Inductive result (A : Type) : Type :=
| Ok (a : A)
| Err (e : error).
Arguments Ok {A} a.
Arguments Err {A} e.

Definition isErr {A} (r : result A) : bool :=
  match r with Ok _ => false | Err _ => true end.

(** [fmt.Errorf("msg: %w", err)]. *)
Definition wrap (msg : string) (e : error) : error :=
  String.append msg (String.append ": " e).

(** A call returns or panics (a nil pointer dereference); the panic
    unwinds the call, which then has no result. *)
Inductive run (A : Type) : Type :=
| Returned (a : A)
| Panicked.
Arguments Returned {A} a.
Arguments Panicked {A}.

Definition andThen {A B : Type} (r : run A) (k : A -> run B) : run B :=
  match r with
  | Returned a => k a
  | Panicked => Panicked
  end.

Notation "x <- r ;; k" := (andThen r (fun x => k))
  (at level 20, r at level 99, k at level 200).

(** [config.GetEnv] on what [os.LookupEnv] answers for the key. *)
Definition GetEnv (lookup : option string) (defaultValue : string) : string :=
  match lookup with
  | Some value => value
  | None => defaultValue
  end.

(** ** internal/model *)

Module Model.

Record Email : Type := mkEmail {
  ID : string;
  UserID : string;
  GmailID : string;
  From : string;
  Subject : string;
  Body : string;
  Summary : string;
  CategoryID : string;
  ReceivedAt : Z;
  Archived : bool;
  CreatedAt : Z;
  UpdatedAt : Z
}.

#[export] Instance Email_eq_dec : EqDecision Email.
Proof. solve_decision. Defined.

Record Category : Type := mkCategory {
  CatID : string;
  Name : string;
  Description : string
}.

Record User : Type := mkUser {
  UID : string;
  UEmail : string;
  AccessToken : string
}.

(** [NewEmail]: the local id is a fresh UUID and both audit stamps are
    the current time; summary and category start empty. *)
Definition NewEmail (uuid : string) (now : Z)
    (userID gmailID from subject body : string) (receivedAt : Z) : Email :=
  {| ID := uuid; UserID := userID; GmailID := gmailID; From := from;
     Subject := subject; Body := body; Summary := EmptyString;
     CategoryID := EmptyString; ReceivedAt := receivedAt; Archived := false;
     CreatedAt := now; UpdatedAt := now |}.

(** The pair (owner, provider id) of a message. *)
Definition ownerKey (e : Email) : string * string := (UserID e, GmailID e).

Definition setUserID (u : string) (e : Email) : Email :=
  {| ID := ID e; UserID := u; GmailID := GmailID e; From := From e;
     Subject := Subject e; Body := Body e; Summary := Summary e;
     CategoryID := CategoryID e; ReceivedAt := ReceivedAt e;
     Archived := Archived e; CreatedAt := CreatedAt e; UpdatedAt := UpdatedAt e |}.

Definition setArchived (a : bool) (e : Email) : Email :=
  {| ID := ID e; UserID := UserID e; GmailID := GmailID e; From := From e;
     Subject := Subject e; Body := Body e; Summary := Summary e;
     CategoryID := CategoryID e; ReceivedAt := ReceivedAt e;
     Archived := a; CreatedAt := CreatedAt e; UpdatedAt := UpdatedAt e |}.

Definition setClassified (cat summary : string) (now : Z) (e : Email) : Email :=
  {| ID := ID e; UserID := UserID e; GmailID := GmailID e; From := From e;
     Subject := Subject e; Body := Body e; Summary := summary;
     CategoryID := cat; ReceivedAt := ReceivedAt e;
     Archived := Archived e; CreatedAt := CreatedAt e; UpdatedAt := now |}.

End Model.

(** ** internal/gmail: the Gmail client *)

Module Gmail.
Import GoStrings Model.

(** [gmail.MessagePart]: MIME type, the body (a pointer: [None] is
    nil) with its base64url data, and the nested parts. *)
#[local] Set Warnings "-register-all".
Inductive MessagePart : Type :=
| Part (mimeType : string) (body : option string) (parts : list MessagePart).

Definition MimeType (p : MessagePart) : string :=
  match p with Part m _ _ => m end.
Definition PartBody (p : MessagePart) : option string :=
  match p with Part _ b _ => b end.
Definition Parts (p : MessagePart) : list MessagePart :=
  match p with Part _ _ ps => ps end.

(** A part that has a body, as the API hands parts out. *)
Definition MkPart (mimeType data : string) (parts : list MessagePart) : MessagePart :=
  Part mimeType (Some data) parts.

(** [p.Body.Data]: reading through a nil body panics. *)
Definition BodyData (p : MessagePart) : run string :=
  match PartBody p with
  | Some data => Returned data
  | None => Panicked
  end.

(** The test that a part has the MIME type and that its data is not
    empty, with the short circuit of [&&]: the body is read only when
    the type matches.  The result is the data when the test holds. *)
Definition dataOfType (mimeType : string) (p : MessagePart) : run (option string) :=
  if String.eqb (MimeType p) mimeType
  then data <- BodyData p ;;
       Returned (if nonEmpty data then Some data else None)
  else Returned None.

Record Header : Type := mkHeader { HName : string; HValue : string }.

(** [gmail.Message] in format [full], which carries the payload. *)
Record Message : Type := mkMessage {
  Id : string;
  Snippet : string;
  InternalDate : Z;
  Headers : list Header;
  Payload : MessagePart
}.

Definition textHtml : string := "text/html".
Definition textPlain : string := "text/plain".
Definition pOpen : string := "<p>".
Definition pClose : string := "</p>".
Definition spacer : string := "<p>&nbsp;</p>".

(** [textToHtml]: one pass over the lines of the text. *)
Fixpoint textToHtml_loop (i n : Z) (lines : list string) (result : string) : string :=
  match lines with
  | [] => result
  | line :: rest =>
      let line := TrimSpace line in
      let result :=
        if nonEmpty line
        then String.append result
               (String.append pOpen (String.append (EscapeString line) pClose))
        else if (0 <? i) && (i <? n - 1)
             then String.append result spacer
             else result in
      textToHtml_loop (i + 1) n rest result
  end.

Definition textToHtml (text : string) : string :=
  let lines := Split text nl in
  textToHtml_loop 0 (Z.of_nat (List.length lines)) lines EmptyString.

(** The two loops of [extractBodyAsText]. *)
Fixpoint firstPlainText (parts : list MessagePart) : run (option string) :=
  match parts with
  | [] => Returned None
  | part :: rest =>
      found <- dataOfType textPlain part ;;
      match found with
      | Some data =>
          match Base64.DecodeString data with
          | Some decoded => Returned (Some decoded)
          | None => firstPlainText rest
          end
      | None => firstPlainText rest
      end
  end.

Fixpoint firstAvailable (parts : list MessagePart) : run (option string) :=
  match parts with
  | [] => Returned None
  | part :: rest =>
      data <- BodyData part ;;
      if nonEmpty data
      then match Base64.DecodeString data with
           | Some decoded => Returned (Some decoded)
           | None => firstAvailable rest
           end
      else firstAvailable rest
  end.

Definition extractBodyAsText (payload : MessagePart) : run string :=
  data <- BodyData payload ;;
  if nonEmpty data
  then match Base64.DecodeString data with
       | Some decoded => Returned decoded
       | None => Returned EmptyString
       end
  else
    plain <- firstPlainText (Parts payload) ;;
    match plain with
    | Some decoded => Returned decoded
    | None =>
        any <- firstAvailable (Parts payload) ;;
        match any with
        | Some decoded => Returned decoded
        | None => Returned EmptyString
        end
    end.

Section MultipartLoop.
(** [nested part] stands for the recursive call
    [extractMultipartBody(part.Parts)]. *)
Variable nested : MessagePart -> run string.

(** The loop of [extractMultipartBody] and what follows it.  The
    fallback hands [extractBodyAsText] a fresh part that has the parts
    and no body. *)
Fixpoint multipartLoop (all rest : list MessagePart) (htmlBody textBody : string)
  : run string :=
  match rest with
  | [] =>
      if nonEmpty htmlBody then Returned htmlBody
      else if nonEmpty textBody then Returned (textToHtml textBody)
      else extractBodyAsText (Part EmptyString None all)
  | part :: rest' =>
      html <- dataOfType textHtml part ;;
      match html with
      | Some data =>
          match Base64.DecodeString data with
          | None => multipartLoop all rest' htmlBody textBody
          | Some decoded => multipartLoop all rest' decoded textBody
          end
      | None =>
          plain <- dataOfType textPlain part ;;
          match plain with
          | Some data =>
              match Base64.DecodeString data with
              | None => multipartLoop all rest' htmlBody textBody
              | Some decoded => multipartLoop all rest' htmlBody decoded
              end
          | None =>
              if (0 <? List.length (Parts part))%nat then
                nestedBody <- nested part ;;
                if nonEmpty nestedBody && isEmpty htmlBody
                then Returned nestedBody
                else multipartLoop all rest' htmlBody textBody
              else multipartLoop all rest' htmlBody textBody
          end
      end
  end.
End MultipartLoop.

Fixpoint extractNested (p : MessagePart) : run string :=
  match p with
  | Part _ _ parts => multipartLoop extractNested parts parts EmptyString EmptyString
  end.

(** [extractMultipartBody]. *)
Definition extractMultipartBody (parts : list MessagePart) : run string :=
  multipartLoop extractNested parts parts EmptyString EmptyString.

(** [extractBody]. *)
Definition extractBody (payload : MessagePart) : run string :=
  if (0 <? List.length (Parts payload))%nat then extractMultipartBody (Parts payload)
  else
    html <- dataOfType textHtml payload ;;
    match html with
    | Some data =>
        match Base64.DecodeString data with
        | None => extractBodyAsText payload
        | Some decoded => Returned decoded
        end
    | None => extractBodyAsText payload
    end.

(** The Gmail REST service behind the client ([g.client]), one
    oracle per call the client makes.  The list call takes the result
    size and the query when one is set. *)
Record GmailService : Type := mkGmailService {
  MessagesList : Z -> option string -> result (list string);
  MessagesGet : string -> result Message;
  MessagesModify : string -> list string -> list string -> option error;
  MessagesDelete : string -> option error
}.

(** What [uuid.New], [time.Now] and [os.LookupEnv] of
    [MAX_FETCH_EMAILS] answer during one call. *)
Record Env : Type := mkEnv {
  uuid : nat -> string;
  now : Z;
  MAX_FETCH_EMAILS : option string
}.

(** The header loop of the fetch: the last [Subject] and the last
    [From] header win; the subject starts as the snippet. *)
Fixpoint scanHeaders (hs : list Header) (subject from : string) : string * string :=
  match hs with
  | [] => (subject, from)
  | h :: rest =>
      if String.eqb (HName h) "Subject" then scanHeaders rest (HValue h) from
      else if String.eqb (HName h) "From" then scanHeaders rest subject (HValue h)
      else scanHeaders rest subject from
  end.

(** The body of the fetch loop after [Messages.Get] succeeded. *)
Definition buildEmail (env : Env) (k : nat) (msgId : string) (message : Message)
  : run Email :=
  let '(subject, from) := scanHeaders (Headers message) (Snippet message) EmptyString in
  body <- extractBody (Payload message) ;;
  let receivedAt := Z.quot (InternalDate message) 1000 in
  Returned (NewEmail (uuid env k) (now env) EmptyString msgId from subject body receivedAt).

Fixpoint listLoop (api : GmailService) (env : Env) (msgs : list string)
    (emails : list Email) : run (list Email) :=
  match msgs with
  | [] => Returned emails
  | msgId :: rest =>
      match MessagesGet api msgId with
      | Err _ => listLoop api env rest emails
      | Ok message =>
          email <- buildEmail env (List.length emails) msgId message ;;
          listLoop api env rest (emails ++ [email])
      end
  end.

(** [gmailClient.ListUnreadEmails]. *)
Definition ListUnreadEmails (api : GmailService) (env : Env) (userEmail : string)
  : run (result (list Email)) :=
  let maxFetchEmails := GetEnv (MAX_FETCH_EMAILS env) "10" in
  let maxFetch := fst (Atoi maxFetchEmails) in
  match MessagesList api maxFetch None with
  | Err e => Returned (Err (wrap "failed to list unread messages" e))
  | Ok msgs =>
      emails <- listLoop api env msgs [] ;;
      Returned (Ok emails)
  end.

(** The loop of [gmailClient.SyncEmails] with its collecting flag. *)
Fixpoint syncLoop (api : GmailService) (env : Env) (afterEmailID : string)
    (msgs : list string) (shouldStartCollecting : bool) (emails : list Email)
  : run (list Email) :=
  match msgs with
  | [] => Returned emails
  | msgId :: rest =>
      if nonEmpty afterEmailID && String.eqb msgId afterEmailID then
        syncLoop api env afterEmailID rest true emails
      else if nonEmpty afterEmailID && negb shouldStartCollecting then
        syncLoop api env afterEmailID rest shouldStartCollecting emails
      else
        match MessagesGet api msgId with
        | Err _ => syncLoop api env afterEmailID rest shouldStartCollecting emails
        | Ok message =>
            email <- buildEmail env (List.length emails) msgId message ;;
            syncLoop api env afterEmailID rest shouldStartCollecting (emails ++ [email])
        end
  end.

(** [gmailClient.SyncEmails]. *)
Definition SyncEmails (api : GmailService) (env : Env)
    (userEmail : string) (maxResults : Z) (afterEmailID : string)
  : run (result (list Email)) :=
  let query := EmptyString in
  let maxResults :=
    if maxResults <=? 0
    then fst (Atoi (GetEnv (MAX_FETCH_EMAILS env) "3"))
    else maxResults in
  match MessagesList api maxResults (Some query) with
  | Err e => Returned (Err (wrap "failed to list messages" e))
  | Ok msgs =>
      let shouldStartCollecting := isEmpty afterEmailID in
      emails <- syncLoop api env afterEmailID msgs shouldStartCollecting [] ;;
      Returned (Ok emails)
  end.

(** [gmailClient.ArchiveEmail]. *)
Definition ArchiveEmail (api : GmailService) (userEmail messageID : string)
  : option error :=
  match MessagesModify api messageID [] ["INBOX"%string; "UNREAD"%string] with
  | Some e => Some (wrap "failed to archive email" e)
  | None => None
  end.

(** [gmailClient.MarkAsRead]. *)
Definition MarkAsRead (api : GmailService) (userEmail messageID : string)
  : option error :=
  match MessagesModify api messageID [] ["UNREAD"%string] with
  | Some e => Some (wrap "failed to mark email as read" e)
  | None => None
  end.

(** [gmailClient.DeleteEmails]: every id is tried; a failed call is
    logged and skipped; the result is [nil].  The second component
    lists the ids whose remote deletion went through. *)
Fixpoint deleteLoop (api : GmailService) (messageIDs : list string) (deleted : list string)
  : list string :=
  match messageIDs with
  | [] => deleted
  | messageID :: rest =>
      match MessagesDelete api messageID with
      | Some _ => deleteLoop api rest deleted
      | None => deleteLoop api rest (deleted ++ [messageID])
      end
  end.

Definition DeleteEmails (api : GmailService) (userEmail : string)
    (messageIDs : list string) : option error * list string :=
  (None, deleteLoop api messageIDs []).

End Gmail.

(** ** internal/ai: resolving the model's answer to a category *)

Module AI.
Import GoStrings Model.

Section Matching.
(** [unicode.ToLower] applied rune by rune, used by [strings.ToLower]
    on strings that are not pure ASCII. *)
Variable unicodeLower : string -> string.

Definition key (s : string) : string := ToLower unicodeLower (TrimSpace s).

(** First loop of [findBestCategoryMatch]: exact match. *)
Fixpoint exactLoop (responseLower : string) (categories : list string) : option string :=
  match categories with
  | [] => None
  | category :: rest =>
      if String.eqb (key category) responseLower then Some category
      else exactLoop responseLower rest
  end.

(** Second loop: containment in either direction. *)
Fixpoint partialLoop (responseLower : string) (categories : list string) : option string :=
  match categories with
  | [] => None
  | category :: rest =>
      let categoryLower := key category in
      if Contains responseLower categoryLower || Contains categoryLower responseLower
      then Some category
      else partialLoop responseLower rest
  end.

Definition findBestCategoryMatch (response : string) (categories : list string) : string :=
  let responseLower := key response in
  match exactLoop responseLower categories with
  | Some category => category
  | None =>
      match partialLoop responseLower categories with
      | Some category => category
      | None =>
          match categories with
          | first :: _ => first
          | [] => EmptyString
          end
      end
  end.

(** [aiClient.ClassifyEmail]; [backend] is the provider call
    ([classifyEmailWithGemini] or [classifyEmailWithOpenAIStyle]). *)
Definition ClassifyEmail (backend : string -> list Category -> result string)
    (emailBody : string) (categories : list Category) : result string :=
  match backend emailBody categories with
  | Err e => Err (wrap "failed to classify email" e)
  | Ok classification =>
      Ok (findBestCategoryMatch classification (List.map Name categories))
  end.
End Matching.

End AI.

(** ** internal/repository: the message store interface and its two
    implementations *)

Module Repository.
Import Model.

(** [repository.EmailRepository] over a store state [S]; every method
    takes the state and, when it writes, returns the new one. *)
Record EmailRepository (S : Type) : Type := mkEmailRepository {
  Create : S -> Email -> S * option error;
  FindByID : S -> string -> result Email;
  FindByUserID : S -> string -> result (list Email);
  FindByGmailID : S -> string -> string -> result Email;
  Update : S -> Email -> S * option error;
  Delete : S -> string -> S * option error
}.
Arguments Create {S} _ _ _.
Arguments FindByID {S} _ _ _.
Arguments FindByUserID {S} _ _ _.
Arguments FindByGmailID {S} _ _ _ _.
Arguments Update {S} _ _ _.
Arguments Delete {S} _ _ _.

End Repository.

(** *** repository/memory: a map from local id to message *)

Module Memory.
Import Model.

Abbreviation store := (gmap string Email).

Definition notFound : error := "email not found".

Definition Create (emails : store) (email : Email) : store * option error :=
  (<[ID email := email]> emails, None).

Definition FindByID (emails : store) (id : string) : result Email :=
  match emails !! id with
  | Some email => Ok email
  | None => Err notFound
  end.

Definition FindByUserID (emails : store) (userID : string) : result (list Email) :=
  Ok (List.filter (fun email => String.eqb (UserID email) userID)
        (List.map snd (map_to_list emails))).

(** The loop ranges over the map; the first entry met with the owner
    and the provider id is returned. *)
Definition FindByGmailID (emails : store) (userID gmailID : string) : result Email :=
  match List.find
          (fun email => String.eqb (UserID email) userID
                        && String.eqb (GmailID email) gmailID)
          (List.map snd (map_to_list emails)) with
  | Some email => Ok email
  | None => Err notFound
  end.

Definition Update (emails : store) (email : Email) : store * option error :=
  match emails !! ID email with
  | None => (emails, Some notFound)
  | Some _ => (<[ID email := email]> emails, None)
  end.

Definition Delete (emails : store) (id : string) : store * option error :=
  (delete id emails, None).

Definition InMemoryEmailRepository : Repository.EmailRepository store :=
  Repository.mkEmailRepository store
    Create FindByID FindByUserID FindByGmailID Update Delete.

End Memory.

(** *** repository/postgres: the [emails] table

    The table is the list of its rows.  [InitializeDatabase] declares
    [id] the primary key and [gmail_id] UNIQUE. *)

Module Postgres.
Import GoStrings Model.

Abbreviation table := (list Email).

Definition notFound : error := "email not found".
Definition tooLong : error := "value too long for type character varying(255)".
Definition pkeyViolation : error :=
  "duplicate key value violates unique constraint emails_pkey".

(** Characters of a UTF-8 text: the bytes that are not continuation
    bytes. *)
Definition charLength (s : string) : nat :=
  List.length
    (List.filter (fun c => negb ((128 <=? byte c) && (byte c <? 192))%N)
       (list_ascii_of_string s)).

Definition varchar255 (s : string) : bool := (charLength s <=? 255)%nat.

Definition sameGmailID (email row : Email) : bool :=
  String.eqb (GmailID row) (GmailID email).

Definition sameID (id : string) (row : Email) : bool := String.eqb (ID row) id.

(** What the columns of the table make of the values the driver
    sends.  VARCHAR(255) and TEXT refuse some texts (a NUL byte, a byte
    sequence that is not valid in the database encoding, more than 255
    characters), and TIMESTAMP keeps a time to the microsecond and
    without its zone.  The database is an outside service: each
    conversion is an oracle that answers the value the column holds
    and a SELECT hands back, or nothing when the value is refused;
    [refusal] is the error of the statement then. *)
Record Columns : Type := mkColumns {
  varchar255Col : string -> option string;
  textCol : string -> option string;
  timestampCol : Z -> option Z;
  refusal : Email -> error
}.

(** The row an INSERT proposes for a message: each value as its column
    takes it. *)
Definition proposed (c : Columns) (email : Email) : option Email :=
  id ← varchar255Col c (ID email);
  user_id ← varchar255Col c (UserID email);
  gmail_id ← varchar255Col c (GmailID email);
  from_email ← textCol c (From email);
  subject ← textCol c (Subject email);
  body ← textCol c (Body email);
  summary ← textCol c (Summary email);
  category_id ← varchar255Col c (CategoryID email);
  received_at ← timestampCol c (ReceivedAt email);
  created_at ← timestampCol c (CreatedAt email);
  updated_at ← timestampCol c (UpdatedAt email);
  Some {| ID := id; UserID := user_id; GmailID := gmail_id; From := from_email;
          Subject := subject; Body := body; Summary := summary;
          CategoryID := category_id; ReceivedAt := received_at;
          Archived := Archived email; CreatedAt := created_at;
          UpdatedAt := updated_at |}.

(** The [DO UPDATE SET] list: every column but [id], [gmail_id] and
    [created_at] is taken from the proposed row ([EXCLUDED]);
    [updated_at] is the server time. *)
Definition conflictUpdate (dbNow : Z) (excluded row : Email) : Email :=
  {| ID := ID row; UserID := UserID excluded; GmailID := GmailID row;
     From := From excluded; Subject := Subject excluded; Body := Body excluded;
     Summary := Summary excluded; CategoryID := CategoryID excluded;
     ReceivedAt := ReceivedAt excluded; Archived := Archived excluded;
     CreatedAt := CreatedAt row; UpdatedAt := dbNow |}.

(** [INSERT ... ON CONFLICT (gmail_id) DO UPDATE SET ...]. *)
Definition Create (c : Columns) (dbNow : Z) (rows : table) (email : Email)
  : table * option error :=
  match proposed c email with
  | None => (rows, Some (refusal c email))
  | Some excluded =>
      if List.existsb (sameGmailID excluded) rows then
        (List.map (fun row => if sameGmailID excluded row
                              then conflictUpdate dbNow excluded row else row) rows,
         None)
      else if List.existsb (sameID (ID excluded)) rows then (rows, Some pkeyViolation)
      else (rows ++ [excluded], None)
  end.

Definition FindByID (rows : table) (id : string) : result Email :=
  match List.find (sameID id) rows with
  | Some row => Ok row
  | None => Err notFound
  end.

Definition FindByUserID (rows : table) (userID : string) : result (list Email) :=
  Ok (List.filter (fun row => String.eqb (UserID row) userID) rows).

Definition FindByGmailID (rows : table) (userID gmailID : string) : result Email :=
  match List.find (fun row => String.eqb (UserID row) userID
                              && String.eqb (GmailID row) gmailID) rows with
  | Some row => Ok row
  | None => Err notFound
  end.

Definition rowUpdate (dbNow : Z) (email row : Email) : Email :=
  {| ID := ID row; UserID := UserID row; GmailID := GmailID row;
     From := From email; Subject := Subject email; Body := Body email;
     Summary := Summary email; CategoryID := CategoryID email;
     ReceivedAt := ReceivedAt row; Archived := Archived email;
     CreatedAt := CreatedAt row; UpdatedAt := dbNow |}.

(** [UPDATE emails SET ... WHERE id=$7]; no matching row is not an
    error. *)
Definition Update (dbNow : Z) (rows : table) (email : Email) : table * option error :=
  if negb (varchar255 (CategoryID email)) then (rows, Some tooLong)
  else (List.map (fun row => if sameID (ID email) row
                             then rowUpdate dbNow email row else row) rows,
        None).

Definition Delete (rows : table) (id : string) : table * option error :=
  (List.filter (fun row => negb (sameID id row)) rows, None).

Definition PostgresEmailRepository (c : Columns) (dbNow : Z)
  : Repository.EmailRepository table :=
  Repository.mkEmailRepository table
    (Create c dbNow) FindByID FindByUserID FindByGmailID (Update dbNow) Delete.

(** The tables the repository can produce from the empty table. *)
Inductive reachable : table -> Prop :=
| reach_empty : reachable []
| reach_Create c dbNow rows email :
    reachable rows -> reachable (fst (Create c dbNow rows email))
| reach_Update dbNow rows email :
    reachable rows -> reachable (fst (Update dbNow rows email))
| reach_Delete rows id :
    reachable rows -> reachable (fst (Delete rows id)).

(** The two unique indexes of the table. *)
Definition keysUnique (rows : table) : Prop :=
  List.NoDup (List.map GmailID rows) /\ List.NoDup (List.map ID rows).

End Postgres.

(** ** internal/service: interfaces *)

Module GmailClient.
Import Model.
(** [service.GmailClient]. *)
Record t : Type := mk {
  ListUnreadEmails : string -> run (result (list Email));
  ArchiveEmail : string -> string -> option error;
  MarkAsRead : string -> string -> option error;
  DeleteEmails : string -> list string -> option error
}.
End GmailClient.

Module AIClient.
Import Model.
(** [service.AIClient]. *)
Record t : Type := mk {
  ClassifyEmail : string -> list Category -> result string;
  SummarizeEmail : string -> result string
}.
End AIClient.

(** The client of internal/gmail behind the service interface. *)
Definition gmailClient (api : Gmail.GmailService) (env : Gmail.Env) : GmailClient.t :=
  GmailClient.mk
    (Gmail.ListUnreadEmails api env)
    (Gmail.ArchiveEmail api)
    (Gmail.MarkAsRead api)
    (fun userEmail messageIDs => fst (Gmail.DeleteEmails api userEmail messageIDs)).

(** ** internal/service: the email service *)

Module EmailService.
Import GoStrings Model Repository.

(** The fields of [emailService]; the user and category repositories
    are read through one method each, and [clock] is what [time.Now]
    answers. *)
Record emailService (S : Type) : Type := mkEmailService {
  emailRepo : EmailRepository S;
  categoryRepo_FindAll : result (list Category);
  userRepo_FindByID : string -> result User;
  gmail : GmailClient.t;
  aiClient : AIClient.t;
  clock : Z
}.
Arguments emailRepo {S} _.
Arguments categoryRepo_FindAll {S} _.
Arguments userRepo_FindByID {S} _.
Arguments gmail {S} _.
Arguments aiClient {S} _.
Arguments clock {S} _.

Section Service.
Context {S : Type} (s : emailService S).

(** The [categoryMap] loop: name to id, a later category of the same
    name replacing an earlier one. *)
Fixpoint categoryMapOf (categories : list Category) (m : gmap string string)
  : gmap string string :=
  match categories with
  | [] => m
  | category :: rest => categoryMapOf rest (<[Name category := CatID category]> m)
  end.

(** [ClassifyAndSummarizeEmail]: the message as the call leaves it,
    and the error. *)
Definition ClassifyAndSummarizeEmail (email : Email) (categories : list Category)
  : Email * option error :=
  let categoryMap := categoryMapOf categories ∅ in
  match AIClient.ClassifyEmail (aiClient s) (Body email) categories with
  | Err e => (email, Some (wrap "failed to classify email" e))
  | Ok classifiedCategoryName =>
      let found :=
        match categoryMap !! classifiedCategoryName with
        | Some categoryID => Ok categoryID
        | None =>
            match categories with
            | first :: _ => Ok (CatID first)
            | [] => Err "no categories found for classification"%string
            end
        end in
      match found with
      | Err e => (email, Some e)
      | Ok categoryID =>
          let email := setClassified categoryID (Summary email) (UpdatedAt email) email in
          match AIClient.SummarizeEmail (aiClient s) (Body email) with
          | Err e => (email, Some (wrap "failed to summarize email" e))
          | Ok summary => (setClassified categoryID summary (clock s) email, None)
          end
      end
  end.

(** The goroutines of [SyncEmails].  Each works on its own message
    object and meets the others at the store only, whose methods are
    atomic; between the dedupe lookup, the create and the update of one
    goroutine the others may run.  A goroutine is at one of four
    stages. *)
Inductive stage : Type :=
| Fresh
| Checked
| Created
| Finished.

Record task : Type := mkTask { stageOf : stage; object : Email }.

(** The calls of the store a goroutine at a stage has at most before
    it. *)
Definition stepsLeft (g : stage) : nat :=
  match g with
  | Fresh => 3
  | Checked => 2
  | Created => 1
  | Finished => 0
  end.

(** One goroutine runs up to its next call of the store and through
    it: the store, the goroutine, and what it sends on [errChan]. *)
Definition advance (userID : string) (user : User) (categories : list Category)
    (st : S) (t : task) : S * task * option error :=
  match stageOf t with
  | Fresh =>
      let email := setUserID userID (object t) in
      match FindByGmailID (emailRepo s) st userID (GmailID email) with
      | Ok _ => (st, mkTask Finished email, None)
      | Err _ => (st, mkTask Checked email, None)
      end
  | Checked =>
      match ClassifyAndSummarizeEmail (object t) categories with
      | (email, Some e) => (st, mkTask Finished email, Some e)
      | (email, None) =>
          match Create (emailRepo s) st email with
          | (st, Some e) => (st, mkTask Finished email, Some e)
          | (st, None) => (st, mkTask Created email, None)
          end
      end
  | Created =>
      let email := object t in
      match GmailClient.ArchiveEmail (gmail s) (UEmail user) (GmailID email) with
      | Some _ => (st, mkTask Finished email, None)
      | None =>
          let email := setArchived true email in
          (fst (Update (emailRepo s) st email), mkTask Finished email, None)
      end
  | Finished => (st, t, None)
  end.

(** The scheduler: [schedule] names, step by step, the goroutine that
    runs next (by its position in the fetched list); the errors are
    kept in the order they reach [errChan]. *)
Fixpoint runSchedule (userID : string) (user : User) (categories : list Category)
    (schedule : list nat) (st : S) (tasks : list task) (errs : list error)
  : S * list task * list error :=
  match schedule with
  | [] => (st, tasks, errs)
  | i :: rest =>
      match tasks !! i with
      | None => runSchedule userID user categories rest st tasks errs
      | Some t =>
          let '(st, t, err) := advance userID user categories st t in
          runSchedule userID user categories rest st (<[i := t]> tasks)
            (match err with Some e => errs ++ [e] | None => errs end)
      end
  end.

(** [wg.Wait]: every goroutine has finished.  Whatever a schedule
    leaves undone is done by letting the goroutines run to their end
    one after the other. *)
Definition completion (n : nat) : list nat :=
  List.flat_map (fun i => [i; i; i]) (List.seq 0 n).

(** The goroutines under a schedule: the store, the message objects
    as they are left, and the errors in the order they reached
    [errChan]. *)
Definition syncAll (userID : string) (user : User) (categories : list Category)
    (schedule : list nat) (st : S) (gmailEmails : list Email)
  : S * list Email * list error :=
  let tasks := List.map (mkTask Fresh) gmailEmails in
  let '(st, tasks, errs) :=
    runSchedule userID user categories
      (schedule ++ completion (List.length tasks)) st tasks [] in
  (st, List.map object tasks, errs).

(** The loop after the error check: every fetched message is
    created. *)
Fixpoint createAll (user : User) (st : S) (gmailEmails : list Email)
  : S * option error :=
  match gmailEmails with
  | [] => (st, None)
  | email :: rest =>
      let email := setUserID (UID user) email in
      match Create (emailRepo s) st email with
      | (st, Some e) => (st, Some e)
      | (st, None) => createAll user st rest
      end
  end.

(** [emailService.SyncEmails] under a schedule of its goroutines: the
    store as the call leaves it, and the returned error or the panic
    of the Gmail client. *)
Definition SyncEmails (schedule : list nat) (st : S) (userID : string)
  : S * run (option error) :=
  match userRepo_FindByID s userID with
  | Err e => (st, Returned (Some (wrap "failed to get user" e)))
  | Ok user =>
      match categoryRepo_FindAll s with
      | Err e => (st, Returned (Some (wrap "failed to get categories" e)))
      | Ok categories =>
          match GmailClient.ListUnreadEmails (gmail s) (UEmail user) with
          | Panicked => (st, Panicked)
          | Returned (Err e) =>
              (st, Returned (Some (wrap "failed to get emails from Gmail" e)))
          | Returned (Ok gmailEmails) =>
              let '(st, gmailEmails, errs) :=
                syncAll userID user categories schedule st gmailEmails in
              match errs with
              | syncErr :: _ =>
                  (st, Returned (Some (wrap "failed to sync some emails" syncErr)))
              | [] =>
                  let '(st, err) := createAll user st gmailEmails in
                  (st, Returned err)
              end
          end
      end
  end.

(** The validation loop of [DeleteEmails]. *)
Fixpoint collectOwned (st : S) (userID : string) (emailIDs : list string)
    (emailsToDelete : list Email) : list Email :=
  match emailIDs with
  | [] => emailsToDelete
  | emailID :: rest =>
      match FindByID (emailRepo s) st emailID with
      | Err _ => collectOwned st userID rest emailsToDelete
      | Ok email =>
          if negb (String.eqb (UserID email) userID)
          then collectOwned st userID rest emailsToDelete
          else collectOwned st userID rest (emailsToDelete ++ [email])
      end
  end.

(** The local deletion loop. *)
Fixpoint deleteAll (st : S) (emailsToDelete : list Email) (deletionErrors : list error)
  : S * list error :=
  match emailsToDelete with
  | [] => (st, deletionErrors)
  | email :: rest =>
      match Delete (emailRepo s) st (ID email) with
      | (st, Some e) => deleteAll st rest (deletionErrors ++ [e])
      | (st, None) => deleteAll st rest deletionErrors
      end
  end.

Definition showErrors (errs : list error) : string :=
  String.append "[" (String.append (String.concat " " errs) "]").

(** [emailService.DeleteEmails]. *)
Definition DeleteEmails (st : S) (emailIDs : list string) (userID : string)
  : S * option error :=
  let emailsToDelete := collectOwned st userID emailIDs [] in
  let gmailIDsToDelete := List.map GmailID emailsToDelete in
  if (List.length emailsToDelete =? 0)%nat then (st, None)
  else
    match userRepo_FindByID s userID with
    | Err e => (st, Some (wrap "failed to get user" e))
    | Ok user =>
        match GmailClient.DeleteEmails (gmail s) (UEmail user) gmailIDsToDelete with
        | Some e => (st, Some (wrap "failed to delete emails from Gmail" e))
        | None =>
            let '(st, deletionErrors) := deleteAll st emailsToDelete [] in
            if (0 <? List.length deletionErrors)%nat
            then (st, Some (String.append
                              "some emails failed to be deleted from database: "
                              (showErrors deletionErrors)))
            else (st, None)
        end
    end.
End Service.

End EmailService.

(** ** internal/service: the unsubscribe service *)

Module UnsubscribeService.
Import GoStrings Model Repository.

Section Service.
Context {S : Type} (emailRepo : EmailRepository S).

(** The outside world reached over HTTP.  [handleUnsubscribeURL]
    (page fetch, form, button or AI fallback for one URL) is taken as
    one step of that world; [regexMatches] are the cleaned matches of
    the two patterns that pass [isValidURL], in order, and
    [anchorMatches] the [href]s of the anchors whose text passes
    [isUnsubscribeRelatedText], in document order. *)
Variable World : Type.
Variable handleUnsubscribeURL : string -> World -> World * option error.
Variable regexMatches : string -> list string.
Variable anchorMatches : string -> list string.

(** The world together with the URLs handed to
    [handleUnsubscribeURL] so far, oldest first. *)
Record Net : Type := mkNet { world : World; requested : list string }.

Definition request (url : string) (n : Net) : Net * option error :=
  let '(w, err) := handleUnsubscribeURL url (world n) in
  (mkNet w (requested n ++ [url]), err).

Definition noneWorked : error := "failed to unsubscribe using any of the found URLs".
Definition noLinks : error := "no unsubscribe links found in email body".

(** The deduplication loop of [findUnsubscribeLinks]. *)
Fixpoint dedupe (urls : list string) (uniqueURLs : gset string) (result : list string)
  : list string :=
  match urls with
  | [] => result
  | u :: rest =>
      if decide (u ∈ uniqueURLs) then dedupe rest uniqueURLs result
      else dedupe rest ({[u]} ∪ uniqueURLs) (result ++ [u])
  end.

Definition findUnsubscribeLinks (email : Email) : result (list string) :=
  let urls := regexMatches (Body email) ++ anchorMatches (Body email) in
  Ok (dedupe urls ∅ []).

(** The loop over the candidate URLs. *)
Fixpoint tryURLs (unsubscribeURLs : list string) (n : Net) : Net * option error :=
  match unsubscribeURLs with
  | [] => (n, Some noneWorked)
  | unsubscribeURL :: rest =>
      match request unsubscribeURL n with
      | (n, Some _) => tryURLs rest n
      | (n, None) => (n, None)
      end
  end.

(** The candidates of a message, as [findUnsubscribeLinks] returns
    them. *)
Definition candidates (email : Email) : list string :=
  dedupe (regexMatches (Body email) ++ anchorMatches (Body email)) ∅ [].

(** The world after every URL of a list has been tried and has
    failed, if that is what happens. *)
Fixpoint allFail (urls : list string) (w : World) : option World :=
  match urls with
  | [] => Some w
  | u :: rest =>
      match handleUnsubscribeURL u w with
      | (w, Some _) => allFail rest w
      | (_, None) => None
      end
  end.

(** [processEmailUnsubscribe]. *)
Definition processEmailUnsubscribe (email : Email) (n : Net) : Net * option error :=
  match findUnsubscribeLinks email with
  | Err e => (n, Some (wrap "failed to find unsubscribe links" e))
  | Ok unsubscribeURLs =>
      if (List.length unsubscribeURLs =? 0)%nat
      then (n, Some noLinks)
      else tryURLs unsubscribeURLs n
  end.

(** The validation loop of [UnsubscribeEmails]. *)
Fixpoint collectOwned (st : S) (userID : string) (emailIDs : list string)
    (emailsToUnsubscribe : list Email) : list Email :=
  match emailIDs with
  | [] => emailsToUnsubscribe
  | emailID :: rest =>
      match FindByID emailRepo st emailID with
      | Err _ => collectOwned st userID rest emailsToUnsubscribe
      | Ok email =>
          if negb (String.eqb (UserID email) userID)
          then collectOwned st userID rest emailsToUnsubscribe
          else collectOwned st userID rest (emailsToUnsubscribe ++ [email])
      end
  end.

(** The processing loop: the world at the end and the errors that
    were logged, one per message that failed. *)
Fixpoint processAll (emails : list Email) (n : Net) (logged : list error)
  : Net * list error :=
  match emails with
  | [] => (n, logged)
  | email :: rest =>
      match processEmailUnsubscribe email n with
      | (n, Some e) => processAll rest n (logged ++ [e])
      | (n, None) => processAll rest n logged
      end
  end.

(** [UnsubscribeEmails]: the world, the logged per-message errors,
    and the returned error. *)
Definition UnsubscribeEmails (st : S) (emailIDs : list string) (userID : string)
    (n : Net) : Net * list error * option error :=
  let emailsToUnsubscribe := collectOwned st userID emailIDs [] in
  if (List.length emailsToUnsubscribe =? 0)%nat then (n, [], None)
  else
    let '(n, logged) := processAll emailsToUnsubscribe n [] in
    (n, logged, None).
End Service.

End UnsubscribeService.

(** ** internal/sse: the registry of live subscribers *)

Module SSE.

(** A channel is a name.  The manager's part of the heap: the
    registry, the channels closed so far, and the events buffered in
    each channel, oldest first. *)
Record SSEManager : Type := mkSSEManager {
  clients : gmap string (gset nat);
  closed : gset nat;
  buffers : gmap nat (list string)
}.

(** An operation returns or panics (closing a closed channel, sending
    on a closed channel).  The deferred unlock runs either way, and a
    caller that recovers goes on with the manager as the panic left
    it. *)
Inductive outcome (A : Type) : Type :=
| Returns (a : A)
| Panics (a : A).
Arguments Returns {A} a.
Arguments Panics {A} a.

Definition after {A : Type} (o : outcome A) : A :=
  match o with
  | Returns a => a
  | Panics a => a
  end.

Definition capacity : nat := 10.

(** [NewSSEManager]. *)
Definition NewSSEManager : SSEManager :=
  {| clients := ∅; closed := ∅; buffers := ∅ |}.

(** The channels of the registry. *)
Definition registered (s : SSEManager) : gset nat :=
  ⋃ (snd <$> map_to_list (clients s)).

(** [AddClient]; [make] gives a channel that is no channel met so
    far. *)
Definition AddClient (userID : string) (s : SSEManager) : SSEManager * nat :=
  let clients1 :=
    match clients s !! userID with
    | None => <[userID := ∅]> (clients s)
    | Some _ => clients s
    end in
  let channel := fresh (registered s ∪ closed s ∪ dom (buffers s)) in
  let userClients := default ∅ (clients1 !! userID) in
  ({| clients := <[userID := {[channel]} ∪ userClients]> clients1;
      closed := closed s;
      buffers := <[channel := []]> (buffers s) |},
   channel).

(** [RemoveClient]: the channel is taken out of the owner's set, then
    closed, and only then is an empty set removed. *)
Definition RemoveClient (userID : string) (channel : nat) (s : SSEManager)
  : outcome SSEManager :=
  match clients s !! userID with
  | None => Returns s
  | Some userClients =>
      let userClients := userClients ∖ {[channel]} in
      if decide (channel ∈ closed s)
      then Panics {| clients := <[userID := userClients]> (clients s);
                     closed := closed s; buffers := buffers s |}
      else
        let closed1 := {[channel]} ∪ closed s in
        if decide (size userClients = 0%nat)
        then Returns {| clients := delete userID (clients s); closed := closed1;
                        buffers := buffers s |}
        else Returns {| clients := <[userID := userClients]> (clients s);
                        closed := closed1; buffers := buffers s |}
  end.

(** The order in which [range] visits a set of channels is not
    fixed: [order] proposes one, and is followed when it lists the
    channels of the set once each. *)
Definition rangeOrder (order : list nat) (sinks : gset nat) : list nat :=
  if decide (NoDup order /\ list_to_set order = sinks) then order else elements sinks.

Definition rangeKeys (order : list string) (m : gmap string (gset nat)) : list string :=
  if decide (NoDup order /\ list_to_set order = dom m) then order else elements (dom m).

(** One [select]: the send goes through at once when the channel has
    room; when it is full the send waits, and goes through if the
    subscriber takes the oldest event within the five seconds
    ([drained]); otherwise the timeout arm is taken and the event is
    dropped. *)
Definition sendOrTimeout (jsonData : string) (drained : bool) (channel : nat)
    (bufs : gmap nat (list string)) : gmap nat (list string) :=
  let queue := default [] (bufs !! channel) in
  if (List.length queue <? capacity)%nat
  then <[channel := queue ++ [jsonData]]> bufs
  else if drained then <[channel := List.tl queue ++ [jsonData]]> bufs
  else bufs.

(** The delivery loop; a send on a closed channel panics. *)
Fixpoint sendLoop (jsonData : string) (drains : nat -> bool) (closedChans : gset nat)
    (channels : list nat) (bufs : gmap nat (list string))
  : outcome (gmap nat (list string)) :=
  match channels with
  | [] => Returns bufs
  | channel :: rest =>
      if decide (channel ∈ closedChans) then Panics bufs
      else sendLoop jsonData drains closedChans rest
             (sendOrTimeout jsonData (drains channel) channel bufs)
  end.

(** [BroadcastToUser] and [BroadcastEmailToUser] after the event has
    been marshalled ([None]: marshalling failed); [order] is the order
    of the loop and [drains] tells of each channel whether its
    subscriber reads in time. *)
Definition BroadcastToUser (userID : string) (jsonData : option string)
    (order : list nat) (drains : nat -> bool) (s : SSEManager) : outcome SSEManager :=
  match clients s !! userID with
  | None => Returns s
  | Some userClients =>
      match jsonData with
      | None => Returns s
      | Some jsonData =>
          match sendLoop jsonData drains (closed s) (rangeOrder order userClients)
                  (buffers s) with
          | Returns bufs =>
              Returns {| clients := clients s; closed := closed s; buffers := bufs |}
          | Panics bufs =>
              Panics {| clients := clients s; closed := closed s; buffers := bufs |}
          end
      end
  end.

(** The subscriber's side, [<-clientChannel] in the handler: the
    oldest buffered event is taken. *)
Definition Receive (channel : nat) (s : SSEManager) : SSEManager :=
  match buffers s !! channel with
  | Some (_ :: queue) =>
      {| clients := clients s; closed := closed s;
         buffers := <[channel := queue]> (buffers s) |}
  | _ => s
  end.

(** The inner loop of [Close]. *)
Fixpoint closeChannels (channels : list nat) (closedChans : gset nat)
  : outcome (gset nat) :=
  match channels with
  | [] => Returns closedChans
  | channel :: rest =>
      if decide (channel ∈ closedChans) then Panics closedChans
      else closeChannels rest ({[channel]} ∪ closedChans)
  end.

(** The outer loop of [Close]: the channels of an owner are closed,
    then the owner is removed. *)
Fixpoint closeLoop (chanOrder : string -> list nat) (users : list string) (s : SSEManager)
  : outcome SSEManager :=
  match users with
  | [] => Returns s
  | userID :: rest =>
      match clients s !! userID with
      | None => closeLoop chanOrder rest s
      | Some userClients =>
          match closeChannels (rangeOrder (chanOrder userID) userClients) (closed s) with
          | Panics closed1 =>
              Panics {| clients := clients s; closed := closed1; buffers := buffers s |}
          | Returns closed1 =>
              closeLoop chanOrder rest
                {| clients := delete userID (clients s); closed := closed1;
                   buffers := buffers s |}
          end
      end
  end.

(** [Close]. *)
Definition Close (userOrder : list string) (chanOrder : string -> list nat)
    (s : SSEManager) : outcome SSEManager :=
  closeLoop chanOrder (rangeKeys userOrder (clients s)) s.

(** [GetUserConnectionCount] and [HasUserConnection]. *)
Definition GetUserConnectionCount (userID : string) (s : SSEManager) : nat :=
  match clients s !! userID with
  | None => 0%nat
  | Some userClients => size userClients
  end.

Definition HasUserConnection (userID : string) (s : SSEManager) : bool :=
  (0 <? GetUserConnectionCount userID s)%nat.

(** The operations on a manager, with what the run time decides in
    each. *)
Inductive op : Type :=
| OpAddClient (userID : string)
| OpRemoveClient (userID : string) (channel : nat)
| OpBroadcast (userID : string) (jsonData : option string)
    (order : list nat) (drains : nat -> bool)
| OpReceive (channel : nat)
| OpClose (userOrder : list string) (chanOrder : string -> list nat).

Definition step (o : op) (s : SSEManager) : outcome SSEManager :=
  match o with
  | OpAddClient userID => Returns (fst (AddClient userID s))
  | OpRemoveClient userID channel => RemoveClient userID channel s
  | OpBroadcast userID jsonData order drains =>
      BroadcastToUser userID jsonData order drains s
  | OpReceive channel => Returns (Receive channel s)
  | OpClose userOrder chanOrder => Close userOrder chanOrder s
  end.

(** The states a manager goes through, a panic being recovered by the
    caller. *)
Inductive reachable : SSEManager -> Prop :=
| reach_new : reachable NewSSEManager
| reach_step o s : reachable s -> reachable (after (step o s)).


(** Every owner present in the registry has at least one sink. *)
Definition nonEmptySets (s : SSEManager) : Prop :=
  forall userID sinks, clients s !! userID = Some sinks -> sinks <> ∅.

End SSE.

(** ** Terms of the specification *)

Module SpecTerms.
Import GoStrings Gmail.

Fixpoint noByte (b : ascii) (s : string) : bool :=
  match s with
  | EmptyString => true
  | String c s' => negb (Ascii.eqb c b) && noByte b s'
  end.

(** A line: no newline in it.  A blank line has nothing but white
    space. *)
Definition isLine (s : string) : bool := noByte nl s.
Definition isBlank (s : string) : bool := isEmpty (TrimSpace s).

(** A paragraph of a plain-text body: one or more lines, none blank. *)
Definition isParagraph (p : string) : bool :=
  List.forallb (fun line => negb (isBlank line)) (Split p nl).

(** Three paragraphs, one blank line between consecutive ones. *)
Definition threeParagraphs (p1 p2 p3 : string) : string :=
  String.append p1 (String.append NL (String.append NL
    (String.append p2 (String.append NL (String.append NL p3))))).

(** A paragraph-wrapped segment of text [t]. *)
Definition wrapped (t : string) : string :=
  String.append pOpen (String.append t pClose).

(** The paragraph elements of an HTML text that are not spacers. *)
Definition paragraphSegments (html : string) : nat :=
  (countSub html pOpen - countSub html spacer)%nat.

(** What one line contributes to the output of [textToHtml], given its
    index and the number of lines. *)
Definition renderLine (n i : Z) (line : string) : string :=
  let line := TrimSpace line in
  if nonEmpty line then wrapped (EscapeString line)
  else if (0 <? i) && (i <? n - 1) then spacer
  else EmptyString.

Fixpoint renderFrom (n i : Z) (lines : list string) : string :=
  match lines with
  | [] => EmptyString
  | line :: rest => String.append (renderLine n i line) (renderFrom n (i + 1) rest)
  end.

(** A part without sub-parts. *)
Definition isLeaf (p : MessagePart) : bool := Base64.isNil (Parts p).

(** A part that has a body. *)
Definition hasBody (p : MessagePart) : bool :=
  match PartBody p with Some _ => true | None => false end.

(** A part the multipart loop takes as HTML: its type is [text/html]
    and its data is not empty and decodes. *)
Definition decodesAsHtml (p : MessagePart) : bool :=
  match PartBody p with
  | Some data =>
      String.eqb (MimeType p) textHtml && nonEmpty data
      && match Base64.DecodeString data with Some _ => true | None => false end
  | None => false
  end.

(** The messages of a list of ids that can be fetched in full, built
    as the fetch loop builds them, the first with the [k]-th UUID; a
    panic while one of them is built is the panic of the whole. *)
Fixpoint emailsOf (api : GmailService) (env : Env) (k : nat) (ids : list string)
  : run (list Model.Email) :=
  match ids with
  | [] => Returned []
  | id :: rest =>
      match MessagesGet api id with
      | Ok message =>
          email <- buildEmail env k id message ;;
          emails <- emailsOf api env (Datatypes.S k) rest ;;
          Returned (email :: emails)
      | Err _ => emailsOf api env k rest
      end
  end.

(** The entries of a page that do not bear the cursor id. *)
Definition notCursor (cursor : string) (ids : list string) : list string :=
  List.filter (fun id => negb (String.eqb id cursor)) ids.

Definition fetchable (api : GmailService) (id : string) : Prop :=
  isErr (MessagesGet api id) = false.

(** A Gmail service with a five-message page, every message of which
    can be fetched. *)
Definition plainMessage (id : string) : Message :=
  {| Id := id; Snippet := "snippet"; InternalDate := 1700000000000;
     Headers := [mkHeader "Subject" "Hello"; mkHeader "From" "a@example.com"];
     Payload := MkPart "text/plain" "aGk=" [] |}.

Definition fivePage : list string := ["m1"; "m2"; "m3"; "m4"; "m5"]%string.

Definition fiveApi : GmailService :=
  {| MessagesList := fun _ _ => Ok fivePage;
     MessagesGet := fun id => Ok (plainMessage id);
     MessagesModify := fun _ _ _ => None;
     MessagesDelete := fun _ => None |}.

(** The same page when the fourth message cannot be fetched. *)
Definition fiveApiWithoutFourth : GmailService :=
  {| MessagesList := fun _ _ => Ok fivePage;
     MessagesGet := fun id =>
       if String.eqb id "m4" then Err "googleapi: Error 404: notFound"%string
       else Ok (plainMessage id);
     MessagesModify := fun _ _ _ => None;
     MessagesDelete := fun _ => None |}.

(** The result size [gmailClient.SyncEmails] asks for. *)
Definition askedSize (env : Env) (maxResults : Z) : Z :=
  if maxResults <=? 0
  then fst (Atoi (match MAX_FETCH_EMAILS env with Some v => v | None => "3"%string end))
  else maxResults.

Definition constEnv : Env :=
  {| uuid := fun _ => "uuid"%string; now := 0; MAX_FETCH_EMAILS := None |}.

(** What a name stands for when letter case and the white space
    around it are disregarded. *)
Definition foldName (unicodeLower : string -> string) (name : string) : string :=
  ToLower unicodeLower (TrimSpace name).

(** An answer names a category exactly when the two are the same up to
    letter case and surrounding white space; it names it partially
    when one of the two, so read, occurs in the other. *)
Definition exactMatch (unicodeLower : string -> string) (answer category : string)
  : bool :=
  String.eqb (foldName unicodeLower category) (foldName unicodeLower answer).

Definition partialMatch (unicodeLower : string -> string) (answer category : string)
  : bool :=
  Contains (foldName unicodeLower answer) (foldName unicodeLower category)
  || Contains (foldName unicodeLower category) (foldName unicodeLower answer).

End SpecTerms.

(** ** Concrete worlds used to run the code *)

Module Scenarios.
Import GoStrings Model Gmail.

Definition mkStored (id userID gmailID body : string) : Email :=
  {| ID := id; UserID := userID; GmailID := gmailID; From := "sender@example.com";
     Subject := "Test Subject"; Body := body; Summary := "Summary of the email";
     CategoryID := "c1"; ReceivedAt := 1700000000; Archived := true;
     CreatedAt := 0; UpdatedAt := 0 |}.

(** A world in which every unsubscribe URL answers with a server
    error, and one in which the page named [ok] works. *)
Definition alwaysFails (url : string) (w : unit) : unit * option error :=
  (w, Some "unsubscribe page returned status code: 500"%string).

Definition onlyOk (url : string) (w : unit) : unit * option error :=
  if String.eqb url "https://ok.example/unsubscribe" then (w, None)
  else (w, Some "unsubscribe page returned status code: 500"%string).

(** Link discovery on the test bodies: the body is the list of its
    links, one per line; a body without a line has no link. *)
Definition linesOf (body : string) : list string :=
  List.filter nonEmpty (Split body nl).

Definition noAnchors (body : string) : list string := [].

Definition twoOwned : gmap string Email :=
  <["e1"%string := mkStored "e1" "u1" "g1" "https://a.example/unsubscribe"]>
    (<["e2"%string := mkStored "e2" "u1" "g2" EmptyString]> ∅).

(** A message whose body lists a dead link, a working link and a third
    link. *)
Definition threeLinks : Email :=
  mkStored "e9" "u1" "g9"
    (String.append "https://dead.example/unsubscribe"
       (String.append NL
          (String.append "https://ok.example/unsubscribe"
             (String.append NL "https://never.example/unsubscribe")))).

(** One upstream message [g1]; the first fetch mints the local id [e1]
    for it, a later fetch of the same message mints [e2]. *)
Definition oneApi : GmailService :=
  {| MessagesList := fun _ _ => Ok ["g1"%string];
     MessagesGet := fun id => Ok (SpecTerms.plainMessage id);
     MessagesModify := fun _ _ _ => None;
     MessagesDelete := fun _ => None |}.

Definition firstFetch : Env :=
  {| uuid := fun _ => "e1"%string; now := 100; MAX_FETCH_EMAILS := None |}.
Definition secondFetch : Env :=
  {| uuid := fun _ => "e2"%string; now := 200; MAX_FETCH_EMAILS := None |}.

(** The AI mock of the tests. *)
Definition mockAI : AIClient.t :=
  AIClient.mk (fun _ _ => Ok "Work"%string) (fun _ => Ok "Summary of the email"%string).

Definition owner : User :=
  {| UID := "u1"; UEmail := "test@example.com"; AccessToken := "access_token" |}.

Definition findOwner (id : string) : result User :=
  if String.eqb id "u1" then Ok owner else Err "user not found"%string.

Definition work : Category := mkCategory "c1" "Work" "Work related emails".

Definition syncService {S : Type} (repo : Repository.EmailRepository S) (env : Env)
  : EmailService.emailService S :=
  EmailService.mkEmailService S repo (Ok [work]) findOwner
    (gmailClient oneApi env) mockAI (now env).

(** Three stored messages of one owner, and a Gmail service on which
    every delete call fails. *)
Definition threeOwned : gmap string Email :=
  <["e1"%string := mkStored "e1" "u1" "g1" "one"]>
    (<["e2"%string := mkStored "e2" "u1" "g2" "two"]>
       (<["e3"%string := mkStored "e3" "u1" "g3" "three"]> ∅)).

Definition failingDeleteApi : GmailService :=
  {| MessagesList := fun _ _ => Ok [];
     MessagesGet := fun _ => Err "googleapi: Error 404: notFound"%string;
     MessagesModify := fun _ _ _ => None;
     MessagesDelete := fun _ => Some "googleapi: Error 500: backendError"%string |}.

Definition deleteService : EmailService.emailService (gmap string Email) :=
  EmailService.mkEmailService _ Memory.InMemoryEmailRepository (Ok [work]) findOwner
    (gmailClient failingDeleteApi firstFetch) mockAI 0.

(** A database whose columns take every value as it is. *)
Definition asGiven : Postgres.Columns :=
  {| Postgres.varchar255Col := Some; Postgres.textCol := Some;
     Postgres.timestampCol := Some;
     Postgres.refusal := fun _ => "pq: value refused"%string |}.

(** The message [g1] as stored for Alice, and the same provider id
    arriving for Bob. *)
Definition aliceRow : Email := mkStored "e1" "alice" "g1" "for alice".
Definition bobEmail : Email :=
  NewEmail "e2" 7 "bob" "g1" "sender@example.com" "Test Subject" "for bob" 1700000001.

End Scenarios.

(** ** internal/service: bulk actions *)

Module BulkAction.
Import GoStrings Model Repository EmailService.

Section Service.
Context {S : Type} (s : emailService S).

(** The unsubscribe service that the [unsubscribe] action builds over
    the same repository, with its outside world. *)
Variable World : Type.
Variable handleUnsubscribeURL : string -> World -> World * option error.
Variable regexMatches : string -> list string.
Variable anchorMatches : string -> list string.

Definition unsupported (action : string) : error :=
  String.append "unsupported bulk action: " action.

(** The loop of [PerformBulkAction]: the store, the world of the
    unsubscribe service, and the returned error. *)
Fixpoint bulkLoop (action userID : string) (user : User) (emailIDs : list string)
    (st : S) (n : UnsubscribeService.Net World)
  : S * UnsubscribeService.Net World * option error :=
  match emailIDs with
  | [] => (st, n, None)
  | emailID :: rest =>
      match FindByID (emailRepo s) st emailID with
      | Err _ => bulkLoop action userID user rest st n
      | Ok email =>
          if negb (String.eqb (UserID email) userID)
          then bulkLoop action userID user rest st n
          else if String.eqb action "archive" || String.eqb action "delete" then
            match GmailClient.ArchiveEmail (gmail s) (UEmail user) (GmailID email) with
            | Some _ => bulkLoop action userID user rest st n
            | None =>
                let email := setArchived true email in
                bulkLoop action userID user rest (fst (Update (emailRepo s) st email)) n
            end
          else if String.eqb action "read" then
            match GmailClient.MarkAsRead (gmail s) (UEmail user) (GmailID email) with
            | Some _ => bulkLoop action userID user rest st n
            | None => bulkLoop action userID user rest st n
            end
          else if String.eqb action "unsubscribe" then
            let '(n, _, _) :=
              UnsubscribeService.UnsubscribeEmails (emailRepo s) World handleUnsubscribeURL
                regexMatches anchorMatches st [ID email] userID n in
            bulkLoop action userID user rest st n
          else (st, n, Some (unsupported action))
      end
  end.

(** [emailService.PerformBulkAction]. *)
Definition PerformBulkAction (st : S) (n : UnsubscribeService.Net World)
    (emailIDs : list string) (action userID : string)
  : S * UnsubscribeService.Net World * option error :=
  match userRepo_FindByID s userID with
  | Err e => (st, n, Some (wrap "failed to get user" e))
  | Ok user => bulkLoop action userID user emailIDs st n
  end.

End Service.

End BulkAction.

(** ** internal/service: helpers of the unsubscribe service *)

Module UnsubscribeHelpers.
Import GoStrings.

Definition unsubscribeKeywords : list string :=
  ["unsubscribe"; "opt out"; "opt-out"; "optout"; "cancel subscription";
   "stop email"; "stop emails"; "email preferences"; "manage preferences";
   "unsubscribe here"; "opt out now"; "remove me"; "unsub"; "no thanks";
   "decline"; "quit"; "turn off"; "disable"; "cancel"]%string.

Fixpoint anyKeyword (textLower : string) (keywords : list string) : bool :=
  match keywords with
  | [] => false
  | keyword :: rest =>
      if Contains textLower keyword then true else anyKeyword textLower rest
  end.

(** [isUnsubscribeRelatedText]. *)
Definition isUnsubscribeRelatedText (unicodeLower : string -> string) (text : string)
  : bool :=
  anyKeyword (ToLower unicodeLower text) unsubscribeKeywords.

Definition fieldValueMap : gmap string string :=
  <["email"%string := "user@example.com"%string]>
    (<["confirm"%string := "on"%string]>
       (<["agreed"%string := "true"%string]>
          (<["optout"%string := "true"%string]>
             (<["unsubscribe"%string := "true"%string]>
                (<["unsub"%string := "true"%string]>
                   (<["accept"%string := "false"%string]>
                      (<["receive"%string := "false"%string]>
                         (<["marketing"%string := "false"%string]>
                            (<["newsletter"%string := "false"%string]> ∅))))))))).

(** [inferFieldValue]. *)
Definition inferFieldValue (unicodeLower : string -> string) (fieldName : string)
  : string :=
  let fieldNameLower := ToLower unicodeLower fieldName in
  match fieldValueMap !! fieldNameLower with
  | Some value => value
  | None =>
      if Contains fieldNameLower "unsub" || Contains fieldNameLower "opt"
         || Contains fieldNameLower "cancel"
      then "true"%string
      else EmptyString
  end.

(** An [input] element of a form as the form handler reads it: the
    attributes [name], [type] and [value] when present, and whether the
    attribute [checked] is present. *)
Record Input : Type := mkInput {
  attrName : option string;
  attrType : option string;
  attrChecked : bool;
  attrValue : option string
}.

(** The callback of [form.Find("input").Each] in
    [handleUnsubscribeForm]: the fields added to [formData], in the
    order of the calls to [Add]. *)
Definition addInput (unicodeLower : string -> string) (input : Input)
    (formData : list (string * string)) : list (string * string) :=
  match attrName input with
  | None => formData
  | Some name =>
      let inputType := default "text"%string (attrType input) in
      let kind := ToLower unicodeLower inputType in
      if String.eqb kind "submit" || String.eqb kind "button" then formData
      else if String.eqb kind "checkbox" || String.eqb kind "radio" then
        if attrChecked input
           || Contains (ToLower unicodeLower name) "confirm"
           || Contains (ToLower unicodeLower name) "agree"
        then formData ++ [(name, default "on"%string (attrValue input))]
        else formData
      else
        match attrValue input with
        | Some value => formData ++ [(name, value)]
        | None => formData ++ [(name, inferFieldValue unicodeLower name)]
        end
  end.

Fixpoint collectInputs (unicodeLower : string -> string) (inputs : list Input)
    (formData : list (string * string)) : list (string * string) :=
  match inputs with
  | [] => formData
  | input :: rest =>
      collectInputs unicodeLower rest (addInput unicodeLower input formData)
  end.

(** The inputs that are neither nameless nor of type submit or
    button. *)
Definition contributes (unicodeLower : string -> string) (input : Input) : bool :=
  match attrName input with
  | None => false
  | Some _ =>
      let kind := ToLower unicodeLower (default "text"%string (attrType input)) in
      negb (String.eqb kind "submit" || String.eqb kind "button")
  end.

End UnsubscribeHelpers.

(** ** internal/sse: the checkpoint of the periodic sync job *)

Module SyncJob.
Import Model.

(** The loop of [getMostRecentEmailForUser]; [ReceivedAt] is compared
    with [time.Time.After]. *)
Fixpoint mostRecentLoop (mostRecent : Email) (emails : list Email) : Email :=
  match emails with
  | [] => mostRecent
  | email :: rest =>
      if ReceivedAt mostRecent <? ReceivedAt email
      then mostRecentLoop email rest
      else mostRecentLoop mostRecent rest
  end.

(** [getMostRecentEmailForUser], on the answer of [GetEmailsByUser]. *)
Definition getMostRecentEmailForUser (byUser : result (list Email))
  : result (option Email) :=
  match byUser with
  | Err e => Err e
  | Ok [] => Ok None
  | Ok (first :: rest) => Ok (Some (mostRecentLoop first (first :: rest)))
  end.

(** The loop of [getEmailsAfter]. *)
Fixpoint afterLoop (afterEmailID : string) (allEmails : list Email) (afterFound : bool)
    (newEmails : list Email) : list Email :=
  match allEmails with
  | [] => newEmails
  | email :: rest =>
      if negb afterFound then
        if String.eqb (GmailID email) afterEmailID
        then afterLoop afterEmailID rest true newEmails
        else afterLoop afterEmailID rest afterFound newEmails
      else afterLoop afterEmailID rest afterFound (newEmails ++ [email])
  end.

(** [getEmailsAfter], on the answer of [GetEmailsByUser]. *)
Definition getEmailsAfter (byUser : result (list Email)) (afterEmailID : string)
  : result (list Email) :=
  match byUser with
  | Err e => Err e
  | Ok allEmails => Ok (afterLoop afterEmailID allEmails false [])
  end.

End SyncJob.

(** ** Further terms used in the statements *)

Module MoreTerms.
Import GoStrings Model Gmail.

(** A message as the fetch builds it has no owner, no summary, no
    category and is not archived. *)
Definition freshlyFetched (e : Email) : Prop :=
  UserID e = EmptyString /\ Summary e = EmptyString /\
  CategoryID e = EmptyString /\ Archived e = false.

(** A fetch of a page: the list call with a result size and a query,
    then every message of the page that can be fetched, in page
    order. *)
Definition listing (api : GmailService) (env : Env) (size : Z) (query : option string)
    (failure : string) : run (result (list Email)) :=
  match MessagesList api size query with
  | Err e => Returned (Err (wrap failure e))
  | Ok page =>
      emails <- SpecTerms.emailsOf api env 0 page ;;
      Returned (Ok emails)
  end.

Definition canFetch (api : GmailService) (id : string) : bool :=
  negb (isErr (MessagesGet api id)).

Definition canDelete (api : GmailService) (id : string) : bool :=
  match MessagesDelete api id with None => true | Some _ => false end.

Definition isHeader (name : string) (h : Header) : bool := String.eqb (HName h) name.

(** The bytes [html.EscapeString] takes out of a text. *)
Definition markupByte (c : ascii) : bool :=
  let n := byte c in
  ((n =? 60) || (n =? 62) || (n =? 34) || (n =? 39))%N.

Fixpoint noMarkup (s : string) : bool :=
  match s with
  | EmptyString => true
  | String c s' => negb (markupByte c) && noMarkup s'
  end.

(** Every key of an in-memory store is the local id of its message. *)
Definition wellKeyed (st : gmap string Email) : Prop :=
  forall k e, st !! k = Some e -> ID e = k.

(** The only change a bulk action makes to a stored message: the
    archived flag of a message of the acting owner is set. *)
Definition archivedOnly (userID : string) (before after : gmap string Email) : Prop :=
  forall k,
    after !! k = before !! k \/
    exists e, before !! k = Some e /\ UserID e = userID /\
              after !! k = Some (setArchived true e).

Definition knownAction (action : string) : bool :=
  String.eqb action "archive" || String.eqb action "delete"
  || String.eqb action "read" || String.eqb action "unsubscribe".

(** The AI client of internal/ai behind the service interface, over a
    provider backend and a summarizer. *)
Definition realAI (unicodeLower : string -> string)
    (backend : string -> list Category -> result string)
    (summarize : string -> result string) : AIClient.t :=
  AIClient.mk (AI.ClassifyEmail unicodeLower backend) summarize.

(** The messages the validation loops collect from a list of ids: those
    that are stored and belong to the owner, in the order of the ids. *)
Fixpoint ownedOf (st : gmap string Email) (userID : string) (ids : list string)
  : list Email :=
  match ids with
  | [] => []
  | id :: rest =>
      match st !! id with
      | Some e =>
          if String.eqb (UserID e) userID then e :: ownedOf st userID rest
          else ownedOf st userID rest
      | None => ownedOf st userID rest
      end
  end.

Definition isOwned (st : gmap string Email) (userID : string) (k : string) : Prop :=
  exists e, st !! k = Some e /\ UserID e = userID.

(** What a sink holds after one delivery attempt: with room the event
    is added; from a full sink whose subscriber reads in time the
    oldest event has gone to the subscriber and the new one is added;
    a full sink whose subscriber does not read keeps what it has. *)
Definition afterSend (jsonData : string) (drained : bool) (queue : option (list string))
  : option (list string) :=
  let held := default [] queue in
  if (List.length held <? SSE.capacity)%nat then Some (held ++ [jsonData])
  else if drained then Some (List.tl held ++ [jsonData])
  else queue.

(** No sink holds more than its capacity. *)
Definition boundedBuffers (s : SSE.SSEManager) : Prop :=
  forall channel queue,
    SSE.buffers s !! channel = Some queue -> (List.length queue <= SSE.capacity)%nat.

(** No registered sink is closed, and no sink is registered for two
    owners. *)
Definition openSinks (s : SSE.SSEManager) : Prop :=
  forall userID sinks channel,
    SSE.clients s !! userID = Some sinks -> channel ∈ sinks -> channel ∉ SSE.closed s.

Definition disjointSinks (s : SSE.SSEManager) : Prop :=
  forall user1 user2 sinks1 sinks2 channel,
    SSE.clients s !! user1 = Some sinks1 -> SSE.clients s !! user2 = Some sinks2 ->
    channel ∈ sinks1 -> channel ∈ sinks2 -> user1 = user2.

(** The handler's use of the manager: a sink is unregistered for the
    owner it is registered for. *)
Definition ownUse (o : SSE.op) (s : SSE.SSEManager) : Prop :=
  match o with
  | SSE.OpRemoveClient userID channel =>
      exists sinks, SSE.clients s !! userID = Some sinks /\ channel ∈ sinks
  | _ => True
  end.

(** The states a manager goes through under that use. *)
Inductive handled : SSE.SSEManager -> Prop :=
| handled_new : handled SSE.NewSSEManager
| handled_step o s : handled s -> ownUse o s -> handled (SSE.after (SSE.step o s)).

(** One subscriber that never reads, and [n] events sent to it. *)
Definition flooded (n : nat) : SSE.SSEManager :=
  Nat.iter n
    (fun s => SSE.after (SSE.step (SSE.OpBroadcast "u1" (Some "event"%string) []
                                      (fun _ => false)) s))
    (fst (SSE.AddClient "u1" SSE.NewSSEManager)).

(** The keywords of [isUnsubscribeRelatedText] that are not implied by
    a shorter keyword of the list. *)
Definition minimalKeywords : list string :=
  ["opt out"; "opt-out"; "optout"; "stop email"; "email preferences";
   "manage preferences"; "remove me"; "unsub"; "no thanks"; "decline"; "quit";
   "turn off"; "disable"; "cancel"]%string.

(** The values [inferFieldValue] can give. *)
Definition inferredValues : list string :=
  ["user@example.com"; "on"; "true"; "false"; EmptyString]%string.

(** A text put together from pieces, and the paragraphs [textToHtml]
    may write: the spacer, or a paragraph element whose content holds
    no markup byte. *)
Definition joined (pieces : list string) : string :=
  List.fold_right String.append EmptyString pieces.

Definition safeParagraph (p : string) : Prop :=
  p = Gmail.spacer \/
  exists content, noMarkup content = true /\ p = SpecTerms.wrapped content.

End MoreTerms.

(** ** Further concrete inputs *)

Module MoreScenarios.
Import GoStrings Model Gmail Scenarios.

(** A Gmail service whose message [m2] cannot be fetched and whose
    delete call fails for [m2] only. *)
Definition patchyApi : GmailService :=
  {| MessagesList := fun _ _ => Ok ["m1"; "m2"; "m3"]%string;
     MessagesGet := fun id =>
       if String.eqb id "m2" then Err "googleapi: Error 404: notFound"%string
       else Ok (SpecTerms.plainMessage id);
     MessagesModify := fun _ _ _ => None;
     MessagesDelete := fun id =>
       if String.eqb id "m2" then Some "googleapi: Error 404: notFound"%string
       else None |}.

(** A Gmail client whose bulk delete reports an error. *)
Definition refusingClient : GmailClient.t :=
  GmailClient.mk (fun _ => Returned (Ok [])) (fun _ _ => None) (fun _ _ => None)
    (fun _ _ => Some "access token not available"%string).

Definition refusingService : EmailService.emailService (gmap string Email) :=
  EmailService.mkEmailService _ Memory.InMemoryEmailRepository (Ok [work]) findOwner
    refusingClient mockAI 0.

(** A Gmail client on which every call succeeds. *)
Definition willingClient : GmailClient.t :=
  GmailClient.mk (fun _ => Returned (Ok [])) (fun _ _ => None) (fun _ _ => None)
    (fun _ _ => None).

Definition willingService : EmailService.emailService (gmap string Email) :=
  EmailService.mkEmailService _ Memory.InMemoryEmailRepository (Ok [work]) findOwner
    willingClient mockAI 0.

(** Two messages of owner [u1] and one of owner [u2]. *)
Definition mixedOwners : gmap string Email :=
  <["e1"%string := mkStored "e1" "u1" "g1" "one"]>
    (<["e2"%string := mkStored "e2" "u2" "g2" "two"]>
       (<["e3"%string := mkStored "e3" "u1" "g3" "three"]> ∅)).

(** The same three messages while they are still in the inbox. *)
Definition mixedInbox : gmap string Email :=
  <["e1"%string := setArchived false (mkStored "e1" "u1" "g1" "one")]>
    (<["e2"%string := setArchived false (mkStored "e2" "u2" "g2" "two")]>
       (<["e3"%string := setArchived false (mkStored "e3" "u1" "g3" "three")]> ∅)).


(** Three stored messages, the last two received at the same time. *)
Definition threeByTime : list Email :=
  [mkEmail "e1" "u1" "g1" "a" "s" "b" EmptyString EmptyString 50 false 0 0;
   mkEmail "e2" "u1" "g2" "a" "s" "b" EmptyString EmptyString 90 false 0 0;
   mkEmail "e3" "u1" "g3" "a" "s" "b" EmptyString EmptyString 90 false 0 0]%string.

End MoreScenarios.

(** * Properties *)

(** ** Strings *)

Module StringFacts.
Import GoStrings SpecTerms.

Lemma append_nil_l (a : string) : String.append EmptyString a = a.
Proof. reflexivity. Qed.

Lemma append_cons (x : ascii) (a b : string) :
  String.append (String x a) b = String x (String.append a b).
Proof. reflexivity. Qed.

Lemma append_assoc (a b c : string) :
  String.append (String.append a b) c = String.append a (String.append b c).
Proof.
  induction a as [|x a IH]; [reflexivity |].
  now rewrite !append_cons, IH.
Qed.

Lemma append_empty_r (a : string) : String.append a EmptyString = a.
Proof.
  induction a as [|x a IH]; [reflexivity |].
  now rewrite append_cons, IH.
Qed.

Lemma Split_nonempty (s : string) (sep : ascii) : Split s sep <> [].
Proof.
  destruct s as [|c s]; simpl; [discriminate |].
  destruct (Ascii.eqb c sep); [discriminate |].
  destruct (Split s sep); discriminate.
Qed.

(** A text without the separator is a single piece. *)
Lemma Split_line (l : string) (sep : ascii) :
  noByte sep l = true -> Split l sep = [l].
Proof.
  induction l as [|c l IH]; simpl; intros H; [reflexivity |].
  apply andb_prop in H as [Hc Hl].
  apply negb_true_iff in Hc. rewrite Hc, (IH Hl). reflexivity.
Qed.

(** The first piece ends at the first separator. *)
Lemma Split_app_sep (l rest : string) (sep : ascii) :
  noByte sep l = true ->
  Split (String.append l (String sep rest)) sep = l :: Split rest sep.
Proof.
  induction l as [|c l IH]; intros H.
  - rewrite append_nil_l. simpl. now rewrite Ascii.eqb_refl.
  - simpl in H. apply andb_prop in H as [Hc Hl].
    apply negb_true_iff in Hc. rewrite append_cons. simpl.
    rewrite Hc, (IH Hl). reflexivity.
Qed.

Lemma TrimSpace_empty : TrimSpace EmptyString = EmptyString.
Proof. reflexivity. Qed.

End StringFacts.

(** ** Plain-text bodies (C7) *)

Module TextToHtmlFacts.
Import GoStrings Gmail SpecTerms StringFacts.

(** The accumulating loop appends the rendering of each line. *)
Lemma textToHtml_loop_render (n : Z) (lines : list string) :
  forall (i : Z) (result : string),
    textToHtml_loop i n lines result = String.append result (renderFrom n i lines).
Proof.
  induction lines as [|line rest IH]; intros i result;
    cbn [textToHtml_loop renderFrom].
  - now rewrite append_empty_r.
  - rewrite IH. unfold renderLine, wrapped.
    destruct (nonEmpty (TrimSpace line)).
    + now rewrite append_assoc.
    + destruct ((0 <? i) && (i <? n - 1)).
      * now rewrite append_assoc.
      * reflexivity.
Qed.

Lemma textToHtml_render (text : string) :
  textToHtml text =
  renderFrom (Z.of_nat (List.length (Split text nl))) 0 (Split text nl).
Proof. unfold textToHtml. now rewrite textToHtml_loop_render. Qed.

Lemma Split_threeParagraphs (l1 l2 l3 : string) :
  isLine l1 = true -> isLine l2 = true -> isLine l3 = true ->
  Split (threeParagraphs l1 l2 l3) nl = [l1; EmptyString; l2; EmptyString; l3].
Proof.
  intros H1 H2 H3. unfold threeParagraphs, NL.
  rewrite !append_cons, !append_nil_l.
  rewrite (Split_app_sep l1 _ nl H1). simpl.
  rewrite (Split_app_sep l2 _ nl H2). simpl.
  now rewrite (Split_line l3 nl H3).
Qed.

(** C7, the claim as stated fails: a body of three paragraphs
    separated by one blank line, whose first paragraph has two lines,
    converts to four paragraph-wrapped segments, because the text is
    split on every newline and not on blank lines. *)
Lemma textToHtml_two_line_paragraph :
  let p1 := String.append "a" (String.append NL "b") in
  isParagraph p1 = true /\ isParagraph "c" = true /\ isParagraph "d" = true /\
  textToHtml (threeParagraphs p1 "c" "d")
    = "<p>a</p><p>b</p><p>&nbsp;</p><p>c</p><p>&nbsp;</p><p>d</p>"%string /\
  paragraphSegments (textToHtml (threeParagraphs p1 "c" "d")) = 4%nat /\
  paragraphSegments (textToHtml (threeParagraphs p1 "c" "d")) <> 3%nat.
Proof. vm_compute. repeat split; discriminate. Qed.

(** C7, amended: [textToHtml] splits the text on every newline; each
    line that is not blank becomes its own paragraph (trimmed and
    escaped), each blank line that is neither the first nor the last
    line becomes a non-breaking-space paragraph, and nothing else is
    produced.  In particular a body of three non-blank single-line
    paragraphs separated by one blank line converts to exactly three
    paragraph-wrapped segments with one spacer between consecutive
    ones. *)
Theorem textToHtml_lines :
  (forall text : string,
      textToHtml text =
      renderFrom (Z.of_nat (List.length (Split text nl))) 0 (Split text nl)) /\
  (forall l1 l2 l3 : string,
      isLine l1 = true -> isLine l2 = true -> isLine l3 = true ->
      isBlank l1 = false -> isBlank l2 = false -> isBlank l3 = false ->
      textToHtml (threeParagraphs l1 l2 l3) =
      String.append (wrapped (EscapeString (TrimSpace l1)))
        (String.append spacer
           (String.append (wrapped (EscapeString (TrimSpace l2)))
              (String.append spacer (wrapped (EscapeString (TrimSpace l3))))))).
Proof.
  split; [exact textToHtml_render |].
  intros l1 l2 l3 H1 H2 H3 B1 B2 B3.
  rewrite textToHtml_render, (Split_threeParagraphs l1 l2 l3 H1 H2 H3).
  unfold isBlank in B1, B2, B3.
  cbn [List.length renderFrom]. unfold renderLine, nonEmpty.
  rewrite B1, B2, B3, TrimSpace_empty. cbn [negb isEmpty].
  change (0 + 1) with 1. change (1 + 1) with 2. change (2 + 1) with 3.
  change (3 + 1) with 4.
  change (Z.of_nat 5 - 1) with 4.
  change ((0 <? 1) && (1 <? 4)) with true.
  change ((0 <? 3) && (3 <? 4)) with true.
  cbn iota. now rewrite append_empty_r.
Qed.

Lemma textToHtml_lines_witness :
  isLine "A" = true /\ isBlank "A" = false /\
  textToHtml (threeParagraphs "A" "B" "C")
    = "<p>A</p><p>&nbsp;</p><p>B</p><p>&nbsp;</p><p>C</p>"%string.
Proof.
  split; [reflexivity | split; [reflexivity |]].
  exact (proj2 textToHtml_lines "A"%string "B"%string "C"%string
           eq_refl eq_refl eq_refl eq_refl eq_refl eq_refl).
Defined.

End TextToHtmlFacts.

(** ** Body decoding (C6) *)

Module ExtractBodyFacts.
Import GoStrings Gmail SpecTerms StringFacts.

Lemma extractNested_eq (p : MessagePart) :
  extractNested p = extractMultipartBody (Parts p).
Proof. destruct p; reflexivity. Qed.

Lemma nonEmpty_isEmpty (s : string) : nonEmpty s = true -> isEmpty s = false.
Proof. unfold nonEmpty. now destruct (isEmpty s). Qed.

(** The typed test on a part that has a body. *)
Lemma dataOfType_hasBody (mimeType : string) (p : MessagePart) :
  hasBody p = true ->
  exists data,
    PartBody p = Some data /\
    dataOfType mimeType p
    = Returned (if String.eqb (MimeType p) mimeType && nonEmpty data
                then Some data else None).
Proof.
  unfold hasBody, dataOfType, BodyData. destruct (PartBody p) as [data|]; [|discriminate].
  intros _. exists data. split; [reflexivity |].
  destruct (String.eqb (MimeType p) mimeType); reflexivity.
Qed.

(** Once an HTML body is held, leaf parts that are not taken as HTML
    cannot change the outcome. *)
Lemma multipartLoop_html_kept (nested : MessagePart -> run string)
    (all rest : list MessagePart) (htmlBody : string) :
  nonEmpty htmlBody = true ->
  List.forallb (fun p => isLeaf p && hasBody p && negb (decodesAsHtml p)) rest = true ->
  forall textBody, multipartLoop nested all rest htmlBody textBody = Returned htmlBody.
Proof.
  intros Hh. induction rest as [|part rest IH]; intros Hrest textBody; cbn [multipartLoop].
  - now rewrite Hh.
  - simpl in Hrest. apply andb_prop in Hrest as [Hp Hrest].
    apply andb_prop in Hp as [Hp Hnot]. apply andb_prop in Hp as [Hleaf Hbody].
    destruct (dataOfType_hasBody textHtml part Hbody) as (data & Hdata & ->).
    destruct (dataOfType_hasBody textPlain part Hbody) as (data' & Hdata' & ->).
    rewrite Hdata in Hdata'. injection Hdata' as <-.
    unfold decodesAsHtml in Hnot. rewrite Hdata in Hnot.
    cbn [andThen].
    destruct (String.eqb (MimeType part) textHtml && nonEmpty data) eqn:E1.
    + simpl in Hnot. destruct (Base64.DecodeString data); [discriminate |].
      now apply IH.
    + destruct (String.eqb (MimeType part) textPlain && nonEmpty data).
      * destruct (Base64.DecodeString data); now apply IH.
      * unfold isLeaf in Hleaf. destruct (Parts part); [|discriminate].
        simpl. now apply IH.
Qed.

(** Leaf parts never end the loop early. *)
Lemma multipartLoop_leaves (nested : MessagePart -> run string)
    (all pre rest : list MessagePart) :
  List.forallb (fun p => isLeaf p && hasBody p) pre = true ->
  forall htmlBody textBody,
  exists htmlBody' textBody',
    multipartLoop nested all (pre ++ rest) htmlBody textBody
    = multipartLoop nested all rest htmlBody' textBody'.
Proof.
  induction pre as [|part pre IH]; intros Hpre htmlBody textBody.
  - now exists htmlBody, textBody.
  - simpl in Hpre. apply andb_prop in Hpre as [Hp Hpre].
    apply andb_prop in Hp as [Hleaf Hbody].
    cbn [app multipartLoop].
    destruct (dataOfType_hasBody textHtml part Hbody) as (data & Hdata & ->).
    destruct (dataOfType_hasBody textPlain part Hbody) as (data' & Hdata' & ->).
    cbn [andThen].
    destruct (String.eqb (MimeType part) textHtml && nonEmpty data).
    + destruct (Base64.DecodeString data); now apply IH.
    + destruct (String.eqb (MimeType part) textPlain && nonEmpty data').
      * destruct (Base64.DecodeString data'); now apply IH.
      * unfold isLeaf in Hleaf. destruct (Parts part); [|discriminate].
        simpl. now apply IH.
Qed.

(** In a multipart message all of whose parts are leaves with a body,
    the last part taken as HTML is the body, wherever the plain-text
    parts stand. *)
Lemma extractMultipartBody_flat_html (pre post : list MessagePart)
    (mimeType data h : string) :
  List.forallb (fun q => isLeaf q && hasBody q) pre = true ->
  String.eqb mimeType textHtml = true ->
  nonEmpty data = true ->
  Base64.DecodeString data = Some h ->
  nonEmpty h = true ->
  List.forallb (fun q => isLeaf q && hasBody q && negb (decodesAsHtml q)) post = true ->
  extractMultipartBody (pre ++ MkPart mimeType data [] :: post) = Returned h.
Proof.
  intros Hpre Hm Hd Hdec Hh Hpost. unfold extractMultipartBody.
  destruct (multipartLoop_leaves extractNested (pre ++ MkPart mimeType data [] :: post)
              pre (MkPart mimeType data [] :: post)
              Hpre EmptyString EmptyString) as (h0 & t0 & ->).
  cbn [multipartLoop]. unfold dataOfType at 1. cbn [MimeType MkPart BodyData PartBody].
  rewrite Hm. cbn [andThen]. rewrite Hd, Hdec.
  now apply multipartLoop_html_kept.
Qed.

(** C6, the code at the failing input: the first part is a nested
    multipart holding only plain text, the second part is the HTML.
    The nested part's plain-text rendering is returned at once and the
    HTML sibling is never looked at. *)
Theorem extractBody_nested_plain_preempts_html :
  let htmlPart := MkPart "text/html" "PGI-eDwvYj4=" [] in
  let plainPart := MkPart "text/plain" "aGk=" [] in
  let payload :=
    MkPart "multipart/mixed" EmptyString
      [MkPart "multipart/alternative" EmptyString [plainPart]; htmlPart] in
  (Base64.DecodeString <$> PartBody htmlPart) = Some (Some "<b>x</b>"%string) /\
  (Base64.DecodeString <$> PartBody plainPart) = Some (Some "hi"%string) /\
  extractBody payload = Returned (textToHtml "hi") /\
  extractBody payload = Returned "<p>hi</p>"%string /\
  extractBody payload <> Returned "<b>x</b>"%string.
Proof. vm_compute. repeat split; discriminate. Qed.

(** Of two sibling HTML parts the later one is the body. *)
Lemma extractBody_last_html_wins :
  extractBody (MkPart "multipart/alternative" EmptyString
                 [MkPart "text/html" "PGI-eDwvYj4=" []; MkPart "text/html" "aGk=" []])
  = Returned "hi"%string.
Proof. reflexivity. Qed.

(** The fallback of [extractMultipartBody] reads the data of a part
    that has no body: a multipart message in which no text is found
    makes the extraction panic. *)
Lemma extractMultipartBody_no_text_panics (parts : list MessagePart) :
  List.forallb (fun q => isLeaf q && hasBody q
                         && negb (String.eqb (MimeType q) textHtml)
                         && negb (String.eqb (MimeType q) textPlain)) parts = true ->
  extractMultipartBody parts = Panicked.
Proof.
  unfold extractMultipartBody. generalize parts at 2 as all.
  induction parts as [|part parts IH]; intros all Hparts; cbn [multipartLoop].
  - reflexivity.
  - simpl in Hparts. apply andb_prop in Hparts as [Hp Hparts].
    apply andb_prop in Hp as [Hp Hplain]. apply andb_prop in Hp as [Hp Hhtml].
    apply andb_prop in Hp as [Hleaf Hbody].
    apply negb_true_iff in Hhtml, Hplain.
    unfold dataOfType. rewrite Hhtml, Hplain. cbn [andThen].
    unfold isLeaf in Hleaf. destruct (Parts part); [|discriminate].
    simpl. now apply IH.
Qed.

End ExtractBodyFacts.

(** ** Cursor pagination (C5) *)

Module SyncCursorFacts.
Import GoStrings Model Gmail SpecTerms.

Lemma GmailID_buildEmail (env : Env) (k : nat) (id : string) (m : Message) (e : Email) :
  buildEmail env k id m = Returned e -> GmailID e = id.
Proof.
  unfold buildEmail. destruct (scanHeaders (Headers m) (Snippet m) EmptyString).
  destruct (extractBody (Payload m)); [|discriminate].
  cbn [andThen]. now intros [= <-].
Qed.

Lemma nonEmpty_neq (s : string) : s <> EmptyString -> nonEmpty s = true.
Proof. destruct s; [congruence | reflexivity]. Qed.

Section Cursor.
Variables (api : GmailService) (env : Env) (afterEmailID : string).
Hypothesis cursor_set : afterEmailID <> EmptyString.

(** Phase one: everything before the cursor is skipped. *)
Lemma syncLoop_skips (pre rest : list string) (emails : list Email) :
  ~ In afterEmailID pre ->
  syncLoop api env afterEmailID (pre ++ rest) false emails
  = syncLoop api env afterEmailID rest false emails.
Proof.
  induction pre as [|id pre IH]; intros Hpre; simpl; [reflexivity |].
  rewrite (nonEmpty_neq _ cursor_set). simpl.
  destruct (String.eqb_spec id afterEmailID) as [->|Hne].
  - exfalso. apply Hpre. now left.
  - apply IH. intros Hin. apply Hpre. now right.
Qed.

(** The cursor itself flips the flag and is skipped. *)
Lemma syncLoop_at_cursor (post : list string) (collecting : bool) (emails : list Email) :
  syncLoop api env afterEmailID (afterEmailID :: post) collecting emails
  = syncLoop api env afterEmailID post true emails.
Proof.
  simpl. now rewrite (nonEmpty_neq _ cursor_set), String.eqb_refl.
Qed.

(** Phase two: everything after it is fetched and kept in order; a
    later entry bearing the cursor id again is skipped like the first. *)
Lemma syncLoop_collects (post : list string) (emails : list Email) :
  syncLoop api env afterEmailID post true emails
  = (fetched <- emailsOf api env (List.length emails) (notCursor afterEmailID post) ;;
     Returned (emails ++ fetched)).
Proof.
  revert emails. induction post as [|id post IH]; intros emails; simpl.
  - now rewrite app_nil_r.
  - rewrite (nonEmpty_neq _ cursor_set). simpl.
    destruct (String.eqb id afterEmailID); simpl; [apply IH |].
    destruct (MessagesGet api id) as [message|e]; [|apply IH].
    destruct (buildEmail env (List.length emails) id message) as [email|];
      [|reflexivity].
    cbn [andThen]. rewrite IH, length_app. simpl.
    replace (List.length emails + 1)%nat with (Datatypes.S (List.length emails)) by lia.
    destruct (emailsOf api env _ _) as [fetched|]; [|reflexivity].
    cbn [andThen]. now rewrite <- app_assoc.
Qed.

(** A cursor that never appears leaves the flag down to the end. *)
Lemma syncLoop_never (page : list string) (emails : list Email) :
  ~ In afterEmailID page ->
  syncLoop api env afterEmailID page false emails = Returned emails.
Proof.
  intros Hpage.
  rewrite <- (app_nil_r page), syncLoop_skips by assumption.
  reflexivity.
Qed.
End Cursor.

Lemma GmailID_emailsOf (api : GmailService) (env : Env) (ids : list string) :
  Forall (fetchable api) ids ->
  forall k emails,
    emailsOf api env k ids = Returned emails -> List.map GmailID emails = ids.
Proof.
  induction 1 as [|id ids Hid Hids IH]; intros k emails; simpl.
  - now intros [= <-].
  - unfold fetchable in Hid.
    destruct (MessagesGet api id); [|discriminate].
    destruct (buildEmail env k id a) as [email|] eqn:Eb; [|discriminate].
    cbn [andThen].
    destruct (emailsOf api env (Datatypes.S k) ids) as [rest|] eqn:Er; [|discriminate].
    cbn [andThen]. intros [= <-]. simpl.
    now rewrite (GmailID_buildEmail _ _ _ _ _ Eb), (IH _ _ Er).
Qed.

Lemma notCursor_id (cursor : string) (ids : list string) :
  ~ In cursor ids -> notCursor cursor ids = ids.
Proof.
  induction ids as [|id ids IH]; simpl; intros H; [reflexivity |].
  destruct (String.eqb_spec id cursor) as [->|Hne].
  - exfalso. apply H. now left.
  - simpl. rewrite IH; [reflexivity |]. intros Hin. apply H. now right.
Qed.

(** C5, the claim as stated fails: not every message after the cursor
    is returned.  On a page of five messages with the third message's
    id as cursor, a fourth message that cannot be fetched is logged and
    skipped, and only the fifth comes back. *)
Lemma SyncEmails_cursor_skips_unfetchable :
  MessagesList fiveApiWithoutFourth (askedSize constEnv 5) (Some EmptyString)
  = Ok ["m1"; "m2"; "m3"; "m4"; "m5"]%string /\
  (List.map GmailID <$>
     match SyncEmails fiveApiWithoutFourth constEnv "me@example.com" 5 "m3" with
     | Returned (Ok emails) => Some emails
     | _ => None
     end) = Some ["m5"]%string /\
  ["m5"]%string <> ["m4"; "m5"]%string.
Proof. vm_compute. repeat split; discriminate. Qed.

(** C5, amended: with a non-empty cursor, [SyncEmails] skips the page
    up to and including the first entry bearing the cursor id and then
    goes through the entries after it in page order: an entry bearing
    the cursor id again is skipped, an entry whose message cannot be
    fetched is skipped, every other entry is built and returned, and a
    panic while one is built is the panic of the call.  When no entry
    after the cursor repeats its id and each can be fetched, the
    messages returned are exactly those after the cursor.  A cursor
    that is not on the page gives no messages. *)
Theorem SyncEmails_cursor (api : GmailService) (env : Env)
    (userEmail : string) (maxResults : Z) (afterEmailID : string)
    (page : list string) :
  MessagesList api (askedSize env maxResults) (Some EmptyString) = Ok page ->
  afterEmailID <> EmptyString ->
  (forall pre post : list string,
      page = pre ++ afterEmailID :: post ->
      ~ In afterEmailID pre ->
      SyncEmails api env userEmail maxResults afterEmailID
      = (emails <- emailsOf api env 0 (notCursor afterEmailID post) ;;
         Returned (Ok emails)) /\
      (~ In afterEmailID post ->
       Forall (fetchable api) post ->
       forall emails,
         SyncEmails api env userEmail maxResults afterEmailID = Returned (Ok emails) ->
         List.map GmailID emails = post)) /\
  (~ In afterEmailID page ->
   SyncEmails api env userEmail maxResults afterEmailID = Returned (Ok [])).
Proof.
  intros Hlist Hcur.
  assert (Hsync : SyncEmails api env userEmail maxResults afterEmailID
                  = (emails <- syncLoop api env afterEmailID page false [] ;;
                     Returned (Ok emails))).
  { unfold SyncEmails. unfold askedSize, GetEnv in *. rewrite Hlist.
    now destruct afterEmailID; [congruence |]. }
  split.
  - intros pre post -> Hpre.
    assert (Heq : SyncEmails api env userEmail maxResults afterEmailID
                  = (emails <- emailsOf api env 0 (notCursor afterEmailID post) ;;
                     Returned (Ok emails))).
    { rewrite Hsync.
      rewrite (syncLoop_skips api env afterEmailID Hcur pre _ [] Hpre).
      rewrite (syncLoop_at_cursor api env afterEmailID Hcur).
      rewrite (syncLoop_collects api env afterEmailID Hcur post []).
      now destruct (emailsOf api env _ _). }
    split; [exact Heq |].
    intros Hpost Hfetch emails. rewrite Heq, (notCursor_id _ _ Hpost).
    destruct (emailsOf api env 0 post) as [fetched|] eqn:E; [|discriminate].
    cbn [andThen]. intros [= <-]. exact (GmailID_emailsOf api env post Hfetch 0 _ E).
  - intros Hnot. rewrite Hsync.
    now rewrite (syncLoop_never api env afterEmailID Hcur).
Qed.

(** A page of five messages and the third message's id as cursor:
    messages four and five come back, in that order. *)
Lemma SyncEmails_cursor_witness :
  SyncEmails fiveApi constEnv "me@example.com" 5 "m3"
  = (emails <- emailsOf fiveApi constEnv 0 ["m4"; "m5"]%string ;; Returned (Ok emails)) /\
  (forall emails,
      SyncEmails fiveApi constEnv "me@example.com" 5 "m3" = Returned (Ok emails) ->
      List.map GmailID emails = ["m4"; "m5"]%string).
Proof.
  destruct (proj1 (SyncEmails_cursor fiveApi constEnv "me@example.com" 5 "m3"
                     fivePage eq_refl ltac:(discriminate))
              ["m1"; "m2"]%string ["m4"; "m5"]%string eq_refl
              ltac:(simpl; intros [H | [H | []]]; discriminate))
    as [Hsync Hids].
  split; [exact Hsync |].
  apply Hids.
  - simpl. intros [H | [H | []]]; discriminate.
  - repeat constructor.
Defined.

End SyncCursorFacts.

(** ** Classification fallback (C4) *)

Module CategoryMatchFacts.
Import GoStrings AI SpecTerms.

Section Matching.
Variable unicodeLower : string -> string.
Variable answer : string.

Lemma exactLoop_first (pre post : list string) (c : string) :
  List.forallb (fun x => negb (exactMatch unicodeLower answer x)) pre = true ->
  exactMatch unicodeLower answer c = true ->
  AI.exactLoop unicodeLower (AI.key unicodeLower answer) (pre ++ c :: post) = Some c.
Proof.
  unfold exactMatch, foldName.
  induction pre as [|x pre IH]; simpl; intros Hpre Hc.
  - unfold AI.key. now rewrite Hc.
  - apply andb_prop in Hpre as [Hx Hpre]. apply negb_true_iff in Hx.
    unfold AI.key at 1 2. rewrite Hx. now apply IH.
Qed.

Lemma exactLoop_none (cs : list string) :
  List.forallb (fun x => negb (exactMatch unicodeLower answer x)) cs = true ->
  AI.exactLoop unicodeLower (AI.key unicodeLower answer) cs = None.
Proof.
  unfold exactMatch, foldName.
  induction cs as [|x cs IH]; simpl; intros H; [reflexivity |].
  apply andb_prop in H as [Hx H]. apply negb_true_iff in Hx.
  unfold AI.key at 1 2. rewrite Hx. now apply IH.
Qed.

Lemma partialLoop_first (pre post : list string) (c : string) :
  List.forallb (fun x => negb (partialMatch unicodeLower answer x)) pre = true ->
  partialMatch unicodeLower answer c = true ->
  AI.partialLoop unicodeLower (AI.key unicodeLower answer) (pre ++ c :: post) = Some c.
Proof.
  unfold partialMatch, foldName.
  induction pre as [|x pre IH]; simpl; intros Hpre Hc.
  - unfold AI.key. now rewrite Hc.
  - apply andb_prop in Hpre as [Hx Hpre]. apply negb_true_iff in Hx.
    unfold AI.key at 1 2 3 4. rewrite Hx. now apply IH.
Qed.

Lemma partialLoop_none (cs : list string) :
  List.forallb (fun x => negb (partialMatch unicodeLower answer x)) cs = true ->
  AI.partialLoop unicodeLower (AI.key unicodeLower answer) cs = None.
Proof.
  unfold partialMatch, foldName.
  induction cs as [|x cs IH]; simpl; intros H; [reflexivity |].
  apply andb_prop in H as [Hx H]. apply negb_true_iff in Hx.
  unfold AI.key at 1 2 3 4. rewrite Hx. now apply IH.
Qed.
End Matching.

(** C4: for a non-empty category list, [findBestCategoryMatch] returns
    the first category that the answer names exactly, letter case and
    surrounding white space apart; when there is none, the first
    category whose name contains the answer or is contained in it;
    when there is none either, the first category of the list.  With
    the categories Work and Personal the answers "work", "definitely
    work related" and "Unrelated" all resolve to Work; with Personal
    before Work, "WORK" and "definitely work related" still resolve to
    Work, and an exact match later in the list wins over a partial
    match before it. *)
Theorem findBestCategoryMatch_order (unicodeLower : string -> string)
    (response : string) (categories : list string) :
  categories <> [] ->
  (forall pre c post,
      categories = pre ++ c :: post ->
      List.forallb (fun x => negb (exactMatch unicodeLower response x)) pre = true ->
      exactMatch unicodeLower response c = true ->
      findBestCategoryMatch unicodeLower response categories = c) /\
  (List.forallb (fun x => negb (exactMatch unicodeLower response x)) categories = true ->
   forall pre c post,
      categories = pre ++ c :: post ->
      List.forallb (fun x => negb (partialMatch unicodeLower response x)) pre = true ->
      partialMatch unicodeLower response c = true ->
      findBestCategoryMatch unicodeLower response categories = c) /\
  (List.forallb (fun x => negb (exactMatch unicodeLower response x)) categories = true ->
   List.forallb (fun x => negb (partialMatch unicodeLower response x)) categories = true ->
   List.head categories = Some (findBestCategoryMatch unicodeLower response categories)) /\
  findBestCategoryMatch unicodeLower "work" ["Work"; "Personal"]%string = "Work"%string /\
  findBestCategoryMatch unicodeLower "definitely work related" ["Work"; "Personal"]%string
    = "Work"%string /\
  findBestCategoryMatch unicodeLower "Unrelated" ["Work"; "Personal"]%string
    = "Work"%string /\
  findBestCategoryMatch unicodeLower " WORK " ["Personal"; "Work"]%string = "Work"%string /\
  findBestCategoryMatch unicodeLower "definitely work related" ["Personal"; "Work"]%string
    = "Work"%string /\
  findBestCategoryMatch unicodeLower "work" ["Homework"; "Work"]%string = "Work"%string.
Proof.
  intros Hne. unfold findBestCategoryMatch.
  split; [|split; [|split]].
  - intros pre c post -> Hpre Hc.
    now rewrite (exactLoop_first unicodeLower response pre post c Hpre Hc).
  - intros Hex pre c post Hcat Hpre Hc.
    rewrite (exactLoop_none unicodeLower response categories Hex). subst categories.
    now rewrite (partialLoop_first unicodeLower response pre post c Hpre Hc).
  - intros Hex Hpa.
    rewrite (exactLoop_none unicodeLower response categories Hex).
    rewrite (partialLoop_none unicodeLower response categories Hpa).
    destruct categories; [congruence | reflexivity].
  - repeat split; vm_compute; reflexivity.
Qed.

(** Through the theorem: "WORK" names the second category exactly,
    the first not at all; and nothing matches "Unrelated", so the
    first category is the answer. *)
Lemma findBestCategoryMatch_order_witness :
  ["Personal"; "Work"]%string <> [] /\
  findBestCategoryMatch (fun s => s) "WORK" ["Personal"; "Work"]%string = "Work"%string /\
  List.head ["Work"; "Personal"]%string
  = Some (findBestCategoryMatch (fun s => s) "Unrelated" ["Work"; "Personal"]%string).
Proof.
  split; [discriminate |]. split.
  - refine (proj1 (findBestCategoryMatch_order (fun s => s) "WORK"
                     ["Personal"; "Work"]%string _)
              ["Personal"%string] "Work"%string [] eq_refl eq_refl eq_refl).
    discriminate.
  - refine (proj1 (proj2 (proj2
              (findBestCategoryMatch_order (fun s => s) "Unrelated"
                 ["Work"; "Personal"]%string _))) eq_refl eq_refl).
    discriminate.
Defined.

End CategoryMatchFacts.

(** ** Unsubscribe (C8, C10) *)

Module UnsubscribeFacts.
Import GoStrings Model Repository UnsubscribeService Scenarios.

(** The deduplication keeps what it has collected. *)
Lemma dedupe_acc (urls : list string) :
  forall (seen : gset string) (acc : list string),
    dedupe urls seen acc = acc ++ dedupe urls seen [].
Proof.
  induction urls as [|u urls IH]; intros seen acc; simpl.
  - now rewrite app_nil_r.
  - destruct (decide (u ∈ seen)); [apply IH |].
    rewrite (IH _ (acc ++ [u])), (IH _ [u]). now rewrite <- app_assoc.
Qed.

(** It keeps the order of discovery, drops nothing but repetitions,
    and returns no URL twice. *)
Lemma dedupe_sound (urls : list string) :
  forall seen : gset string,
    sublist (dedupe urls seen []) urls /\
    NoDup (dedupe urls seen []) /\
    (forall u, u ∈ dedupe urls seen [] <-> u ∈ urls /\ u ∉ seen).
Proof.
  induction urls as [|u urls IH]; intros seen; simpl.
  - split; [constructor | split; [constructor | set_solver]].
  - destruct (decide (u ∈ seen)) as [Hin|Hnin].
    + destruct (IH seen) as (Hsub & Hnd & Hel).
      split; [now apply sublist_cons | split; [assumption |]].
      intros v. rewrite Hel. set_solver.
    + rewrite dedupe_acc. simpl.
      destruct (IH ({[u]} ∪ seen)) as (Hsub & Hnd & Hel).
      split; [now apply sublist_skip | split].
      * apply NoDup_cons. split; [|assumption].
        rewrite Hel. set_solver.
      * intros v. rewrite elem_of_cons, Hel.
        destruct (decide (v = u)) as [->|Hne]; set_solver.
Qed.

Section Facts.
Context {S : Type} (emailRepo : EmailRepository S).
Variable World : Type.
Variable handleUnsubscribeURL : string -> World -> World * option error.
Variable regexMatches : string -> list string.
Variable anchorMatches : string -> list string.

Abbreviation Net := (UnsubscribeService.Net World).
Abbreviation tryURLs := (UnsubscribeService.tryURLs World handleUnsubscribeURL).
Abbreviation allFail := (UnsubscribeService.allFail World handleUnsubscribeURL).
Abbreviation process :=
  (UnsubscribeService.processEmailUnsubscribe World handleUnsubscribeURL
     regexMatches anchorMatches).

(** Failing candidates are passed over, one request each. *)
Lemma tryURLs_failed_prefix (pre rest : list string) :
  forall (n : Net) (w1 : World),
    allFail pre (world World n) = Some w1 ->
    tryURLs (pre ++ rest) n
    = tryURLs rest (mkNet World w1 (requested World n ++ pre)).
Proof.
  induction pre as [|u pre IH]; intros [w log] w1; simpl.
  - intros [= ->]. now rewrite app_nil_r.
  - unfold request. simpl.
    destruct (handleUnsubscribeURL u w) as [w' [e|]]; [|discriminate].
    intros H. rewrite (IH (mkNet World w' (log ++ [u])) w1 H). simpl.
    now rewrite <- app_assoc.
Qed.

(** C8: the candidates are tried in the order of their discovery,
    one request each, and the first that succeeds ends the call with
    success; a message without candidates fails at once and no
    request is made; when every candidate fails, the call reports
    the single error that none of the URLs worked. *)
Theorem processEmailUnsubscribe_order (email : Email) (n : Net) :
  let urls :=
    UnsubscribeService.candidates regexMatches anchorMatches email in
  (sublist urls (regexMatches (Body email) ++ anchorMatches (Body email))
   /\ NoDup urls) /\
  (urls = [] -> process email n = (n, Some noLinks)) /\
  (forall pre u post w1 w2,
      urls = pre ++ u :: post ->
      allFail pre (world World n) = Some w1 ->
      handleUnsubscribeURL u w1 = (w2, None) ->
      process email n
      = (mkNet World w2 (requested World n ++ pre ++ [u]), None)) /\
  (forall w1,
      urls <> [] ->
      allFail urls (world World n) = Some w1 ->
      process email n
      = (mkNet World w1 (requested World n ++ urls), Some noneWorked)).
Proof.
  intros urls. unfold processEmailUnsubscribe, findUnsubscribeLinks.
  fold (UnsubscribeService.candidates regexMatches anchorMatches email).
  fold urls.
  split; [|split; [|split]].
  - destruct (dedupe_sound
                (regexMatches (Body email) ++ anchorMatches (Body email)) ∅)
      as (Hsub & Hnd & _).
    split; assumption.
  - intros ->. reflexivity.
  - intros pre u post w1 w2 Hu Hpre Hok. rewrite Hu.
    assert (Hlen : (List.length (pre ++ u :: post) =? 0)%nat = false)
      by (rewrite length_app; simpl; apply Nat.eqb_neq; lia).
    rewrite Hlen, (tryURLs_failed_prefix pre (u :: post) n w1 Hpre).
    simpl. unfold request. simpl. rewrite Hok.
    now rewrite <- app_assoc.
  - intros w1 Hne Hall.
    assert (Hlen : (List.length urls =? 0)%nat = false)
      by (destruct urls; [congruence | reflexivity]).
    rewrite Hlen. rewrite <- (app_nil_r urls) at 1.
    rewrite (tryURLs_failed_prefix urls [] n w1 Hall).
    reflexivity.
Qed.

(** C10: [UnsubscribeEmails] returns [nil] whatever the ids, the
    store and the world are: errors of single messages are logged
    and go no further. *)
Theorem UnsubscribeEmails_returns_nil (st : S) (emailIDs : list string)
    (userID : string) (n : Net) :
  snd (UnsubscribeEmails emailRepo World handleUnsubscribeURL
         regexMatches anchorMatches st emailIDs userID n) = None.
Proof.
  unfold UnsubscribeEmails.
  destruct (List.length _ =? 0)%nat; [reflexivity |].
  destruct (processAll _ _ _ _ _ _ _) as [n' logged]. reflexivity.
Qed.
End Facts.

(** Both ways of failing altogether give [nil]: every message of the
    batch fails (one has a dead link, one has no link at all), and no
    id of the batch belongs to the caller. *)
Lemma UnsubscribeEmails_total_failure_is_nil :
  let run ids user :=
    UnsubscribeEmails Memory.InMemoryEmailRepository unit alwaysFails linesOf noAnchors
      twoOwned ids user (mkNet unit tt []) in
  run ["e1"; "e2"]%string "u1"%string
  = (mkNet unit tt ["https://a.example/unsubscribe"%string],
     [noneWorked; noLinks], None) /\
  run ["e1"; "e2"; "missing"]%string "u2"%string = (mkNet unit tt [], [], None).
Proof. vm_compute. split; reflexivity. Qed.

(** The dead link is requested first and fails, the working link is
    requested next and ends the call; the third link is never
    requested. *)
Lemma processEmailUnsubscribe_order_witness :
  processEmailUnsubscribe unit onlyOk linesOf noAnchors threeLinks (mkNet unit tt [])
  = (mkNet unit tt
       ["https://dead.example/unsubscribe"; "https://ok.example/unsubscribe"]%string,
     None).
Proof.
  exact (proj1 (proj2 (proj2
           (processEmailUnsubscribe_order unit onlyOk linesOf noAnchors threeLinks
              (mkNet unit tt []))))
           ["https://dead.example/unsubscribe"%string]
           "https://ok.example/unsubscribe"%string
           ["https://never.example/unsubscribe"%string] tt tt
           eq_refl eq_refl eq_refl).
Defined.

End UnsubscribeFacts.

(** ** The subscriber registry (C9) *)

Module SSEFacts.
Import SSE.

Lemma AddClient_nonEmptySets (userID : string) (s : SSEManager) :
  nonEmptySets s -> nonEmptySets (fst (AddClient userID s)).
Proof.
  intros Hinv u sinks. unfold AddClient. simpl.
  destruct (decide (u = userID)) as [->|Hne].
  - rewrite lookup_insert_eq. intros [= <-]. set_solver.
  - rewrite lookup_insert_ne by congruence.
    destruct (clients s !! userID) eqn:E.
    + apply Hinv.
    + rewrite lookup_insert_ne by congruence. apply Hinv.
Qed.

Lemma RemoveClient_nonEmptySets (userID : string) (channel : nat) (s s' : SSEManager) :
  nonEmptySets s -> RemoveClient userID channel s = Returns s' -> nonEmptySets s'.
Proof.
  intros Hinv. unfold RemoveClient.
  destruct (clients s !! userID) as [userClients|] eqn:E.
  - destruct (decide (channel ∈ closed s)); [discriminate |].
    destruct (decide (size (userClients ∖ {[channel]}) = 0%nat)) as [Hz|Hnz];
      intros [= <-]; intros u sinks; simpl.
    + destruct (decide (u = userID)) as [->|Hne].
      * now rewrite lookup_delete_eq.
      * rewrite lookup_delete_ne by congruence. apply Hinv.
    + destruct (decide (u = userID)) as [->|Hne].
      * rewrite lookup_insert_eq. intros [= <-] Hempty.
        apply Hnz. rewrite Hempty. apply size_empty.
      * rewrite lookup_insert_ne by congruence. apply Hinv.
  - now intros [= <-].
Qed.

Lemma BroadcastToUser_clients (userID : string) (jsonData : option string)
    (order : list nat) (drains : nat -> bool) (s : SSEManager) :
  clients (after (BroadcastToUser userID jsonData order drains s)) = clients s /\
  closed (after (BroadcastToUser userID jsonData order drains s)) = closed s.
Proof.
  unfold BroadcastToUser.
  destruct (clients s !! userID); [|split; reflexivity].
  destruct jsonData; [|split; reflexivity].
  destruct (sendLoop _ _ _ _ _); split; reflexivity.
Qed.

Lemma Receive_clients (channel : nat) (s : SSEManager) :
  clients (Receive channel s) = clients s /\ closed (Receive channel s) = closed s.
Proof.
  unfold Receive. destruct (buffers s !! channel) as [[|e queue]|]; split; reflexivity.
Qed.





End SSEFacts.

(** ** The message store (C2) *)

Module StoreFacts.
Import GoStrings Model Postgres Scenarios.

Lemma NoDup_map_filter {A B : Type} (f : A -> B) (P : A -> bool) (l : list A) :
  List.NoDup (List.map f l) -> List.NoDup (List.map f (List.filter P l)).
Proof.
  induction l as [|a l IH]; simpl; intros H; [constructor |].
  apply List.NoDup_cons_iff in H as [Ha Hl].
  destruct (P a); simpl; [|now apply IH].
  constructor; [|now apply IH].
  intros Hin. apply Ha. apply in_map_iff in Hin as (x & Hx & Hin).
  apply in_map_iff. exists x. split; [assumption |].
  now apply List.filter_In in Hin as [Hin _].
Qed.

Lemma NoDup_map_snoc {A B : Type} (f : A -> B) (l : list A) (x : A) :
  List.NoDup (List.map f l) -> ~ In (f x) (List.map f l) ->
  List.NoDup (List.map f (l ++ [x])).
Proof.
  induction l as [|a l IH]; simpl; intros H Hx.
  - constructor; [intros [] | constructor].
  - apply List.NoDup_cons_iff in H as [Ha Hl].
    constructor.
    + rewrite List.map_app. intros Hin. apply in_app_or in Hin as [Hin|Hin].
      * now apply Ha.
      * simpl in Hin. destruct Hin as [Hin|[]]. apply Hx. left. congruence.
    + apply IH; [assumption |]. intros Hin. apply Hx. now right.
Qed.

(** The unique index on [gmail_id] finds no row: no stored provider
    id equals the new one. *)
Lemma no_gmail_conflict (email : Email) (rows : table) :
  List.existsb (sameGmailID email) rows = false ->
  ~ In (GmailID email) (List.map GmailID rows).
Proof.
  induction rows as [|row rows IH]; simpl; intros H; [tauto |].
  apply orb_false_iff in H as [Hrow Hrows].
  intros [Heq|Hin]; [|now apply IH].
  unfold sameGmailID in Hrow. rewrite Heq, String.eqb_refl in Hrow. discriminate.
Qed.

Lemma no_id_conflict (id : string) (rows : table) :
  List.existsb (sameID id) rows = false -> ~ In id (List.map ID rows).
Proof.
  induction rows as [|row rows IH]; simpl; intros H; [tauto |].
  apply orb_false_iff in H as [Hrow Hrows].
  intros [Heq|Hin]; [|now apply IH].
  unfold sameID in Hrow. rewrite Heq, String.eqb_refl in Hrow. discriminate.
Qed.

(** An update in place changes neither ids nor provider ids. *)
Lemma map_keeps_keys (test : Email -> bool) (change : Email -> Email) (rows : table) :
  (forall row, ID (change row) = ID row) ->
  (forall row, GmailID (change row) = GmailID row) ->
  List.map ID (List.map (fun row => if test row then change row else row) rows)
  = List.map ID rows /\
  List.map GmailID (List.map (fun row => if test row then change row else row) rows)
  = List.map GmailID rows.
Proof.
  intros Hid Hg. induction rows as [|row rows [IH1 IH2]]; simpl; [split; reflexivity |].
  rewrite IH1, IH2. destruct (test row); [rewrite Hid, Hg |]; split; reflexivity.
Qed.

Lemma Create_keysUnique (c : Columns) (dbNow : Z) (rows : table) (email : Email) :
  keysUnique rows -> keysUnique (fst (Create c dbNow rows email)).
Proof.
  intros [Hg Hid]. unfold Create, keysUnique.
  destruct (proposed c email) as [excluded|]; [|split; assumption].
  destruct (List.existsb (sameGmailID excluded) rows) eqn:Eg.
  - cbn [fst].
    destruct (map_keeps_keys (sameGmailID excluded) (conflictUpdate dbNow excluded) rows)
      as [-> ->]; [reflexivity | reflexivity |]. split; assumption.
  - destruct (List.existsb (sameID (ID excluded)) rows) eqn:Ei; [split; assumption |].
    cbn [fst]. split.
    + apply NoDup_map_snoc; [assumption | now apply no_gmail_conflict].
    + apply NoDup_map_snoc; [assumption | now apply no_id_conflict].
Qed.

Lemma Update_keysUnique (dbNow : Z) (rows : table) (email : Email) :
  keysUnique rows -> keysUnique (fst (Update dbNow rows email)).
Proof.
  intros [Hg Hid]. unfold Update, keysUnique.
  destruct (negb (varchar255 (CategoryID email))); [split; assumption |].
  cbn [fst].
  destruct (map_keeps_keys (sameID (ID email)) (rowUpdate dbNow email) rows)
    as [-> ->]; [reflexivity | reflexivity |]. split; assumption.
Qed.

Lemma Delete_keysUnique (rows : table) (id : string) :
  keysUnique rows -> keysUnique (fst (Delete rows id)).
Proof.
  intros [Hg Hid]. unfold Delete, keysUnique. cbn [fst].
  split; now apply NoDup_map_filter.
Qed.

Lemma reachable_keysUnique (rows : table) : reachable rows -> keysUnique rows.
Proof.
  induction 1.
  - split; constructor.
  - now apply Create_keysUnique.
  - now apply Update_keysUnique.
  - now apply Delete_keysUnique.
Qed.

(** Distinct provider ids give distinct (owner, provider id) pairs. *)
Lemma ownerKey_unique (rows : table) :
  List.NoDup (List.map GmailID rows) -> List.NoDup (List.map ownerKey rows).
Proof.
  induction rows as [|row rows IH]; simpl; intros H; [constructor |].
  apply List.NoDup_cons_iff in H as [Hrow Hrows].
  constructor; [|now apply IH].
  intros Hin. apply Hrow. apply in_map_iff in Hin as (x & Hx & Hin).
  apply in_map_iff. exists x. split; [|assumption].
  unfold ownerKey in Hx. congruence.
Qed.

(** The row an INSERT proposes holds each value of the message as its
    column takes it. *)
Lemma proposed_columns (c : Columns) (email excluded : Email) :
  proposed c email = Some excluded ->
  varchar255Col c (ID email) = Some (ID excluded) /\
  varchar255Col c (UserID email) = Some (UserID excluded) /\
  varchar255Col c (GmailID email) = Some (GmailID excluded) /\
  textCol c (From email) = Some (From excluded) /\
  textCol c (Subject email) = Some (Subject excluded) /\
  textCol c (Body email) = Some (Body excluded) /\
  textCol c (Summary email) = Some (Summary excluded) /\
  varchar255Col c (CategoryID email) = Some (CategoryID excluded) /\
  timestampCol c (ReceivedAt email) = Some (ReceivedAt excluded) /\
  Archived email = Archived excluded /\
  timestampCol c (CreatedAt email) = Some (CreatedAt excluded) /\
  timestampCol c (UpdatedAt email) = Some (UpdatedAt excluded).
Proof.
  unfold proposed. intros H.
  repeat match type of H with
         | context [varchar255Col c ?x] =>
             destruct (varchar255Col c x); [|discriminate]; cbn [mbind option_bind] in H
         | context [textCol c ?x] =>
             destruct (textCol c x); [|discriminate]; cbn [mbind option_bind] in H
         | context [timestampCol c ?x] =>
             destruct (timestampCol c x); [|discriminate]; cbn [mbind option_bind] in H
         end.
  injection H as <-. repeat split.
Qed.

(** C2, the claim as stated fails: the key of the store is the provider
    id alone.  Alice's stored message [g1] and a create for Bob with the
    same provider id conflict; the create succeeds and hands Alice's row
    to Bob, so that Alice's message is no longer found. *)
Lemma Create_reassigns_other_owner :
  reachable [aliceRow] /\
  FindByGmailID [aliceRow] "alice" "g1" = Ok aliceRow /\
  Create asGiven 9 [aliceRow] bobEmail = ([conflictUpdate 9 bobEmail aliceRow], None) /\
  ID (conflictUpdate 9 bobEmail aliceRow) = "e1"%string /\
  UserID (conflictUpdate 9 bobEmail aliceRow) = "bob"%string /\
  Body (conflictUpdate 9 bobEmail aliceRow) = "for bob"%string /\
  FindByGmailID (fst (Create asGiven 9 [aliceRow] bobEmail)) "alice" "g1" = Err notFound /\
  ownerKey aliceRow <> ownerKey bobEmail.
Proof.
  split; [exact (reach_Create asGiven 0 [] aliceRow reach_empty) |].
  vm_compute. repeat split; discriminate.
Qed.

(** C2, amended: the Postgres store enforces uniqueness on the provider
    id alone.  In every reachable table no two rows share a provider id,
    hence none share an (owner, provider id) pair, and no two share a
    local id.  A create whose provider id is not stored leaves every
    stored row as it is.  A create whose provider id is stored adds no
    row: it rewrites the one row bearing that provider id, which keeps
    its local id, its provider id and its creation time and takes the
    owner, sender, subject, body, summary, category, reception time and
    archived flag of the created message (each as its column takes it)
    and the server time as update time, whoever owned it before; every
    other row is left as it is. *)
Theorem gmail_id_is_the_key :
  (forall rows : table,
      reachable rows ->
      List.NoDup (List.map GmailID rows) /\
      List.NoDup (List.map ownerKey rows) /\
      List.NoDup (List.map ID rows)) /\
  (forall (c : Columns) (dbNow : Z) (rows : table) (email : Email),
      (forall excluded, proposed c email = Some excluded ->
                        List.existsb (sameGmailID excluded) rows = false) ->
      exists added : table,
        fst (Create c dbNow rows email) = rows ++ added /\
        (snd (Create c dbNow rows email) = None ->
         exists excluded, proposed c email = Some excluded /\ added = [excluded])) /\
  (forall (c : Columns) (dbNow : Z) (rows : table) (email excluded : Email),
      proposed c email = Some excluded ->
      List.existsb (sameGmailID excluded) rows = true ->
      snd (Create c dbNow rows email) = None /\
      List.length (fst (Create c dbNow rows email)) = List.length rows /\
      List.map ID (fst (Create c dbNow rows email)) = List.map ID rows /\
      List.map GmailID (fst (Create c dbNow rows email)) = List.map GmailID rows /\
      List.map CreatedAt (fst (Create c dbNow rows email)) = List.map CreatedAt rows /\
      (forall row, In row rows -> GmailID row <> GmailID excluded ->
                   In row (fst (Create c dbNow rows email))) /\
      (forall row, In row (fst (Create c dbNow rows email)) ->
                   GmailID row = GmailID excluded ->
                   varchar255Col c (UserID email) = Some (UserID row) /\
                   textCol c (From email) = Some (From row) /\
                   textCol c (Subject email) = Some (Subject row) /\
                   textCol c (Body email) = Some (Body row) /\
                   textCol c (Summary email) = Some (Summary row) /\
                   varchar255Col c (CategoryID email) = Some (CategoryID row) /\
                   timestampCol c (ReceivedAt email) = Some (ReceivedAt row) /\
                   Archived row = Archived email /\
                   UpdatedAt row = dbNow)).
Proof.
  split; [|split].
  - intros rows Hreach. destruct (reachable_keysUnique rows Hreach) as [Hg Hid].
    split; [assumption | split; [now apply ownerKey_unique | assumption]].
  - intros c dbNow rows email Hfree. unfold Create.
    destruct (proposed c email) as [excluded|].
    + rewrite (Hfree excluded eq_refl).
      destruct (List.existsb (sameID (ID excluded)) rows).
      * exists []. simpl. rewrite app_nil_r. split; [reflexivity | discriminate].
      * exists [excluded]. simpl. split; [reflexivity |]. intros _. now exists excluded.
    + exists []. simpl. rewrite app_nil_r. split; [reflexivity | discriminate].
  - intros c dbNow rows email excluded Hprop Hconf. unfold Create.
    rewrite Hprop, Hconf. simpl.
    destruct (map_keeps_keys (sameGmailID excluded) (conflictUpdate dbNow excluded) rows)
      as [Hid Hg]; [reflexivity | reflexivity |].
    split; [reflexivity |]. split; [apply List.length_map |].
    split; [exact Hid |]. split; [exact Hg |]. split; [|split].
    + clear. induction rows as [|row rows IH]; simpl; [reflexivity |].
      rewrite IH. now destruct (sameGmailID excluded row).
    + intros row Hin Hne. apply in_map_iff. exists row. split; [|assumption].
      unfold sameGmailID. destruct (String.eqb_spec (GmailID row) (GmailID excluded));
        [contradiction | reflexivity].
    + intros row Hin Heq. apply in_map_iff in Hin as (old & Hold & _).
      destruct (proposed_columns c email excluded Hprop)
        as (_ & Hu & _ & Hf & Hs & Hb & Hsu & Hc & Hr & Ha & _ & _).
      unfold sameGmailID in Hold.
      destruct (String.eqb_spec (GmailID old) (GmailID excluded)) as [Hsame|Hdiff].
      * subst row. simpl. repeat split; congruence.
      * subst row. contradiction.
Qed.

(** Alice's stored row and Bob's create with the same provider id. *)
Lemma gmail_id_is_the_key_witness :
  List.NoDup (List.map GmailID [aliceRow]) /\
  List.length (fst (Create asGiven 9 [aliceRow] bobEmail)) = 1%nat /\
  (forall row, In row (fst (Create asGiven 9 [aliceRow] bobEmail)) ->
               GmailID row = GmailID bobEmail ->
               Some (UserID bobEmail) = Some (UserID row) /\
               Some (From bobEmail) = Some (From row) /\
               Some (Subject bobEmail) = Some (Subject row) /\
               Some (Body bobEmail) = Some (Body row) /\
               Some (Summary bobEmail) = Some (Summary row) /\
               Some (CategoryID bobEmail) = Some (CategoryID row) /\
               Some (ReceivedAt bobEmail) = Some (ReceivedAt row) /\
               Archived row = Archived bobEmail /\
               UpdatedAt row = 9).
Proof.
  split; [|split].
  - exact (proj1 (proj1 gmail_id_is_the_key [aliceRow]
                    (reach_Create asGiven 0 [] aliceRow reach_empty))).
  - exact (proj1 (proj2 (proj2 (proj2 gmail_id_is_the_key) asGiven 9 [aliceRow]
                                  bobEmail bobEmail eq_refl eq_refl))).
  - exact (proj2 (proj2 (proj2 (proj2 (proj2 (proj2 (proj2 (proj2 gmail_id_is_the_key)
             asGiven 9 [aliceRow] bobEmail bobEmail eq_refl eq_refl))))))).
Defined.

(** The in-memory store is keyed by the local id and accepts a second
    message with a stored (owner, provider id) pair. *)
Lemma Memory_keeps_both :
  let again := mkStored "e4" "u1" "g1" "one" in
  size (fst (Memory.Create threeOwned again)) = 4%nat /\
  fst (Memory.Create threeOwned again) !! "e1"%string = Some (mkStored "e1" "u1" "g1" "one") /\
  fst (Memory.Create threeOwned again) !! "e4"%string = Some again.
Proof. vm_compute. repeat split. Qed.

End StoreFacts.

(** ** Sync (C1) *)

Module SyncFacts.
Import GoStrings Model Repository EmailService Scenarios.

Section Goroutines.
Context {S : Type} (s : emailService S).
Variables (userID : string) (user : User) (categories : list Category).

Abbreviation advance' := (advance s userID user categories).
Abbreviation run' := (runSchedule s userID user categories).

(** The dedupe check of the goroutine: a fetched message whose
    (owner, provider id) is stored is left alone. *)
Lemma advance_skips_stored (st : S) (email stored : Email) :
  FindByGmailID (emailRepo s) st userID (GmailID email) = Ok stored ->
  advance' st (mkTask Fresh email) = (st, mkTask Finished (setUserID userID email), None).
Proof. intros H. unfold advance. simpl. now rewrite H. Qed.

Lemma advance_Finished (st : S) (t : task) :
  stageOf t = Finished -> advance' st t = (st, t, None).
Proof. intros H. unfold advance. now rewrite H. Qed.

(** Every step brings a goroutine nearer to its end. *)
Lemma advance_stepsLeft (st : S) (t : task) :
  stageOf t <> Finished ->
  (stepsLeft (stageOf (snd (fst (advance' st t)))) < stepsLeft (stageOf t))%nat.
Proof.
  unfold advance. destruct (stageOf t); intros Hne.
  - destruct (FindByGmailID _ _ _ _); simpl; lia.
  - destruct (ClassifyAndSummarizeEmail s (object t) categories) as [email [e|]];
      [simpl; lia |].
    destruct (Create _ _ _) as [st' [e|]]; simpl; lia.
  - destruct (GmailClient.ArchiveEmail _ _ _); simpl; lia.
  - congruence.
Qed.

Lemma run_app (a b : list nat) :
  forall (st : S) (tasks : list task) (errs : list error),
    run' (a ++ b) st tasks errs
    = let '(st', tasks', errs') := run' a st tasks errs in run' b st' tasks' errs'.
Proof.
  induction a as [|i a IH]; intros st tasks errs; cbn [app runSchedule].
  - reflexivity.
  - destruct (tasks !! i) as [t|]; [|apply IH].
    destruct (advance' st t) as [[st' t'] err]. apply IH.
Qed.

Lemma run_none (schedule : list nat) (st : S) (errs : list error) :
  run' schedule st [] errs = (st, [], errs).
Proof. induction schedule as [|i rest IH]; simpl; [reflexivity | exact IH]. Qed.

(** One goroutine alone: a step of it happens, or nothing does. *)
Lemma run_one_step (i : nat) (rest : list nat) (st : S) (t : task) (errs : list error) :
  run' (i :: rest) st [t] errs
  = match i with
    | O => let '(st', t', err) := advance' st t in
           run' rest st' [t'] (match err with Some e => errs ++ [e] | None => errs end)
    | Datatypes.S _ => run' rest st [t] errs
    end.
Proof.
  destruct i as [|i]; cbn [runSchedule]; simpl; [|reflexivity].
  now destruct (advance' st t) as [[st' t'] err].
Qed.

Lemma run_finished (schedule : list nat) (st : S) (t : task) (errs : list error) :
  stageOf t = Finished -> run' schedule st [t] errs = (st, [t], errs).
Proof.
  intros Hfin. induction schedule as [|i rest IH]; [reflexivity |].
  rewrite run_one_step. destruct i; [|exact IH].
  now rewrite (advance_Finished st t Hfin).
Qed.

Lemma run_to_end (n : nat) :
  forall (st : S) (t : task) (errs : list error),
    (stepsLeft (stageOf t) <= n)%nat ->
    exists st' t' errs',
      run' (List.repeat 0%nat n) st [t] errs = (st', [t'], errs') /\
      stageOf t' = Finished.
Proof.
  induction n as [|n IH]; intros st t errs Hleft.
  - exists st, t, errs. split; [reflexivity |].
    destruct (stageOf t); simpl in Hleft; [lia | lia | lia | reflexivity].
  - cbn [List.repeat]. rewrite run_one_step.
    destruct (stageOf t) eqn:Est;
      try (pose proof (advance_stepsLeft st t ltac:(congruence)) as Hlt;
           destruct (advance' st t) as [[st1 t1] err]; simpl in Hlt;
           apply IH; rewrite Est in Hlt; simpl in *; lia).
    rewrite (advance_Finished st t Est). apply IH. rewrite Est. simpl. lia.
Qed.

(** With a single goroutine the schedule does not matter. *)
Lemma run_single (schedule : list nat) :
  forall (st : S) (t : task) (errs : list error),
    run' (schedule ++ completion 1) st [t] errs = run' (completion 1) st [t] errs.
Proof.
  assert (Hone : forall st t errs,
             (let '(st', t', err) := advance' st t in
              run' (completion 1) st' [t']
                (match err with Some e => errs ++ [e] | None => errs end))
             = run' (completion 1) st [t] errs).
  { intros st t errs.
    rewrite <- (run_one_step 0 (completion 1) st t errs).
    change (0%nat :: completion 1) with (List.repeat 0%nat 3 ++ [0%nat]).
    rewrite run_app.
    destruct (run_to_end 3 st t errs) as (st' & t' & errs' & Hrun & Hfin).
    { destruct (stageOf t); simpl; lia. }
    change (completion 1) with (List.repeat 0%nat 3).
    rewrite Hrun. now apply run_finished. }
  induction schedule as [|i rest IH]; intros st t errs; [reflexivity |].
  cbn [app]. rewrite run_one_step. destruct i as [|i]; [|apply IH].
  rewrite <- (Hone st t errs).
  destruct (advance' st t) as [[st' t'] err]. apply IH.
Qed.

Lemma syncAll_short (schedule : list nat) (st : S) (gmailEmails : list Email) :
  (List.length gmailEmails <= 1)%nat ->
  syncAll s userID user categories schedule st gmailEmails
  = syncAll s userID user categories [] st gmailEmails.
Proof.
  unfold syncAll. destruct gmailEmails as [|email [|email' rest]]; simpl; intros Hlen.
  - now rewrite !run_none.
  - change [0%nat; 0%nat; 0%nat] with (completion 1). now rewrite run_single.
  - lia.
Qed.
End Goroutines.

(** When the fetch hands out one message at most, there is one
    goroutine at most and the schedule does not matter. *)
Lemma SyncEmails_short_page {S : Type} (s : emailService S) (schedule : list nat)
    (st : S) (userID : string) :
  (forall userEmail,
      match GmailClient.ListUnreadEmails (gmail s) userEmail with
      | Returned (Ok gmailEmails) => (List.length gmailEmails <= 1)%nat
      | _ => True
      end) ->
  SyncEmails s schedule st userID = SyncEmails s [] st userID.
Proof.
  intros Hshort. unfold SyncEmails.
  destruct (userRepo_FindByID s userID) as [user|]; [|reflexivity].
  destruct (categoryRepo_FindAll s) as [categories|]; [|reflexivity].
  specialize (Hshort (UEmail user)).
  destruct (GmailClient.ListUnreadEmails (gmail s) (UEmail user)) as [[gmailEmails|]|];
    [|reflexivity | reflexivity].
  now rewrite (syncAll_short s userID user categories schedule st gmailEmails Hshort).
Qed.

(** C1, the code at the failing input, on the in-memory store: one
    upstream message; the first run stores it under the local id [e1];
    the second run, on the same upstream message, skips it in the
    dedupe check and then creates it again under the fresh local id
    [e2], unclassified.  The store has grown and holds the pair
    (owner, provider id) twice.  There is one goroutine in each run,
    so this is what happens under every schedule. *)
Theorem SyncEmails_second_run_creates_again :
  forall schedule1 schedule2 : list nat,
  let run1 :=
    SyncEmails (syncService Memory.InMemoryEmailRepository firstFetch) schedule1 ∅ "u1" in
  let run2 :=
    SyncEmails (syncService Memory.InMemoryEmailRepository secondFetch) schedule2
      (fst run1) "u1" in
  snd run1 = Returned None /\ snd run2 = Returned None /\
  size (fst run1) = 1%nat /\ size (fst run2) = 2%nat /\
  fst run2 <> fst run1 /\
  (ownerKey <$> fst run1) !! "e1"%string = Some ("u1", "g1")%string /\
  (ownerKey <$> fst run2) !! "e1"%string = Some ("u1", "g1")%string /\
  (ownerKey <$> fst run2) !! "e2"%string = Some ("u1", "g1")%string /\
  (Summary <$> fst run2) !! "e1"%string = Some "Summary of the email"%string /\
  (Summary <$> fst run2) !! "e2"%string = Some EmptyString.
Proof.
  intros schedule1 schedule2 run1 run2. subst run1 run2.
  rewrite (SyncEmails_short_page (syncService Memory.InMemoryEmailRepository firstFetch)
             schedule1 ∅ "u1") by (intros userEmail; vm_compute; lia).
  rewrite (SyncEmails_short_page (syncService Memory.InMemoryEmailRepository secondFetch)
             schedule2 _ "u1") by (intros userEmail; vm_compute; lia).
  vm_compute. repeat split; try discriminate.
Qed.

(** The same two runs on the Postgres store: the second run's create
    conflicts on the provider id and overwrites the stored row with the
    unclassified message. *)
Lemma SyncEmails_second_run_overwrites_row :
  forall schedule1 schedule2 : list nat,
  let run1 :=
    SyncEmails (syncService (Postgres.PostgresEmailRepository asGiven 150) firstFetch)
      schedule1 [] "u1" in
  let run2 :=
    SyncEmails (syncService (Postgres.PostgresEmailRepository asGiven 250) secondFetch)
      schedule2 (fst run1) "u1" in
  snd run1 = Returned None /\ snd run2 = Returned None /\
  List.map (fun row => (ID row, Summary row, CategoryID row, Archived row)) (fst run1)
  = [("e1", "Summary of the email", "c1", true)]%string /\
  List.map (fun row => (ID row, Summary row, CategoryID row, Archived row)) (fst run2)
  = [("e1", EmptyString, EmptyString, false)]%string /\
  fst run2 <> fst run1.
Proof.
  intros schedule1 schedule2 run1 run2. subst run1 run2.
  rewrite (SyncEmails_short_page
             (syncService (Postgres.PostgresEmailRepository asGiven 150) firstFetch)
             schedule1 [] "u1") by (intros userEmail; vm_compute; lia).
  rewrite (SyncEmails_short_page
             (syncService (Postgres.PostgresEmailRepository asGiven 250) secondFetch)
             schedule2 _ "u1") by (intros userEmail; vm_compute; lia).
  vm_compute. repeat split; discriminate.
Qed.

End SyncFacts.

(** ** Bulk delete (C3) *)

Module DeleteFacts.
Import GoStrings Model Repository EmailService Scenarios.

(** The guard of the service: when the Gmail client reports an error,
    nothing is deleted locally and the error is returned. *)
Lemma DeleteEmails_guard {S : Type} (s : emailService S) (st : S)
    (emailIDs : list string) (userID : string) :
  (forall userEmail ids, GmailClient.DeleteEmails (gmail s) userEmail ids <> None) ->
  fst (DeleteEmails s st emailIDs userID) = st /\
  (collectOwned s st userID emailIDs [] <> [] ->
   snd (DeleteEmails s st emailIDs userID) <> None).
Proof.
  intros Hfail. unfold DeleteEmails.
  destruct (collectOwned s st userID emailIDs []) as [|e es] eqn:E.
  - simpl. split; [reflexivity | congruence].
  - cbn [List.length Nat.eqb].
    destruct (userRepo_FindByID s userID) as [user|err].
    + destruct (GmailClient.DeleteEmails (gmail s) (UEmail user) _) as [err|] eqn:Ed.
      * split; [reflexivity | discriminate].
      * exfalso. exact (Hfail _ _ Ed).
    + split; [reflexivity | discriminate].
Qed.

(** The client of internal/gmail never reports one. *)
Lemma gmailClient_DeleteEmails_nil (api : Gmail.GmailService) (env : Gmail.Env)
    (userEmail : string) (ids : list string) :
  GmailClient.DeleteEmails (gmailClient api env) userEmail ids = None.
Proof. reflexivity. Qed.

(** C3, the code at the failing input: three stored messages of the
    caller, and a Gmail service on which every delete call fails.  The
    client deletes nothing remotely and still returns [nil]; the service
    then deletes all three messages locally and returns [nil]. *)
Theorem DeleteEmails_remote_failure_unseen :
  Gmail.DeleteEmails failingDeleteApi "test@example.com" ["g1"; "g2"; "g3"]%string
  = (None, []) /\
  size threeOwned = 3%nat /\
  DeleteEmails deleteService threeOwned ["e1"; "e2"; "e3"]%string "u1"
  = (∅, None).
Proof. vm_compute. repeat split. Qed.

End DeleteFacts.

(** ** More on the Gmail client *)

Module GmailClientFacts.
Import GoStrings Model Gmail SpecTerms MoreTerms MoreScenarios.

Lemma listLoop_emailsOf (api : GmailService) (env : Env) (msgs : list string) :
  forall emails : list Email,
    listLoop api env msgs emails
    = (fetched <- emailsOf api env (List.length emails) msgs ;;
       Returned (emails ++ fetched)).
Proof.
  induction msgs as [|id msgs IH]; intros emails; simpl.
  - now rewrite app_nil_r.
  - destruct (MessagesGet api id) as [message|e]; [|apply IH].
    destruct (buildEmail env (List.length emails) id message) as [email|];
      [|reflexivity].
    cbn [andThen]. rewrite IH, length_app. simpl.
    replace (List.length emails + 1)%nat with (Datatypes.S (List.length emails)) by lia.
    destruct (emailsOf api env _ _) as [fetched|]; [|reflexivity].
    cbn [andThen]. now rewrite <- app_assoc.
Qed.

Lemma syncLoop_no_cursor (api : GmailService) (env : Env) (msgs : list string) :
  forall (flag : bool) (emails : list Email),
    syncLoop api env EmptyString msgs flag emails
    = (fetched <- emailsOf api env (List.length emails) msgs ;;
       Returned (emails ++ fetched)).
Proof.
  induction msgs as [|id msgs IH]; intros flag emails; simpl.
  - now rewrite app_nil_r.
  - destruct (MessagesGet api id) as [message|e]; [|apply IH].
    destruct (buildEmail env (List.length emails) id message) as [email|];
      [|reflexivity].
    cbn [andThen]. rewrite IH, length_app. simpl.
    replace (List.length emails + 1)%nat with (Datatypes.S (List.length emails)) by lia.
    destruct (emailsOf api env _ _) as [fetched|]; [|reflexivity].
    cbn [andThen]. now rewrite <- app_assoc.
Qed.

(** Without a cursor and without a positive result size, [SyncEmails]
    asks for as many results as [MAX_FETCH_EMAILS] says, and for 3
    when the variable is not set, with an empty query;
    [ListUnreadEmails] asks for as many as the variable says, and for
    10 when it is not set, with no query.  Both then return every
    message of the page that can be fetched, in page order. *)
Theorem SyncEmails_without_cursor (api : GmailService) (env : Env)
    (userEmail : string) (maxResults : Z) :
  maxResults <= 0 ->
  (MAX_FETCH_EMAILS env = None ->
   SyncEmails api env userEmail maxResults EmptyString
   = listing api env 3 (Some EmptyString) "failed to list messages" /\
   ListUnreadEmails api env userEmail
   = listing api env 10 None "failed to list unread messages") /\
  (forall value,
      MAX_FETCH_EMAILS env = Some value ->
      SyncEmails api env userEmail maxResults EmptyString
      = listing api env (fst (Atoi value)) (Some EmptyString) "failed to list messages" /\
      ListUnreadEmails api env userEmail
      = listing api env (fst (Atoi value)) None "failed to list unread messages").
Proof.
  intros Hmax. apply Z.leb_le in Hmax.
  assert (Hsync : forall size,
             fst (Atoi (GetEnv (MAX_FETCH_EMAILS env) "3")) = size ->
             SyncEmails api env userEmail maxResults EmptyString
             = listing api env size (Some EmptyString) "failed to list messages").
  { intros size <-. unfold SyncEmails, listing. rewrite Hmax.
    destruct (MessagesList api _ _) as [page|e]; [|reflexivity].
    simpl. rewrite syncLoop_no_cursor. simpl.
    now destruct (emailsOf api env 0 page). }
  assert (Hlist : forall size,
             fst (Atoi (GetEnv (MAX_FETCH_EMAILS env) "10")) = size ->
             ListUnreadEmails api env userEmail
             = listing api env size None "failed to list unread messages").
  { intros size <-. unfold ListUnreadEmails, listing.
    destruct (MessagesList api _ _) as [page|e]; [|reflexivity].
    rewrite listLoop_emailsOf. simpl.
    now destruct (emailsOf api env 0 page). }
  split.
  - intros Hunset. split; [apply Hsync | apply Hlist]; now rewrite Hunset.
  - intros value Hset. split; [apply Hsync | apply Hlist]; now rewrite Hset.
Qed.

Lemma SyncEmails_without_cursor_witness :
  SyncEmails patchyApi constEnv "me@example.com" 0 EmptyString
  = listing patchyApi constEnv 3 (Some EmptyString) "failed to list messages" /\
  ListUnreadEmails patchyApi constEnv "me@example.com"
  = listing patchyApi constEnv 10 None "failed to list unread messages".
Proof.
  apply (proj1 (SyncEmails_without_cursor patchyApi constEnv "me@example.com" 0
                  ltac:(lia)) eq_refl).
Defined.

Lemma sublist_List_filter {A : Type} (f : A -> bool) (l : list A) :
  sublist (List.filter f l) l.
Proof.
  induction l as [|a l IH]; simpl; [constructor |].
  destruct (f a); [now apply sublist_skip | now apply sublist_cons].
Qed.

Lemma buildEmail_fresh (env : Env) (k : nat) (id : string) (m : Message) (e : Email) :
  buildEmail env k id m = Returned e -> freshlyFetched e /\ GmailID e = id.
Proof.
  unfold buildEmail, freshlyFetched.
  destruct (scanHeaders (Headers m) (Snippet m) EmptyString).
  destruct (extractBody (Payload m)); [|discriminate].
  cbn [andThen]. intros [= <-]. simpl. tauto.
Qed.

Lemma emailsOf_ids (api : GmailService) (env : Env) (ids : list string) :
  forall k emails,
    emailsOf api env k ids = Returned emails ->
    List.map GmailID emails = List.filter (canFetch api) ids /\
    Forall freshlyFetched emails.
Proof.
  induction ids as [|id ids IH]; intros k emails; simpl.
  - intros [= <-]. split; [reflexivity | constructor].
  - unfold canFetch at 1. destruct (MessagesGet api id) as [message|]; simpl; [|apply IH].
    destruct (buildEmail env k id message) as [email|] eqn:Eb; [|discriminate].
    cbn [andThen].
    destruct (emailsOf api env (Datatypes.S k) ids) as [rest|] eqn:Er; [|discriminate].
    cbn [andThen]. intros [= <-].
    destruct (buildEmail_fresh _ _ _ _ _ Eb) as [Hfresh Hid].
    destruct (IH _ _ Er) as [Hids Hall].
    split; [simpl; now rewrite Hid, Hids | now constructor].
Qed.

(** Whatever the cursor, the loop only ever appends messages built
    from entries of the page that differ from a non-empty cursor. *)
Lemma syncLoop_appends (api : GmailService) (env : Env) (cursor : string)
    (msgs : list string) :
  forall (flag : bool) (emails : list Email),
  exists kept : list string,
    sublist kept msgs /\
    (cursor <> EmptyString -> ~ In cursor kept) /\
    syncLoop api env cursor msgs flag emails
    = (fetched <- emailsOf api env (List.length emails) kept ;;
       Returned (emails ++ fetched)).
Proof.
  induction msgs as [|id msgs IH]; intros flag emails; simpl.
  - exists []. simpl. rewrite app_nil_r. repeat split; [constructor | tauto].
  - destruct (nonEmpty cursor && String.eqb id cursor) eqn:E1.
    { destruct (IH true emails) as (kept & Hsub & Hnot & Heq).
      exists kept. split; [now apply sublist_cons | split; assumption]. }
    destruct (nonEmpty cursor && negb flag) eqn:E2.
    { destruct (IH flag emails) as (kept & Hsub & Hnot & Heq).
      exists kept. split; [now apply sublist_cons | split; assumption]. }
    destruct (MessagesGet api id) as [message|e] eqn:Eg.
    + assert (Hid : cursor <> EmptyString -> id <> cursor).
      { intros Hc ->. apply andb_false_iff in E1 as [E1|E1].
        - destruct cursor; [congruence | discriminate].
        - now rewrite String.eqb_refl in E1. }
      destruct (buildEmail env (List.length emails) id message) as [email|] eqn:Eb.
      * destruct (IH flag (emails ++ [email])) as (kept & Hsub & Hnot & Heq).
        exists (id :: kept). split; [now apply sublist_skip | split].
        -- intros Hc [Hin|Hin]; [now apply (Hid Hc) | now apply Hnot].
        -- cbn [andThen emailsOf]. rewrite Eg, Eb, Heq, length_app. cbn [andThen]. simpl.
           replace (List.length emails + 1)%nat
             with (Datatypes.S (List.length emails)) by lia.
           clear Heq.
           destruct (emailsOf api env (Datatypes.S (List.length emails)) kept)
             as [fetched|]; [|reflexivity].
           cbn [andThen]. now rewrite <- app_assoc.
      * exists [id]. split; [|split].
        -- apply sublist_skip. apply sublist_nil_l.
        -- intros Hc [Hin|[]]. now apply (Hid Hc).
        -- cbn [andThen emailsOf]. now rewrite Eg, Eb.
    + destruct (IH flag emails) as (kept & Hsub & Hnot & Heq).
      exists kept. split; [now apply sublist_cons | split; assumption].
Qed.

(** What [SyncEmails] returns, for any cursor: the provider ids are
    entries of the page, in page order, each at most as often as on the
    page, never the cursor's own; and every message comes back without
    owner, summary or category and not archived. *)
Theorem SyncEmails_returns_page_entries (api : GmailService) (env : Env)
    (userEmail : string) (maxResults : Z) (afterEmailID : string)
    (emails : list Email) :
  SyncEmails api env userEmail maxResults afterEmailID = Returned (Ok emails) ->
  exists page : list string,
    MessagesList api (askedSize env maxResults) (Some EmptyString) = Ok page /\
    sublist (List.map GmailID emails) page /\
    (afterEmailID <> EmptyString -> ~ In afterEmailID (List.map GmailID emails)) /\
    Forall freshlyFetched emails.
Proof.
  unfold SyncEmails, askedSize, GetEnv.
  destruct (MessagesList api _ _) as [page|e]; [|discriminate].
  destruct (syncLoop_appends api env afterEmailID page (isEmpty afterEmailID) [])
    as (kept & Hsub & Hnot & ->).
  simpl. destruct (emailsOf api env 0 kept) as [fetched|] eqn:E; [|discriminate].
  cbn [andThen]. intros [= <-]. exists page. split; [reflexivity |].
  destruct (emailsOf_ids api env kept 0 fetched E) as [Hids Hfresh].
  rewrite Hids. split; [|split].
  - transitivity kept; [|assumption]. apply sublist_List_filter.
  - intros Hc Hin. apply (Hnot Hc). now apply List.filter_In in Hin as [Hin _].
  - assumption.
Qed.

Lemma SyncEmails_returns_page_entries_witness :
  exists emails page,
    SyncEmails patchyApi constEnv "me@example.com" 5 "m1" = Returned (Ok emails) /\
    List.map GmailID emails = ["m3"]%string /\
    MessagesList patchyApi (askedSize constEnv 5) (Some EmptyString) = Ok page /\
    sublist (List.map GmailID emails) page /\
    ("m1"%string <> EmptyString -> ~ In "m1"%string (List.map GmailID emails)) /\
    Forall freshlyFetched emails.
Proof.
  destruct (SyncEmails patchyApi constEnv "me@example.com" 5 "m1")
    as [[emails|]|] eqn:E; try (vm_compute in E; discriminate).
  exists emails.
  destruct (SyncEmails_returns_page_entries patchyApi constEnv "me@example.com" 5 "m1"
              emails E) as (page & Hpage & Hrest).
  exists page. split; [reflexivity |]. split; [|split; assumption].
  vm_compute in E. now injection E as <-.
Defined.

Lemma deleteLoop_acc (api : GmailService) (ids : list string) :
  forall deleted : list string,
    deleteLoop api ids deleted = deleted ++ List.filter (canDelete api) ids.
Proof.
  induction ids as [|id ids IH]; intros deleted; simpl.
  - now rewrite app_nil_r.
  - unfold canDelete at 1. destruct (MessagesDelete api id); [apply IH |].
    rewrite IH, <- app_assoc. reflexivity.
Qed.

(** [gmailClient.DeleteEmails] tries every id: the ids deleted remotely
    are exactly those whose delete call succeeds, in the order given; a
    failed call stops nothing, and the result is [nil] all the same. *)
Theorem DeleteEmails_tries_every_id (api : GmailService) (userEmail : string)
    (before after : list string) (id : string) :
  DeleteEmails api userEmail (before ++ id :: after)
  = (None,
     List.filter (canDelete api) before
     ++ (if canDelete api id then [id] else [])
     ++ List.filter (canDelete api) after).
Proof.
  unfold DeleteEmails. rewrite deleteLoop_acc, List.filter_app. simpl.
  now destruct (canDelete api id).
Qed.

Lemma find_app_first {A : Type} (f : A -> bool) (l k : list A) :
  List.find f (l ++ k)
  = match List.find f l with Some a => Some a | None => List.find f k end.
Proof.
  induction l as [|a l IH]; simpl; [reflexivity |]. now destruct (f a).
Qed.

Lemma scanHeaders_from (hs : list Header) :
  forall subject from,
    fst (scanHeaders hs subject from)
    = match List.find (isHeader "Subject") (List.rev hs) with
      | Some h => HValue h
      | None => subject
      end.
Proof.
  induction hs as [|h hs IH]; intros subject from; simpl; [reflexivity |].
  rewrite find_app_first. unfold isHeader at 2. simpl.
  destruct (String.eqb (HName h) "Subject") eqn:E.
  - rewrite IH. now destruct (List.find _ (List.rev hs)).
  - destruct (String.eqb (HName h) "From"); rewrite IH;
      now destruct (List.find _ (List.rev hs)).
Qed.

(** The header scan: the subject of a message that is built is the
    value of the last header named exactly [Subject]; without such a
    header it is the snippet. *)
Theorem buildEmail_subject (env : Env) (k : nat) (id : string) (m : Message)
    (e : Email) :
  buildEmail env k id m = Returned e ->
  (List.forallb (fun h => negb (isHeader "Subject" h)) (Headers m) = true ->
   Subject e = Snippet m) /\
  (forall pre h post,
      Headers m = pre ++ h :: post ->
      isHeader "Subject" h = true ->
      List.forallb (fun h' => negb (isHeader "Subject" h')) post = true ->
      Subject e = HValue h).
Proof.
  intros Hbuild.
  assert (Hs : Subject e = fst (scanHeaders (Headers m) (Snippet m) EmptyString)).
  { revert Hbuild. unfold buildEmail. destruct (scanHeaders _ _ _).
    destruct (extractBody (Payload m)); [|discriminate].
    cbn [andThen]. now intros [= <-]. }
  rewrite Hs, scanHeaders_from. split.
  - intros Hnone. destruct (List.find _ _) as [h|] eqn:E; [|reflexivity].
    apply List.find_some in E as [Hin Hh]. apply List.in_rev in Hin.
    rewrite List.forallb_forall in Hnone. apply Hnone in Hin.
    now rewrite Hh in Hin.
  - intros pre h post -> Hh Hpost.
    rewrite List.rev_app_distr. simpl. rewrite <- app_assoc, find_app_first.
    destruct (List.find _ (List.rev post)) as [h'|] eqn:E.
    + apply List.find_some in E as [Hin Hh']. apply List.in_rev in Hin.
      rewrite List.forallb_forall in Hpost. apply Hpost in Hin.
      now rewrite Hh' in Hin.
    + simpl. now rewrite Hh.
Qed.

Lemma buildEmail_subject_witness :
  exists e,
    buildEmail constEnv 0 "m1"
      (mkMessage "m1" "snippet" 0
         [mkHeader "Subject" "first"; mkHeader "subject" "lower";
          mkHeader "Subject" "second"; mkHeader "From" "a@example.com"]
         (MkPart "text/plain" "aGk=" [])) = Returned e /\
    Subject e = "second"%string.
Proof.
  eexists. split; [reflexivity |].
  exact (proj2 (buildEmail_subject constEnv 0 "m1"
                  (mkMessage "m1" "snippet" 0
                     [mkHeader "Subject" "first"; mkHeader "subject" "lower";
                      mkHeader "Subject" "second"; mkHeader "From" "a@example.com"]
                     (MkPart "text/plain" "aGk=" [])) _ eq_refl)
           [mkHeader "Subject" "first"; mkHeader "subject" "lower"]
           (mkHeader "Subject" "second") [mkHeader "From" "a@example.com"]
           eq_refl eq_refl eq_refl).
Defined.

(** A message that is not multipart: whatever its MIME type, the body
    is the decoded data as it is, and the empty string when the data
    does not decode; plain text is not converted to HTML here. *)
Theorem extractBody_single_part (mimeType data : string) :
  extractBody (MkPart mimeType data [])
  = Returned (default EmptyString (Base64.DecodeString data)).
Proof.
  unfold extractBody, extractBodyAsText, dataOfType. simpl.
  destruct data as [|c data].
  - now destruct (String.eqb mimeType textHtml).
  - cbn [nonEmpty isEmpty negb].
    destruct (String.eqb mimeType textHtml); simpl;
      now destruct (Base64.DecodeString (String c data)).
Qed.

Lemma EscapeString_no_markup (s : string) : noMarkup (EscapeString s) = true.
Proof.
  induction s as [|c s IH]; [reflexivity |].
  cbn [EscapeString]. unfold escapeByte.
  assert (Happ : forall a b, noMarkup a = true -> noMarkup b = true ->
                             noMarkup (String.append a b) = true).
  { induction a as [|x a IHa]; intros b Ha Hb; [exact Hb |].
    rewrite StringFacts.append_cons. simpl in *.
    apply andb_prop in Ha as [Hx Ha]. rewrite Hx. now apply IHa. }
  apply Happ; [|exact IH].
  destruct (byte c =? 38)%N eqn:E1; [reflexivity |].
  destruct (byte c =? 39)%N eqn:E2; [reflexivity |].
  destruct (byte c =? 60)%N eqn:E3; [reflexivity |].
  destruct (byte c =? 62)%N eqn:E4; [reflexivity |].
  destruct (byte c =? 34)%N eqn:E5; [reflexivity |].
  simpl. unfold markupByte. now rewrite E3, E4, E5, E2.
Qed.

Lemma renderFrom_safe (n : Z) (lines : list string) :
  forall i : Z,
  exists paragraphs,
    SpecTerms.renderFrom n i lines = joined paragraphs /\
    Forall safeParagraph paragraphs.
Proof.
  induction lines as [|line rest IH]; intros i.
  - exists []. split; [reflexivity | constructor].
  - destruct (IH (i + 1)) as (ps & Hps & Hall).
    cbn [SpecTerms.renderFrom]. rewrite Hps. unfold SpecTerms.renderLine.
    destruct (nonEmpty (TrimSpace line)).
    + exists (SpecTerms.wrapped (EscapeString (TrimSpace line)) :: ps).
      split; [reflexivity |]. constructor; [|assumption].
      right. eexists. split; [apply EscapeString_no_markup | reflexivity].
    + destruct ((0 <? i) && (i <? n - 1)).
      * exists (spacer :: ps). split; [reflexivity |].
        constructor; [now left | assumption].
      * exists ps. split; [apply StringFacts.append_nil_l | assumption].
Qed.

(** The markup of a text never reaches the output of [textToHtml]: the
    output is a sequence of paragraphs, each either the spacer or a
    paragraph element whose content holds none of the bytes [<], [>],
    the double quote and the single quote; so the only tags in the
    output are the paragraphs the function writes itself. *)
Theorem textToHtml_safe_paragraphs (text : string) :
  exists paragraphs,
    textToHtml text = joined paragraphs /\ Forall safeParagraph paragraphs.
Proof.
  rewrite TextToHtmlFacts.textToHtml_render. apply renderFrom_safe.
Qed.

(** The multipart case with the HTML among leaf parts, at a concrete
    message: an attachment, the HTML, then the plain text. *)
Lemma extractMultipartBody_flat_html_witness :
  extractMultipartBody
    ([MkPart "image/png" "aGk=" []]
       ++ MkPart "text/html" "PGI-eDwvYj4=" [] :: [MkPart "text/plain" "aGk=" []])
  = Returned "<b>x</b>"%string.
Proof.
  exact (ExtractBodyFacts.extractMultipartBody_flat_html
           [MkPart "image/png" "aGk=" []] [MkPart "text/plain" "aGk=" []]
           "text/html" "PGI-eDwvYj4=" "<b>x</b>"
           eq_refl eq_refl eq_refl eq_refl eq_refl eq_refl).
Defined.

End GmailClientFacts.

(** ** More on classification *)

Module ClassifyFacts.
Import GoStrings Model AI EmailService MoreTerms Scenarios.

Lemma exactLoop_member (u : string -> string) (r : string) (cs : list string) (c : string) :
  exactLoop u r cs = Some c -> In c cs.
Proof.
  induction cs as [|x cs IH]; simpl; [discriminate |].
  destruct (String.eqb (key u x) r); [intros [= ->]; now left |].
  intros H. right. now apply IH.
Qed.

Lemma partialLoop_member (u : string -> string) (r : string) (cs : list string) (c : string) :
  partialLoop u r cs = Some c -> In c cs.
Proof.
  induction cs as [|x cs IH]; simpl; [discriminate |].
  destruct (Contains r (key u x) || Contains (key u x) r); [intros [= ->]; now left |].
  intros H. right. now apply IH.
Qed.

Lemma matcher_member (unicodeLower : string -> string)
    (response : string) (categories : list string) :
  categories <> [] ->
  In (findBestCategoryMatch unicodeLower response categories) categories.
Proof.
  unfold findBestCategoryMatch. intros Hne.
  destruct (exactLoop _ _ _) as [c|] eqn:E1; [now apply exactLoop_member in E1 |].
  destruct (partialLoop _ _ _) as [c|] eqn:E2; [now apply partialLoop_member in E2 |].
  destruct categories; [congruence | now left].
Qed.

(** The category the matcher returns is always one of the list it was
    given, whatever the model answered; only on an empty list is the
    empty string returned. *)
Theorem findBestCategoryMatch_member (unicodeLower : string -> string)
    (response : string) (categories : list string) :
  (categories <> [] ->
   In (findBestCategoryMatch unicodeLower response categories) categories) /\
  (categories = [] ->
   findBestCategoryMatch unicodeLower response categories = EmptyString).
Proof.
  split; [apply matcher_member | intros ->; reflexivity].
Qed.

Lemma findBestCategoryMatch_member_witness :
  In (findBestCategoryMatch (fun s => s) "no idea" ["Work"; "Personal"]%string)
     ["Work"; "Personal"]%string.
Proof.
  apply (proj1 (findBestCategoryMatch_member (fun s => s) "no idea"
                  ["Work"; "Personal"]%string)).
  discriminate.
Defined.

Lemma categoryMapOf_lookup (categories : list Category) :
  forall (m : gmap string string) (name id : string),
    categoryMapOf categories m !! name = Some id ->
    m !! name = Some id \/
    exists c, In c categories /\ Name c = name /\ CatID c = id.
Proof.
  induction categories as [|c cs IH]; intros m name id; simpl; [now left |].
  intros H. apply IH in H as [H|(c' & Hin & Hn & Hid)].
  - destruct (decide (Name c = name)) as [Heq|Hne].
    + rewrite Heq, lookup_insert_eq in H. injection H as <-.
      right. exists c. repeat split; [now left | assumption].
    + rewrite lookup_insert_ne in H by assumption. now left.
  - right. exists c'. repeat split; [now right | assumption | assumption].
Qed.

Lemma categoryMapOf_complete (categories : list Category) :
  forall (m : gmap string string) (c : Category),
    In c categories -> is_Some (categoryMapOf categories m !! Name c).
Proof.
  induction categories as [|c0 cs IH]; intros m c Hin; [destruct Hin |].
  simpl. destruct Hin as [->|Hin]; [|now apply IH].
  clear IH. revert m.
  assert (Hkeep : forall cs' (m' : gmap string string) k,
             is_Some (m' !! k) -> is_Some (categoryMapOf cs' m' !! k)).
  { induction cs' as [|c' cs' IH']; intros m' k Hs; simpl; [assumption |].
    apply IH'. destruct (decide (Name c' = k)) as [->|Hne].
    - rewrite lookup_insert_eq. eauto.
    - now rewrite lookup_insert_ne. }
  intros m. apply Hkeep. rewrite lookup_insert_eq. eauto.
Qed.

(** When [ClassifyAndSummarizeEmail] succeeds, the message carries the
    id of a category of the list, the summary the AI gave and the clock
    as its update time; its identity, owner, provider id and contents
    are untouched.  With an empty category list a successful
    classification ends in the error that no categories were found and
    the message is left as it was. *)
Theorem ClassifyAndSummarizeEmail_outcome {S : Type} (s : emailService S)
    (email : Email) (categories : list Category) :
  (forall email',
      ClassifyAndSummarizeEmail s email categories = (email', None) ->
      (exists c, In c categories /\ CategoryID email' = CatID c) /\
      AIClient.SummarizeEmail (aiClient s) (Body email) = Ok (Summary email') /\
      UpdatedAt email' = clock s /\
      ID email' = ID email /\ UserID email' = UserID email /\
      GmailID email' = GmailID email /\ Body email' = Body email /\
      From email' = From email /\ Subject email' = Subject email /\
      ReceivedAt email' = ReceivedAt email /\ Archived email' = Archived email /\
      CreatedAt email' = CreatedAt email) /\
  (forall name,
      categories = [] ->
      AIClient.ClassifyEmail (aiClient s) (Body email) [] = Ok name ->
      ClassifyAndSummarizeEmail s email categories
      = (email, Some "no categories found for classification"%string)).
Proof.
  unfold ClassifyAndSummarizeEmail. split.
  - intros email'.
    destruct (AIClient.ClassifyEmail (aiClient s) (Body email) categories)
      as [name|e]; [|discriminate].
    assert (Hcat : forall id,
               match categoryMapOf categories ∅ !! name with
               | Some categoryID => Ok categoryID
               | None => match categories with
                         | first :: _ => Ok (CatID first)
                         | [] => Err "no categories found for classification"%string
                         end
               end = Ok id ->
               exists c, In c categories /\ id = CatID c).
    { intros id. destruct (categoryMapOf categories ∅ !! name) as [id0|] eqn:E.
      - intros [= <-]. apply categoryMapOf_lookup in E as [E|(c & Hin & _ & Hid)].
        + now rewrite lookup_empty in E.
        + exists c. split; [assumption | now symmetry].
      - destruct categories as [|first rest]; [discriminate |].
        intros [= <-]. exists first. split; [now left | reflexivity]. }
    destruct (match categoryMapOf categories ∅ !! name with
              | Some categoryID => Ok categoryID
              | None => _ end) as [id|e] eqn:Efound; [|discriminate].
    destruct (Hcat id eq_refl) as (c & Hin & ->).
    simpl. destruct (AIClient.SummarizeEmail (aiClient s) (Body email)) as [summary|e];
      [|discriminate].
    intros [= <-]. simpl. split; [now exists c |]. repeat split.
  - intros name -> Hname. rewrite Hname. reflexivity.
Qed.

Lemma ClassifyAndSummarizeEmail_outcome_witness :
  exists c, In c [work] /\
    CategoryID (fst (ClassifyAndSummarizeEmail
                       (syncService Memory.InMemoryEmailRepository firstFetch)
                       bobEmail [work])) = CatID c.
Proof.
  exact (proj1 (proj1 (ClassifyAndSummarizeEmail_outcome
                         (syncService Memory.InMemoryEmailRepository firstFetch)
                         bobEmail [work])
                  _ eq_refl)).
Defined.

(** With the AI client of internal/ai, whose answer is a name of the
    list, the lookup by name always hits: on success the message gets
    the id of a category bearing the matched name, and the
    first-category fallback of the service is never taken. *)
Theorem ClassifyAndSummarizeEmail_with_matcher {S : Type} (s : emailService S)
    (unicodeLower : string -> string)
    (backend : string -> list Category -> result string)
    (summarize : string -> result string)
    (email email' : Email) (categories : list Category) :
  aiClient s = realAI unicodeLower backend summarize ->
  categories <> [] ->
  ClassifyAndSummarizeEmail s email categories = (email', None) ->
  exists answer c,
    backend (Body email) categories = Ok answer /\
    In c categories /\
    Name c = findBestCategoryMatch unicodeLower answer (List.map Name categories) /\
    CategoryID email' = CatID c.
Proof.
  intros Hai Hne. unfold ClassifyAndSummarizeEmail. rewrite Hai. simpl.
  unfold AI.ClassifyEmail.
  destruct (backend (Body email) categories) as [answer|e]; [|discriminate].
  set (name := findBestCategoryMatch unicodeLower answer (List.map Name categories)).
  assert (Hin : In name (List.map Name categories)).
  { apply matcher_member. destruct categories; [congruence | discriminate]. }
  apply in_map_iff in Hin as (c0 & Hc0 & Hin0).
  destruct (categoryMapOf_complete categories ∅ c0 Hin0) as [id Hid].
  rewrite Hc0 in Hid. rewrite Hid.
  apply categoryMapOf_lookup in Hid as [Hid|(c & Hin & Hn & Hc)];
    [now rewrite lookup_empty in Hid |].
  simpl. destruct (summarize (Body email)) as [summary|e]; [|discriminate].
  intros [= <-]. exists answer, c. simpl. repeat split; try assumption.
  now symmetry.
Qed.

Lemma ClassifyAndSummarizeEmail_with_matcher_witness :
  let s := EmailService.mkEmailService (gmap string Email)
             Memory.InMemoryEmailRepository (Ok [work]) findOwner
             (gmailClient oneApi firstFetch)
             (realAI (fun x => x) (fun _ _ => Ok "  WORK "%string)
                (fun _ => Ok "short"%string)) 5 in
  exists answer c,
    Ok "  WORK "%string = Ok answer /\
    In c [work] /\
    Name c = findBestCategoryMatch (fun x => x) answer (List.map Name [work]) /\
    CategoryID (fst (ClassifyAndSummarizeEmail s bobEmail [work])) = CatID c.
Proof.
  intros s.
  refine (ClassifyAndSummarizeEmail_with_matcher s (fun x => x)
            (fun _ _ => Ok "  WORK "%string) (fun _ => Ok "short"%string)
            bobEmail _ [work] eq_refl _ eq_refl).
  discriminate.
Defined.

End ClassifyFacts.

(** ** More on the two stores *)

Module RepositoryFacts.
Import GoStrings Model MoreTerms Scenarios MoreScenarios.

(** The in-memory store, one operation after another: a created
    message is found under its id and no other id is affected; a
    deleted id is not found any more; an update of an id that is not
    stored is refused and changes nothing. *)
Theorem Memory_round_trips (st : gmap string Email) (email : Email) (id : string) :
  Memory.FindByID (fst (Memory.Create st email)) (ID email) = Ok email /\
  (id <> ID email ->
   Memory.FindByID (fst (Memory.Create st email)) id = Memory.FindByID st id) /\
  Memory.FindByID (fst (Memory.Delete st id)) id = Err Memory.notFound /\
  (Memory.FindByID st (ID email) = Err Memory.notFound ->
   Memory.Update st email = (st, Some Memory.notFound)) /\
  (st !! ID email = None ->
   fst (Memory.Delete (fst (Memory.Create st email)) (ID email)) = st).
Proof.
  unfold Memory.FindByID, Memory.Create, Memory.Delete, Memory.Update. simpl.
  split; [now rewrite lookup_insert_eq |].
  split; [intros Hne; now rewrite lookup_insert_ne by congruence |].
  split; [now rewrite lookup_delete_eq |].
  split.
  - destruct (st !! ID email); [discriminate | reflexivity].
  - intros Hfree. rewrite delete_insert_eq. now apply delete_id.
Qed.

Lemma Memory_round_trips_witness :
  Memory.Update threeOwned (mkStored "e9" "u1" "g9" "nine")
  = (threeOwned, Some Memory.notFound).
Proof.
  exact (proj1 (proj2 (proj2 (proj2
           (Memory_round_trips threeOwned (mkStored "e9" "u1" "g9" "nine") "e9"))))
           eq_refl).
Defined.

Lemma find_values (st : gmap string Email) (f : Email -> bool) :
  (forall e, List.find f (List.map snd (map_to_list st)) = Some e ->
             f e = true /\ exists k, st !! k = Some e) /\
  (List.find f (List.map snd (map_to_list st)) = None ->
   forall k e, st !! k = Some e -> f e = false).
Proof.
  split.
  - intros e H. apply List.find_some in H as [Hin Hf]. split; [assumption |].
    apply in_map_iff in Hin as ([k e'] & He & Hin). simpl in He. subst e'.
    exists k. apply elem_of_map_to_list. now apply list_elem_of_In.
  - intros H k e Hk. apply (List.find_none _ _ H).
    apply in_map_iff. exists (k, e). split; [reflexivity |].
    apply list_elem_of_In. now apply elem_of_map_to_list.
Qed.

(** The dedupe lookup of the in-memory store: a message it returns is
    stored and bears the owner and the provider id asked for, and it
    reports "not found" exactly when no stored message bears them. *)
Theorem Memory_FindByGmailID_spec (st : gmap string Email) (userID gmailID : string) :
  (forall e, Memory.FindByGmailID st userID gmailID = Ok e ->
             UserID e = userID /\ GmailID e = gmailID /\ exists k, st !! k = Some e) /\
  (Memory.FindByGmailID st userID gmailID = Err Memory.notFound <->
   forall k e, st !! k = Some e -> ~ (UserID e = userID /\ GmailID e = gmailID)).
Proof.
  unfold Memory.FindByGmailID.
  set (f := fun email : Email =>
              String.eqb (UserID email) userID && String.eqb (GmailID email) gmailID).
  destruct (find_values st f) as [Hsome Hnone].
  destruct (List.find f (List.map snd (map_to_list st))) as [e0|] eqn:E.
  - destruct (Hsome e0 eq_refl) as [Hf Hk].
    apply andb_prop in Hf as [Hu Hg].
    apply String.eqb_eq in Hu. apply String.eqb_eq in Hg.
    split.
    + intros e [= <-]. repeat split; assumption.
    + split; [discriminate |]. intros Hno. destruct Hk as [k Hk].
      exfalso. apply (Hno k e0 Hk). now split.
  - split; [discriminate |]. split; [|reflexivity].
    intros _ k e Hk [Hu Hg]. specialize (Hnone eq_refl k e Hk).
    unfold f in Hnone. subst userID gmailID.
    now rewrite !String.eqb_refl in Hnone.
Qed.

Lemma Memory_FindByGmailID_spec_witness :
  UserID (mkStored "e2" "u1" "g2" "two") = "u1"%string /\
  GmailID (mkStored "e2" "u1" "g2" "two") = "g2"%string /\
  exists k, threeOwned !! k = Some (mkStored "e2" "u1" "g2" "two").
Proof.
  apply (proj1 (Memory_FindByGmailID_spec threeOwned "u1" "g2")).
  vm_compute. reflexivity.
Defined.

(** [FindByUserID] of the in-memory store returns the stored messages
    of that owner and nothing else. *)
Theorem Memory_FindByUserID_spec (st : gmap string Email) (userID : string) :
  exists emails,
    Memory.FindByUserID st userID = Ok emails /\
    forall e, In e emails <-> UserID e = userID /\ exists k, st !! k = Some e.
Proof.
  unfold Memory.FindByUserID. eexists. split; [reflexivity |].
  intros e. rewrite List.filter_In, in_map_iff. split.
  - intros [([k e'] & He & Hin) Hu]. simpl in He. subst e'.
    apply String.eqb_eq in Hu. split; [assumption |]. exists k.
    apply elem_of_map_to_list. now apply list_elem_of_In.
  - intros [Hu [k Hk]]. split.
    + exists (k, e). split; [reflexivity |].
      apply list_elem_of_In. now apply elem_of_map_to_list.
    + subst userID. apply String.eqb_refl.
Qed.





Lemma find_snoc_fresh (f : Email -> bool) (rows : list Email) (email : Email) :
  List.existsb f rows = false -> f email = true ->
  List.find f (rows ++ [email]) = Some email.
Proof.
  induction rows as [|row rows IH]; simpl; intros Hrows Hf; [now rewrite Hf |].
  apply orb_false_iff in Hrows as [Hrow Hrows]. rewrite Hrow. now apply IH.
Qed.

(** A message created in the Postgres store under a provider id and a
    local id that are both new is stored as its columns take it, and
    that row is found again by its id and by its owner and provider
    id; it is the message itself only where the columns keep its
    values as they are.  A message whose id is taken by a row with
    another provider id is refused, and so is a message one of whose
    values a column refuses; the table is then left as it was. *)
Theorem Postgres_Create_then_find (c : Postgres.Columns) (dbNow : Z)
    (rows : list Email) (email : Email) :
  (forall excluded,
      Postgres.proposed c email = Some excluded ->
      List.existsb (Postgres.sameGmailID excluded) rows = false ->
      (List.existsb (Postgres.sameID (ID excluded)) rows = false ->
       Postgres.Create c dbNow rows email = (rows ++ [excluded], None) /\
       Postgres.FindByID (fst (Postgres.Create c dbNow rows email)) (ID excluded)
       = Ok excluded /\
       Postgres.FindByGmailID (fst (Postgres.Create c dbNow rows email))
         (UserID excluded) (GmailID excluded) = Ok excluded) /\
      (List.existsb (Postgres.sameID (ID excluded)) rows = true ->
       Postgres.Create c dbNow rows email = (rows, Some Postgres.pkeyViolation))) /\
  (Postgres.proposed c email = None ->
   Postgres.Create c dbNow rows email = (rows, Some (Postgres.refusal c email))) /\
  (Postgres.proposed c email = Some email <->
   Postgres.varchar255Col c (ID email) = Some (ID email) /\
   Postgres.varchar255Col c (UserID email) = Some (UserID email) /\
   Postgres.varchar255Col c (GmailID email) = Some (GmailID email) /\
   Postgres.textCol c (From email) = Some (From email) /\
   Postgres.textCol c (Subject email) = Some (Subject email) /\
   Postgres.textCol c (Body email) = Some (Body email) /\
   Postgres.textCol c (Summary email) = Some (Summary email) /\
   Postgres.varchar255Col c (CategoryID email) = Some (CategoryID email) /\
   Postgres.timestampCol c (ReceivedAt email) = Some (ReceivedAt email) /\
   Postgres.timestampCol c (CreatedAt email) = Some (CreatedAt email) /\
   Postgres.timestampCol c (UpdatedAt email) = Some (UpdatedAt email)).
Proof.
  split; [|split].
  - intros excluded Hprop Hg. unfold Postgres.Create. rewrite Hprop, Hg. split.
    + intros Hid. rewrite Hid. simpl. split; [reflexivity |].
      unfold Postgres.FindByID, Postgres.FindByGmailID. split.
      * rewrite (find_snoc_fresh (Postgres.sameID (ID excluded)) rows excluded Hid);
          [reflexivity |]. unfold Postgres.sameID. apply String.eqb_refl.
      * rewrite (find_snoc_fresh _ rows excluded); [reflexivity | |].
        -- apply not_true_is_false. intros Hex.
           apply List.existsb_exists in Hex as (row & Hin & Hrow).
           apply andb_prop in Hrow as [_ Hrow].
           assert (Hno : List.existsb (Postgres.sameGmailID excluded) rows = true).
           { apply List.existsb_exists. exists row. split; assumption. }
           congruence.
        -- now rewrite !String.eqb_refl.
    + intros Hid. now rewrite Hid.
  - intros Hnone. unfold Postgres.Create. now rewrite Hnone.
  - split.
    + intros Hprop.
      destruct (StoreFacts.proposed_columns c email email Hprop)
        as (H1 & H2 & H3 & H4 & H5 & H6 & H7 & H8 & H9 & _ & H10 & H11).
      repeat split; assumption.
    + intros (H1 & H2 & H3 & H4 & H5 & H6 & H7 & H8 & H9 & H10 & H11).
      unfold Postgres.proposed.
      rewrite H1, H2, H3, H4, H5, H6, H7, H8, H9, H10, H11. simpl.
      now destruct email.
Qed.

Lemma Postgres_Create_then_find_witness :
  Postgres.Create asGiven 3 [aliceRow] (mkStored "e7" "bob" "g2" "other")
  = ([aliceRow; mkStored "e7" "bob" "g2" "other"], None) /\
  Postgres.FindByID
    (fst (Postgres.Create asGiven 3 [aliceRow] (mkStored "e7" "bob" "g2" "other"))) "e7"
  = Ok (mkStored "e7" "bob" "g2" "other") /\
  Postgres.FindByGmailID
    (fst (Postgres.Create asGiven 3 [aliceRow] (mkStored "e7" "bob" "g2" "other")))
    "bob" "g2"
  = Ok (mkStored "e7" "bob" "g2" "other").
Proof.
  exact (proj1 (proj1 (Postgres_Create_then_find asGiven 3 [aliceRow]
                         (mkStored "e7" "bob" "g2" "other"))
                  (mkStored "e7" "bob" "g2" "other") eq_refl eq_refl) eq_refl).
Defined.

(** [Delete] of the Postgres store removes the rows with that id and
    no others: the id is not found afterwards, and every other id is
    found exactly as before. *)
Theorem Postgres_Delete_spec (rows : list Email) (id other : string) :
  snd (Postgres.Delete rows id) = None /\
  Postgres.FindByID (fst (Postgres.Delete rows id)) id = Err Postgres.notFound /\
  (other <> id ->
   Postgres.FindByID (fst (Postgres.Delete rows id)) other = Postgres.FindByID rows other).
Proof.
  unfold Postgres.Delete, Postgres.FindByID. simpl. split; [reflexivity |]. split.
  - induction rows as [|row rows IH]; simpl; [reflexivity |].
    destruct (Postgres.sameID id row) eqn:E; simpl; [exact IH |].
    now rewrite E.
  - intros Hne. induction rows as [|row rows IH]; simpl; [reflexivity |].
    destruct (Postgres.sameID id row) eqn:E; simpl.
    + unfold Postgres.sameID in *. apply String.eqb_eq in E.
      destruct (String.eqb_spec (ID row) other); [congruence | exact IH].
    + destruct (Postgres.sameID other row); [reflexivity | exact IH].
Qed.

Lemma Postgres_Delete_spec_witness :
  Postgres.FindByID (fst (Postgres.Delete [aliceRow] "e7")) "e1"
  = Postgres.FindByID [aliceRow] "e1".
Proof.
  apply (proj2 (proj2 (Postgres_Delete_spec [aliceRow] "e7" "e1"))).
  discriminate.
Defined.

End RepositoryFacts.

(** ** More on the email service *)

Module EmailServiceFacts.
Import GoStrings Model Repository EmailService BulkAction MoreTerms Scenarios MoreScenarios.

Lemma classic_in (k : string) (l : list string) : In k l \/ ~ In k l.
Proof. destruct (List.in_dec String.string_dec k l); tauto. Qed.

Lemma setArchived_twice (e : Email) :
  setArchived true (setArchived true e) = setArchived true e.
Proof. reflexivity. Qed.

Lemma archivedOnly_refl (userID : string) (st : gmap string Email) :
  archivedOnly userID st st.
Proof. intros k. now left. Qed.

Lemma archivedOnly_trans (userID : string) (a b c : gmap string Email) :
  archivedOnly userID a b -> archivedOnly userID b c -> archivedOnly userID a c.
Proof.
  intros Hab Hbc k. destruct (Hbc k) as [Hc|(e' & Hb & Hu' & Hc)].
  - rewrite Hc. apply Hab.
  - destruct (Hab k) as [Hb'|(e & Ha & Hu & Hb')].
    + right. exists e'. rewrite <- Hb'. repeat split; assumption.
    + right. exists e. rewrite Hb' in Hb. injection Hb as <-.
      repeat split; [assumption | assumption |]. now rewrite Hc, setArchived_twice.
Qed.

Lemma wellKeyed_insert (st : gmap string Email) (e : Email) :
  wellKeyed st -> wellKeyed (<[ID e := e]> st).
Proof.
  intros Hwk k e'. destruct (decide (k = ID e)) as [->|Hne].
  - rewrite lookup_insert_eq. now intros [= <-].
  - rewrite lookup_insert_ne by congruence. apply Hwk.
Qed.

Section OnMemory.
Variable s : emailService (gmap string Email).
Hypothesis on_memory : emailRepo s = Memory.InMemoryEmailRepository.

Section Bulk.
Variable World : Type.
Variable handleUnsubscribeURL : string -> World -> World * option error.
Variable regexMatches : string -> list string.
Variable anchorMatches : string -> list string.

Lemma bulkLoop_archivedOnly (action userID : string) (user : User)
    (emailIDs : list string) :
  forall (st : gmap string Email) (n : UnsubscribeService.Net World),
    wellKeyed st ->
    wellKeyed (fst (fst (bulkLoop s World handleUnsubscribeURL regexMatches
                           anchorMatches action userID user emailIDs st n))) /\
    archivedOnly userID st
      (fst (fst (bulkLoop s World handleUnsubscribeURL regexMatches
                   anchorMatches action userID user emailIDs st n))) /\
    (String.eqb action "archive" || String.eqb action "delete" = false ->
     fst (fst (bulkLoop s World handleUnsubscribeURL regexMatches
                 anchorMatches action userID user emailIDs st n)) = st).
Proof.
  induction emailIDs as [|emailID rest IH]; intros st n Hwk; simpl.
  - split; [assumption | split; [apply archivedOnly_refl | reflexivity]].
  - rewrite on_memory. simpl. unfold Memory.FindByID.
    destruct (st !! emailID) as [email|] eqn:Hk; [|now apply IH].
    destruct (negb (String.eqb (UserID email) userID)) eqn:Hown; [now apply IH |].
    apply negb_false_iff, String.eqb_eq in Hown.
    destruct (String.eqb action "archive" || String.eqb action "delete") eqn:Harch.
    + destruct (GmailClient.ArchiveEmail (gmail s) (UEmail user) (GmailID email));
        [destruct (IH st n Hwk) as (H1 & H2 & H3);
         split; [assumption | split; [assumption | discriminate]] |].
      unfold Memory.Update. simpl.
      rewrite (Hwk _ _ Hk), Hk. simpl.
      assert (Hid : emailID = ID (setArchived true email)) by (symmetry; apply (Hwk _ _ Hk)).
      destruct (IH (<[emailID := setArchived true email]> st) n) as (H1 & H2 & H3).
      { rewrite Hid at 1. now apply wellKeyed_insert. }
      split; [assumption |]. split; [|discriminate].
      apply (archivedOnly_trans userID st (<[emailID := setArchived true email]> st));
        [|assumption].
      intros k. destruct (decide (k = emailID)) as [->|Hne].
      * right. exists email. rewrite lookup_insert_eq. repeat split; assumption.
      * left. now rewrite lookup_insert_ne by congruence.
    + destruct (String.eqb action "read").
      { destruct (GmailClient.MarkAsRead (gmail s) (UEmail user) (GmailID email));
          now apply IH. }
      destruct (String.eqb action "unsubscribe").
      { destruct (UnsubscribeService.UnsubscribeEmails _ _ _ _ _ _ _ _ _)
          as [[n' logged] err]. now apply IH. }
      simpl. split; [assumption | split; [apply archivedOnly_refl | reflexivity]].
Qed.

(** [PerformBulkAction] on the in-memory store: whatever the action and
    the ids, no message is added or removed (also by the action
    [delete], which archives), a message of another owner is never
    changed, and the only change to a message of the acting owner is
    that its archived flag is set; the actions other than [archive] and
    [delete] leave the store as it is. *)
Theorem PerformBulkAction_archives_own_only (st : gmap string Email)
    (n : UnsubscribeService.Net World) (emailIDs : list string)
    (action userID : string) :
  wellKeyed st ->
  let st' := fst (fst (PerformBulkAction s World handleUnsubscribeURL regexMatches
                         anchorMatches st n emailIDs action userID)) in
  archivedOnly userID st st' /\
  (forall k, is_Some (st' !! k) <-> is_Some (st !! k)) /\
  (forall k e, st !! k = Some e -> UserID e <> userID -> st' !! k = Some e) /\
  (String.eqb action "archive" || String.eqb action "delete" = false -> st' = st).
Proof.
  intros Hwk st'.
  assert (Hmain : archivedOnly userID st st' /\
                  (String.eqb action "archive" || String.eqb action "delete" = false ->
                   st' = st)).
  { unfold st', PerformBulkAction.
    destruct (userRepo_FindByID s userID) as [user|e].
    - destruct (bulkLoop_archivedOnly action userID user emailIDs st n Hwk)
        as (_ & H2 & H3). split; assumption.
    - simpl. split; [apply archivedOnly_refl | reflexivity]. }
  destruct Hmain as [Harch Hsame]. split; [assumption |]. split; [|split].
  - intros k. destruct (Harch k) as [->|(e & Hb & _ & Ha)]; [reflexivity |].
    rewrite Ha, Hb. split; eauto.
  - intros k e Hk Hne. destruct (Harch k) as [->|(e' & Hb & Hu & _)]; [assumption |].
    rewrite Hk in Hb. injection Hb as <-. contradiction.
  - assumption.
Qed.

End Bulk.

Lemma collectOwned_ownedOf (userID : string) (st : gmap string Email)
    (emailIDs : list string) :
  forall acc, collectOwned s st userID emailIDs acc = acc ++ ownedOf st userID emailIDs.
Proof.
  induction emailIDs as [|id rest IH]; intros acc; simpl.
  - now rewrite app_nil_r.
  - rewrite on_memory. simpl. unfold Memory.FindByID.
    destruct (st !! id) as [e|]; [|apply IH].
    destruct (String.eqb (UserID e) userID); simpl; [|apply IH].
    rewrite IH, <- app_assoc. reflexivity.
Qed.

Lemma deleteAll_memory (emails : list Email) :
  forall (st : gmap string Email) (errs : list error),
    deleteAll s st emails errs
    = (List.fold_left (fun m e => delete (ID e) m) emails st, errs).
Proof.
  induction emails as [|e rest IH]; intros st errs; simpl; [reflexivity |].
  rewrite on_memory. simpl. apply IH.
Qed.

Lemma fold_delete_lookup (emails : list Email) :
  forall (st : gmap string Email) (k : string),
    (In k (List.map ID emails) ->
     List.fold_left (fun m e => delete (ID e) m) emails st !! k = None) /\
    (~ In k (List.map ID emails) ->
     List.fold_left (fun m e => delete (ID e) m) emails st !! k = st !! k).
Proof.
  induction emails as [|e rest IH]; intros st k; simpl; [tauto |].
  destruct (IH (delete (ID e) st) k) as [IH1 IH2]. split.
  - intros [<-|Hin].
    + destruct (classic_in (ID e) (List.map ID rest)) as [Hin|Hnin];
        [now apply IH1 | rewrite (IH2 Hnin); apply lookup_delete_eq].
    + now apply IH1.
  - intros Hno. rewrite IH2 by tauto. apply lookup_delete_ne. tauto.
Qed.

Lemma ownedOf_ids (st : gmap string Email) (userID : string) (emailIDs : list string) :
  wellKeyed st ->
  forall k, In k (List.map ID (ownedOf st userID emailIDs))
            <-> In k emailIDs /\ isOwned st userID k.
Proof.
  intros Hwk k. induction emailIDs as [|id rest IH]; simpl; [tauto |].
  destruct (st !! id) as [e|] eqn:Hid.
  - destruct (String.eqb_spec (UserID e) userID) as [Hu|Hu]; simpl.
    + rewrite IH, (Hwk _ _ Hid). split.
      * intros [<-|[Hin Ho]]; [|tauto]. split; [now left |]. now exists e.
      * intros [[->|Hin] Ho]; [now left | right; tauto].
    + rewrite IH. split; [tauto |].
      intros [[->|Hin] Ho]; [|tauto].
      destruct Ho as (e' & He' & Hu'). rewrite Hid in He'. injection He' as <-.
      contradiction.
  - rewrite IH. split; [tauto |].
    intros [[->|Hin] Ho]; [|tauto].
    destruct Ho as (e' & He' & _). rewrite Hid in He'. discriminate.
Qed.

(** [DeleteEmails] on the in-memory store deletes the caller's own
    messages among the ids and nothing else: a message of another owner
    and a message whose id was not passed stay as they are; when the
    call returns [nil], every passed id of a message of the caller is
    gone; when it returns an error, the store is unchanged. *)
Theorem DeleteEmails_deletes_own_only (st : gmap string Email)
    (emailIDs : list string) (userID : string) :
  wellKeyed st ->
  let st' := fst (DeleteEmails s st emailIDs userID) in
  (forall k, ~ (In k emailIDs /\ isOwned st userID k) -> st' !! k = st !! k) /\
  (snd (DeleteEmails s st emailIDs userID) = None ->
   forall k, In k emailIDs -> isOwned st userID k -> st' !! k = None) /\
  (snd (DeleteEmails s st emailIDs userID) <> None -> st' = st).
Proof.
  intros Hwk st'. unfold st', DeleteEmails.
  rewrite collectOwned_ownedOf. simpl.
  destruct (ownedOf st userID emailIDs) as [|e0 es] eqn:Eo.
  - simpl. split; [reflexivity |]. split; [|congruence].
    intros _ k Hin Ho. exfalso.
    assert (H : In k (List.map ID (ownedOf st userID emailIDs)))
      by (apply ownedOf_ids; tauto).
    now rewrite Eo in H.
  - cbn [List.length Nat.eqb].
    destruct (userRepo_FindByID s userID) as [user|err];
      [|simpl; split; [reflexivity | split; [discriminate | reflexivity]]].
    destruct (GmailClient.DeleteEmails (gmail s) (UEmail user) _) as [err|];
      [simpl; split; [reflexivity | split; [discriminate | reflexivity]] |].
    rewrite deleteAll_memory. simpl.
    split; [|split; [|congruence]].
    + intros k Hno. apply (fold_delete_lookup (e0 :: es)).
      rewrite <- Eo. intros Hin. apply Hno. now apply ownedOf_ids.
    + intros _ k Hin Ho. apply (fold_delete_lookup (e0 :: es)).
      rewrite <- Eo. apply ownedOf_ids; tauto.
Qed.









End OnMemory.

Lemma PerformBulkAction_archives_own_only_witness :
  let st' := fst (fst (PerformBulkAction willingService unit alwaysFails linesOf noAnchors
                         mixedInbox (UnsubscribeService.mkNet unit tt [])
                         ["e1"; "e2"; "e3"]%string "delete" "u1")) in
  (archivedOnly "u1" mixedInbox st' /\
   (forall k, is_Some (st' !! k) <-> is_Some (mixedInbox !! k)) /\
   (forall k e, mixedInbox !! k = Some e -> UserID e <> "u1"%string -> st' !! k = Some e) /\
   (String.eqb "delete" "archive" || String.eqb "delete" "delete" = false ->
    st' = mixedInbox)) /\
  (Archived <$> mixedInbox !! "e1"%string) = Some false /\
  (Archived <$> st' !! "e1"%string) = Some true /\
  (Archived <$> st' !! "e3"%string) = Some true /\
  (Archived <$> st' !! "e2"%string) = Some false.
Proof.
  split; [|vm_compute; repeat split].
  apply (PerformBulkAction_archives_own_only willingService eq_refl unit alwaysFails
           linesOf noAnchors mixedInbox (UnsubscribeService.mkNet unit tt [])
           ["e1"; "e2"; "e3"]%string "delete" "u1").
  intros k e. unfold mixedInbox.
  rewrite !lookup_insert. repeat case_decide; subst;
    try (intros [= <-]; reflexivity); now rewrite ?lookup_empty.
Defined.

Lemma DeleteEmails_deletes_own_only_witness :
  fst (DeleteEmails willingService mixedOwners ["e1"; "e2"]%string "u1") !! "e2"%string
  = mixedOwners !! "e2"%string.
Proof.
  refine (proj1 (DeleteEmails_deletes_own_only willingService eq_refl mixedOwners
                   ["e1"; "e2"]%string "u1" _) "e2"%string _).
  - intros k e. unfold mixedOwners.
    rewrite !lookup_insert. repeat case_decide; subst;
      try (intros [= <-]; reflexivity); now rewrite ?lookup_empty.
  - intros [_ (e & He & Hu)]. vm_compute in He. injection He as <-. discriminate.
Defined.


(** The guard of [DeleteEmails] at a concrete batch: the Gmail client
    reports an error, the three messages stay. *)
Lemma DeleteEmails_guard_witness :
  fst (DeleteEmails refusingService threeOwned ["e1"; "e2"; "e3"]%string "u1")
  = threeOwned.
Proof.
  apply (proj1 (DeleteFacts.DeleteEmails_guard refusingService threeOwned
                  ["e1"; "e2"; "e3"]%string "u1" ltac:(discriminate))).
Defined.

End EmailServiceFacts.

(** ** More on bulk actions *)

Module BulkActionFacts.
Import GoStrings Model Repository EmailService BulkAction MoreTerms Scenarios MoreScenarios.

Section Generic.
Context {S : Type} (s : emailService S).
Variable World : Type.
Variable handleUnsubscribeURL : string -> World -> World * option error.
Variable regexMatches : string -> list string.
Variable anchorMatches : string -> list string.

Lemma collectOwned_acc (st : S) (userID : string) (emailIDs : list string) :
  forall acc, collectOwned s st userID emailIDs acc
              = acc ++ collectOwned s st userID emailIDs [].
Proof.
  induction emailIDs as [|id rest IH]; intros acc; simpl.
  - now rewrite app_nil_r.
  - destruct (FindByID (emailRepo s) st id) as [e|err]; [|apply IH].
    destruct (negb (String.eqb (UserID e) userID)); [apply IH |].
    simpl. rewrite (IH (acc ++ [e])), (IH [e]), <- app_assoc. reflexivity.
Qed.

(** An action tag that is none of [archive], [read], [delete] and
    [unsubscribe] is refused only when the batch holds a stored message
    of the acting owner: then the call stops at the first such message
    with the error "unsupported bulk action"; on a batch without one
    (empty, unknown ids, messages of others) the call returns [nil].
    Either way nothing is changed and nothing is requested. *)
Theorem PerformBulkAction_unknown_action (st : S) (n : UnsubscribeService.Net World)
    (emailIDs : list string) (action userID : string) (user : User) :
  userRepo_FindByID s userID = Ok user ->
  knownAction action = false ->
  PerformBulkAction s World handleUnsubscribeURL regexMatches anchorMatches
    st n emailIDs action userID
  = (st, n,
     match collectOwned s st userID emailIDs [] with
     | [] => None
     | _ :: _ => Some (unsupported action)
     end).
Proof.
  intros Huser Hknown. unfold PerformBulkAction. rewrite Huser.
  unfold knownAction in Hknown.
  apply orb_false_iff in Hknown as [Hknown Hu].
  apply orb_false_iff in Hknown as [Hknown Hr].
  induction emailIDs as [|id rest IH]; simpl; [reflexivity |].
  destruct (FindByID (emailRepo s) st id) as [e|err]; [|exact IH].
  destruct (negb (String.eqb (UserID e) userID)); [exact IH |].
  rewrite Hknown, Hr, Hu. rewrite collectOwned_acc. reflexivity.
Qed.

End Generic.

Lemma PerformBulkAction_unknown_action_witness :
  PerformBulkAction willingService unit alwaysFails linesOf noAnchors
    mixedOwners (UnsubscribeService.mkNet unit tt []) ["e2"; "nope"]%string "purge" "u1"
  = (mixedOwners, UnsubscribeService.mkNet unit tt [],
     match collectOwned willingService mixedOwners "u1" ["e2"; "nope"]%string [] with
     | [] => None
     | _ :: _ => Some (unsupported "purge")
     end).
Proof.
  exact (PerformBulkAction_unknown_action willingService unit alwaysFails linesOf
           noAnchors mixedOwners (UnsubscribeService.mkNet unit tt [])
           ["e2"; "nope"]%string "purge" "u1" owner eq_refl eq_refl).
Defined.

End BulkActionFacts.

(** ** More on the subscriber registry *)

Module SSEDeliveryFacts.
Import SSE MoreTerms.

Lemma registered_spec (s : SSEManager) (channel : nat) :
  channel ∈ registered s <->
  exists userID sinks, clients s !! userID = Some sinks /\ channel ∈ sinks.
Proof.
  unfold registered. rewrite elem_of_union_list. split.
  - intros (X & HX & Hc). apply list_elem_of_fmap in HX as ([u sinks] & -> & Hin).
    apply elem_of_map_to_list in Hin. now exists u, sinks.
  - intros (u & sinks & Hu & Hc). exists sinks. split; [|assumption].
    apply list_elem_of_fmap. exists (u, sinks). split; [reflexivity |].
    now apply elem_of_map_to_list.
Qed.

Lemma AddClient_fresh (userID : string) (s : SSEManager) :
  (snd (AddClient userID s) ∉ registered s) /\ (snd (AddClient userID s) ∉ closed s).
Proof.
  unfold AddClient. simpl.
  pose proof (is_fresh (registered s ∪ closed s ∪ dom (buffers s))) as Hfresh.
  set_solver.
Qed.

Lemma AddClient_lookup (userID other : string) (s : SSEManager) :
  clients (fst (AddClient userID s)) !! other
  = if decide (other = userID)
    then Some ({[snd (AddClient userID s)]} ∪ default ∅ (clients s !! userID))
    else clients s !! other.
Proof.
  unfold AddClient. simpl. destruct (decide (other = userID)) as [->|Hne].
  - rewrite lookup_insert_eq. destruct (clients s !! userID) eqn:E; simpl.
    + now rewrite E.
    + now rewrite lookup_insert_eq.
  - rewrite lookup_insert_ne by congruence.
    destruct (clients s !! userID); [reflexivity |].
    now rewrite lookup_insert_ne by congruence.
Qed.

Lemma rangeOrder_spec (order : list nat) (sinks : gset nat) :
  NoDup (rangeOrder order sinks) /\
  forall channel, channel ∈ rangeOrder order sinks <-> channel ∈ sinks.
Proof.
  unfold rangeOrder. destruct (decide _) as [[Hnd Hset]|_].
  - split; [assumption |]. intros channel. rewrite <- Hset.
    now rewrite elem_of_list_to_set.
  - split; [apply NoDup_elements |]. intros channel. apply elem_of_elements.
Qed.

Lemma sendOrTimeout_lookup (jsonData : string) (drained : bool) (channel other : nat)
    (bufs : gmap nat (list string)) :
  sendOrTimeout jsonData drained channel bufs !! other
  = if decide (other = channel) then afterSend jsonData drained (bufs !! channel)
    else bufs !! other.
Proof.
  unfold sendOrTimeout, afterSend.
  destruct (decide (other = channel)) as [->|Hne].
  - destruct (List.length (default [] (bufs !! channel)) <? capacity)%nat;
      [apply lookup_insert_eq |].
    destruct drained; [apply lookup_insert_eq | reflexivity].
  - destruct (List.length (default [] (bufs !! channel)) <? capacity)%nat;
      [now rewrite lookup_insert_ne by congruence |].
    destruct drained; [now rewrite lookup_insert_ne by congruence | reflexivity].
Qed.

Lemma sendLoop_lookup (jsonData : string) (drains : nat -> bool) (closedChans : gset nat)
    (channels : list nat) (other : nat) :
  NoDup channels ->
  forall bufs bufs',
    sendLoop jsonData drains closedChans channels bufs = Returns bufs' ->
    bufs' !! other
    = if decide (other ∈ channels)
      then afterSend jsonData (drains other) (bufs !! other)
      else bufs !! other.
Proof.
  induction 1 as [|channel channels Hnotin Hnd IH]; intros bufs bufs'; cbn [sendLoop].
  - intros [= <-]. destruct (decide (other ∈ [])) as [Hin|_]; [|reflexivity].
    now apply elem_of_nil in Hin.
  - destruct (decide (channel ∈ closedChans)); [discriminate |].
    intros Hrest. rewrite (IH _ _ Hrest), sendOrTimeout_lookup.
    destruct (decide (other = channel)) as [->|Hne].
    + destruct (decide (channel ∈ channels)); [contradiction |].
      destruct (decide (channel ∈ channel :: channels)) as [_|Hno]; [reflexivity |].
      exfalso. apply Hno. now left.
    + destruct (decide (other ∈ channels)) as [Hin|Hnin].
      * destruct (decide (other ∈ channel :: channels)) as [_|Hno]; [reflexivity |].
        exfalso. apply Hno. now right.
      * destruct (decide (other ∈ channel :: channels)) as [Hin|_]; [|reflexivity].
        apply elem_of_cons in Hin as [Heq|Hin]; contradiction.
Qed.

Lemma sendLoop_returns (jsonData : string) (drains : nat -> bool) (closedChans : gset nat)
    (channels : list nat) :
  (forall channel, channel ∈ channels -> channel ∉ closedChans) ->
  forall bufs, exists bufs',
    sendLoop jsonData drains closedChans channels bufs = Returns bufs'.
Proof.
  induction channels as [|channel channels IH]; intros Hopen bufs; cbn [sendLoop].
  - now exists bufs.
  - destruct (decide (channel ∈ closedChans)) as [Hin|_].
    + exfalso. apply (Hopen channel); [now left | assumption].
    + apply IH. intros c Hc. apply Hopen. now right.
Qed.

(** A delivery that returns leaves the registry and the closed sinks
    as they are.  Every sink of the owner with room gets the event at
    the end of its queue; a sink of the owner that is full gets it
    when its subscriber reads within the five seconds, the oldest
    event having gone to the subscriber, and otherwise keeps its queue
    and loses the event; the sinks of other owners are not touched.
    Delivering to an owner without an entry changes nothing. *)
Theorem BroadcastToUser_delivery (userID : string) (jsonData : string)
    (order : list nat) (drains : nat -> bool) (s s' : SSEManager) :
  BroadcastToUser userID (Some jsonData) order drains s = Returns s' ->
  clients s' = clients s /\ closed s' = closed s /\
  (clients s !! userID = None -> s' = s) /\
  (forall sinks channel,
      clients s !! userID = Some sinks ->
      (channel ∈ sinks ->
       buffers s' !! channel
       = afterSend jsonData (drains channel) (buffers s !! channel)) /\
      (channel ∉ sinks -> buffers s' !! channel = buffers s !! channel)).
Proof.
  unfold BroadcastToUser.
  destruct (clients s !! userID) as [sinks|] eqn:E.
  - destruct (sendLoop _ _ _ _ _) as [bufs|bufs] eqn:Eloop; [|discriminate].
    intros [= <-]. simpl.
    split; [reflexivity |]. split; [reflexivity |]. split; [discriminate |].
    intros sinks' channel [= <-].
    destruct (rangeOrder_spec order sinks) as [Hnd Hmem].
    rewrite (sendLoop_lookup jsonData drains (closed s) _ channel Hnd _ _ Eloop).
    split; intros Hin.
    + destruct (decide (channel ∈ rangeOrder order sinks)) as [_|Hno]; [reflexivity |].
      exfalso. apply Hno. now apply Hmem.
    + destruct (decide (channel ∈ rangeOrder order sinks)) as [Hyes|_]; [|reflexivity].
      exfalso. apply Hin. now apply Hmem.
  - intros [= <-]. repeat split; discriminate.
Qed.

(** Ten events fill the sink of a subscriber that does not read.  The
    eleventh is delivered when the subscriber reads in time, the oldest
    event having left the sink; it is lost when the subscriber does not
    read. *)
Lemma BroadcastToUser_delivery_witness :
  let channel := snd (AddClient "u1" NewSSEManager) in
  (exists s',
      BroadcastToUser "u1" (Some "late"%string) [] (fun _ => true) (flooded 10)
      = Returns s' /\
      buffers s' !! channel
      = Some (List.repeat "event"%string 9 ++ ["late"%string])) /\
  (exists s',
      BroadcastToUser "u1" (Some "late"%string) [] (fun _ => false) (flooded 10)
      = Returns s' /\
      buffers s' !! channel = Some (List.repeat "event"%string 10)).
Proof.
  intros channel. split.
  - destruct (BroadcastToUser "u1" (Some "late"%string) [] (fun _ => true) (flooded 10))
      as [s'|s'] eqn:E; [|vm_compute in E; discriminate].
    exists s'. split; [reflexivity |].
    destruct (BroadcastToUser_delivery "u1" "late" [] (fun _ => true) (flooded 10) s' E)
      as (_ & _ & _ & Hsinks).
    destruct (Hsinks {[channel]} channel) as [Hin _]; [vm_compute; reflexivity |].
    rewrite Hin by set_solver. vm_compute. reflexivity.
  - destruct (BroadcastToUser "u1" (Some "late"%string) [] (fun _ => false) (flooded 10))
      as [s'|s'] eqn:E; [|vm_compute in E; discriminate].
    exists s'. split; [reflexivity |].
    destruct (BroadcastToUser_delivery "u1" "late" [] (fun _ => false) (flooded 10) s' E)
      as (_ & _ & _ & Hsinks).
    destruct (Hsinks {[channel]} channel) as [Hin _]; [vm_compute; reflexivity |].
    rewrite Hin by set_solver. vm_compute. reflexivity.
Defined.

Lemma afterSend_bounded (jsonData : string) (drained : bool)
    (queue : option (list string)) (q : list string) :
  (forall q0, queue = Some q0 -> (List.length q0 <= capacity)%nat) ->
  afterSend jsonData drained queue = Some q -> (List.length q <= capacity)%nat.
Proof.
  intros Hb. unfold afterSend.
  destruct (List.length (default [] queue) <? capacity)%nat eqn:E.
  - intros [= <-]. apply Nat.ltb_lt in E. rewrite length_app. simpl. lia.
  - destruct drained; [|apply Hb]. intros [= <-].
    destruct queue as [[|e held]|]; simpl.
    + unfold capacity. lia.
    + specialize (Hb (e :: held) eq_refl). simpl in Hb.
      rewrite length_app. simpl. lia.
    + unfold capacity. lia.
Qed.

Lemma sendLoop_bounded (jsonData : string) (drains : nat -> bool) (closedChans : gset nat)
    (channels : list nat) :
  forall bufs,
    (forall channel queue, bufs !! channel = Some queue ->
                           (List.length queue <= capacity)%nat) ->
    forall channel queue,
      after (sendLoop jsonData drains closedChans channels bufs) !! channel = Some queue ->
      (List.length queue <= capacity)%nat.
Proof.
  induction channels as [|c channels IH]; intros bufs Hb; cbn [sendLoop].
  - exact Hb.
  - destruct (decide (c ∈ closedChans)); [exact Hb |].
    apply IH. intros channel queue. rewrite sendOrTimeout_lookup.
    destruct (decide (channel = c)) as [->|_]; [|apply Hb].
    apply afterSend_bounded. apply Hb.
Qed.

Lemma closeLoop_buffers (chanOrder : string -> list nat) (users : list string) :
  forall s, buffers (after (closeLoop chanOrder users s)) = buffers s.
Proof.
  induction users as [|userID rest IH]; intros s; cbn [closeLoop]; [reflexivity |].
  destruct (clients s !! userID); [|apply IH].
  destruct (closeChannels _ _); [|reflexivity].
  now rewrite IH.
Qed.

Lemma step_boundedBuffers (o : op) (s : SSEManager) :
  boundedBuffers s -> boundedBuffers (after (step o s)).
Proof.
  intros Hb. destruct o as [u|u ch|u data order drains|ch|userOrder chanOrder]; simpl.
  - intros channel queue. unfold AddClient. simpl.
    destruct (decide (channel = fresh (registered s ∪ closed s ∪ dom (buffers s))))
      as [->|Hne].
    + rewrite lookup_insert_eq. intros [= <-]. unfold capacity. simpl. lia.
    + rewrite lookup_insert_ne by congruence. apply Hb.
  - unfold RemoveClient. destruct (clients s !! u); [|exact Hb].
    destruct (decide _); [exact Hb |].
    destruct (decide _); exact Hb.
  - unfold BroadcastToUser. destruct (clients s !! u) as [sinks|]; [|exact Hb].
    destruct data as [d|]; [|exact Hb].
    pose proof (sendLoop_bounded d drains (closed s) (rangeOrder order sinks)
                  (buffers s) Hb) as Hloop.
    destruct (sendLoop _ _ _ _ _); exact Hloop.
  - unfold Receive. destruct (buffers s !! ch) as [[|e queue]|] eqn:E; try exact Hb.
    intros channel q. simpl. destruct (decide (channel = ch)) as [->|Hne].
    + rewrite lookup_insert_eq. intros [= <-].
      specialize (Hb ch (e :: queue) E). simpl in Hb. lia.
    + rewrite lookup_insert_ne by congruence. apply Hb.
  - unfold Close. intros channel queue. rewrite closeLoop_buffers. apply Hb.
Qed.

(** Delivery is bounded: in every state the manager goes through,
    whatever panics and whatever the subscribers read, no sink holds
    more than ten undelivered events. *)
Theorem reachable_boundedBuffers (s : SSEManager) :
  reachable s -> boundedBuffers s.
Proof.
  induction 1 as [|o s _ IH].
  - intros channel queue. unfold NewSSEManager. simpl. now rewrite lookup_empty.
  - exact (step_boundedBuffers o s IH).
Qed.

(** Twelve events sent to a subscriber that never reads: the sink
    holds ten, which is no more than its capacity. *)
Lemma reachable_boundedBuffers_witness :
  boundedBuffers (flooded 12) /\
  (List.length <$> buffers (flooded 12) !! snd (AddClient "u1" NewSSEManager))
  = Some 10%nat.
Proof.
  split; [|vm_compute; reflexivity].
  apply reachable_boundedBuffers.
  assert (Hall : forall n, reachable (flooded n)).
  { induction n as [|n IH].
    - apply (reach_step (OpAddClient "u1") NewSSEManager). constructor.
    - apply (reach_step (OpBroadcast "u1" (Some "event"%string) [] (fun _ => false))
               (flooded n) IH). }
  apply Hall.
Defined.

(** *** The manager as the handler uses it *)

Lemma closeChannels_returns (channels : list nat) :
  NoDup channels ->
  forall closedChans : gset nat,
    (forall channel, channel ∈ channels -> channel ∉ closedChans) ->
    closeChannels channels closedChans = Returns (list_to_set channels ∪ closedChans).
Proof.
  induction 1 as [|c channels Hnotin Hnd IH]; intros closedChans Hopen; cbn [closeChannels].
  - f_equal. set_solver.
  - destruct (decide (c ∈ closedChans)) as [Hin|_].
    + exfalso. apply (Hopen c); [now left | assumption].
    + rewrite IH.
      * f_equal. set_solver.
      * intros channel Hc. specialize (Hopen channel ltac:(now right)). set_solver.
Qed.

Lemma closeLoop_returns (chanOrder : string -> list nat) (users : list string) :
  forall s,
    nonEmptySets s -> openSinks s -> disjointSinks s ->
    exists s',
      closeLoop chanOrder users s = Returns s' /\
      nonEmptySets s' /\ openSinks s' /\ disjointSinks s'.
Proof.
  induction users as [|userID rest IH]; intros s Hne Hopen Hdis; cbn [closeLoop].
  - now exists s.
  - destruct (clients s !! userID) as [sinks|] eqn:E; [|now apply IH].
    destruct (rangeOrder_spec (chanOrder userID) sinks) as [Hnd Hmem].
    rewrite (closeChannels_returns _ Hnd (closed s)).
    2:{ intros channel Hc. apply (Hopen userID sinks); [assumption | now apply Hmem]. }
    apply IH.
    + intros u x. simpl. destruct (decide (u = userID)) as [->|Hu].
      * now rewrite lookup_delete_eq.
      * rewrite lookup_delete_ne by congruence. apply Hne.
    + intros u x channel. simpl. destruct (decide (u = userID)) as [->|Hu].
      * now rewrite lookup_delete_eq.
      * rewrite lookup_delete_ne by congruence. intros Hx Hc.
        apply not_elem_of_union. split; [|now apply (Hopen u x)].
        rewrite elem_of_list_to_set, Hmem. intros Hin.
        apply Hu. exact (Hdis u userID x sinks channel Hx E Hc Hin).
    + intros u1 u2 x1 x2 channel. simpl.
      destruct (decide (u1 = userID)) as [->|H1]; [now rewrite lookup_delete_eq |].
      destruct (decide (u2 = userID)) as [->|H2]; [now rewrite lookup_delete_eq |].
      rewrite !lookup_delete_ne by congruence. apply Hdis.
Qed.

Lemma AddClient_invariants (userID : string) (s : SSEManager) :
  openSinks s -> disjointSinks s ->
  openSinks (fst (AddClient userID s)) /\ disjointSinks (fst (AddClient userID s)).
Proof.
  intros Hopen Hdis. destruct (AddClient_fresh userID s) as [Hreg Hcl].
  assert (Hclosed : closed (fst (AddClient userID s)) = closed s) by reflexivity.
  assert (Hold : forall u x channel,
             clients (fst (AddClient userID s)) !! u = Some x -> channel ∈ x ->
             channel = snd (AddClient userID s) /\ u = userID \/
             exists x0, clients s !! u = Some x0 /\ channel ∈ x0).
  { intros u x channel. rewrite AddClient_lookup.
    destruct (decide (u = userID)) as [->|Hu].
    - intros [= <-] Hc. apply elem_of_union in Hc as [Hc|Hc].
      + left. split; [set_solver | reflexivity].
      + right. destruct (clients s !! userID) as [x0|]; simpl in Hc; [|set_solver].
        now exists x0.
    - intros Hx Hc. right. now exists x. }
  split.
  - intros u x channel Hx Hc. rewrite Hclosed.
    destruct (Hold u x channel Hx Hc) as [[Heq _]|(x0 & Hx0 & Hc0)];
      [now rewrite Heq | now apply (Hopen u x0)].
  - intros u1 u2 x1 x2 channel Hx1 Hx2 Hc1 Hc2.
    destruct (Hold u1 x1 channel Hx1 Hc1) as [[Heq1 ->]|(y1 & Hy1 & Hd1)];
      destruct (Hold u2 x2 channel Hx2 Hc2) as [[Heq2 ->]|(y2 & Hy2 & Hd2)].
    + reflexivity.
    + exfalso. apply Hreg. rewrite <- Heq1. apply registered_spec. now exists u2, y2.
    + exfalso. apply Hreg. rewrite <- Heq2. apply registered_spec. now exists u1, y1.
    + exact (Hdis u1 u2 y1 y2 channel Hy1 Hy2 Hd1 Hd2).
Qed.

Lemma RemoveClient_own (userID : string) (channel : nat) (s : SSEManager)
    (sinks : gset nat) :
  nonEmptySets s -> openSinks s -> disjointSinks s ->
  clients s !! userID = Some sinks -> channel ∈ sinks ->
  exists s',
    RemoveClient userID channel s = Returns s' /\
    nonEmptySets s' /\ openSinks s' /\ disjointSinks s'.
Proof.
  intros Hne Hopen Hdis Hu Hc.
  assert (Hnotclosed : channel ∉ closed s) by now apply (Hopen userID sinks).
  assert (Hsub : forall s' : SSEManager,
             closed s' = {[channel]} ∪ closed s ->
             (forall u x, clients s' !! u = Some x ->
                          exists x0, clients s !! u = Some x0 /\
                                     (u = userID -> x = x0 ∖ {[channel]}) /\
                                     (u <> userID -> x = x0)) ->
             openSinks s' /\ disjointSinks s').
  { intros s' Hcl Hreg. split.
    - intros u x c Hx Hin. rewrite Hcl.
      destruct (Hreg u x Hx) as (x0 & Hx0 & Hsame & Hother).
      destruct (decide (u = userID)) as [->|Hneq].
      + rewrite (Hsame eq_refl) in Hin.
        apply not_elem_of_union. split; [set_solver |].
        apply (Hopen userID x0); [assumption | set_solver].
      + rewrite (Hother Hneq) in Hin.
        apply not_elem_of_union. split; [|now apply (Hopen u x0)].
        intros Heq. apply elem_of_singleton in Heq. subst c.
        apply Hneq. exact (Hdis u userID x0 sinks channel Hx0 Hu Hin Hc).
    - intros u1 u2 x1 x2 c Hx1 Hx2 Hc1 Hc2.
      destruct (Hreg u1 x1 Hx1) as (y1 & Hy1 & Hs1 & Ho1).
      destruct (Hreg u2 x2 Hx2) as (y2 & Hy2 & Hs2 & Ho2).
      apply (Hdis u1 u2 y1 y2 c Hy1 Hy2).
      + destruct (decide (u1 = userID)) as [E|E];
          [rewrite (Hs1 E) in Hc1; set_solver | now rewrite (Ho1 E) in Hc1].
      + destruct (decide (u2 = userID)) as [E|E];
          [rewrite (Hs2 E) in Hc2; set_solver | now rewrite (Ho2 E) in Hc2]. }
  unfold RemoveClient. rewrite Hu.
  destruct (decide (channel ∈ closed s)); [contradiction |].
  destruct (decide (size (sinks ∖ {[channel]}) = 0%nat)) as [Hz|Hnz].
  - eexists. split; [reflexivity |]. split.
    + exact (SSEFacts.RemoveClient_nonEmptySets userID channel s _ Hne
               ltac:(unfold RemoveClient; rewrite Hu;
                     destruct (decide (channel ∈ closed s)); [contradiction |];
                     destruct (decide (size (sinks ∖ {[channel]}) = 0%nat));
                       [reflexivity | contradiction])).
    + apply Hsub; [reflexivity |]. intros u x. simpl.
      destruct (decide (u = userID)) as [->|Hneq]; [now rewrite lookup_delete_eq |].
      rewrite lookup_delete_ne by congruence. intros Hx. exists x.
      split; [assumption | split; [contradiction | reflexivity]].
  - eexists. split; [reflexivity |]. split.
    + exact (SSEFacts.RemoveClient_nonEmptySets userID channel s _ Hne
               ltac:(unfold RemoveClient; rewrite Hu;
                     destruct (decide (channel ∈ closed s)); [contradiction |];
                     destruct (decide (size (sinks ∖ {[channel]}) = 0%nat));
                       [contradiction | reflexivity])).
    + apply Hsub; [reflexivity |]. intros u x. simpl.
      destruct (decide (u = userID)) as [->|Hneq].
      * rewrite lookup_insert_eq. intros [= <-]. exists sinks.
        split; [assumption | split; [reflexivity | contradiction]].
      * rewrite lookup_insert_ne by congruence. intros Hx. exists x.
        split; [assumption | split; [contradiction | reflexivity]].
Qed.

Lemma ownUse_returns (o : op) (s : SSEManager) :
  nonEmptySets s -> openSinks s -> disjointSinks s -> ownUse o s ->
  exists s',
    step o s = Returns s' /\ nonEmptySets s' /\ openSinks s' /\ disjointSinks s'.
Proof.
  intros Hne Hopen Hdis Huse.
  destruct o as [u|u ch|u data order drains|ch|userOrder chanOrder]; simpl.
  - eexists. split; [reflexivity |].
    split; [now apply SSEFacts.AddClient_nonEmptySets |].
    now apply AddClient_invariants.
  - destruct Huse as (sinks & Hu & Hc). now apply (RemoveClient_own u ch s sinks).
  - assert (Hret : exists s', BroadcastToUser u data order drains s = Returns s').
    { unfold BroadcastToUser. destruct (clients s !! u) as [sinks|] eqn:E; [|eauto].
      destruct data as [d|]; [|eauto].
      destruct (sendLoop_returns d drains (closed s) (rangeOrder order sinks))
        with (bufs := buffers s) as [bufs ->]; [|eauto].
      intros channel Hc. apply (Hopen u sinks); [assumption |].
      now apply (proj2 (rangeOrder_spec order sinks)). }
    destruct Hret as [s' Hs']. exists s'. split; [assumption |].
    destruct (SSEFacts.BroadcastToUser_clients u data order drains s) as [Hcl Hclosed].
    rewrite Hs' in Hcl, Hclosed. simpl in Hcl, Hclosed.
    unfold nonEmptySets, openSinks, disjointSinks. rewrite Hcl, Hclosed. tauto.
  - eexists. split; [reflexivity |].
    destruct (SSEFacts.Receive_clients ch s) as [Hcl Hclosed].
    unfold nonEmptySets, openSinks, disjointSinks. rewrite Hcl, Hclosed. tauto.
  - unfold Close. now apply closeLoop_returns.
Qed.

Lemma handled_invariants (s : SSEManager) :
  handled s -> nonEmptySets s /\ openSinks s /\ disjointSinks s.
Proof.
  induction 1 as [|o s _ (Hne & Hopen & Hdis) Huse].
  - unfold nonEmptySets, openSinks, disjointSinks, NewSSEManager. simpl.
    repeat split; intros *; rewrite lookup_empty; discriminate.
  - destruct (ownUse_returns o s Hne Hopen Hdis Huse) as (s' & -> & Hinv). exact Hinv.
Qed.

(** Used as the handler uses it, every sink being unregistered for
    the owner it is registered for, the manager never panics, whatever
    the order of its loops and whatever the subscribers read; every
    owner of the registry has a sink, so that [HasUserConnection]
    holds of an owner exactly when the registry has an entry for
    it. *)
Theorem handled_never_panics (s : SSEManager) :
  handled s ->
  (forall o, ownUse o s -> exists s', step o s = Returns s') /\
  nonEmptySets s /\
  (forall userID,
      HasUserConnection userID s = true <-> is_Some (clients s !! userID)).
Proof.
  intros Hh. destruct (handled_invariants s Hh) as (Hne & Hopen & Hdis).
  split; [|split; [assumption |]].
  - intros o Huse.
    destruct (ownUse_returns o s Hne Hopen Hdis Huse) as (s' & Hs' & _). now exists s'.
  - intros userID. unfold HasUserConnection, GetUserConnectionCount.
    destruct (clients s !! userID) as [sinks|] eqn:E.
    + split; [eauto |]. intros _. apply Nat.ltb_lt.
      pose proof (Hne userID sinks E) as Hsinks.
      destruct (decide (size sinks = 0%nat)) as [Hz|Hnz]; [|lia].
      apply size_empty_inv in Hz. exfalso. apply Hsinks. now apply leibniz_equiv.
    + split; [discriminate |]. intros [x Hx]. discriminate.
Qed.

(** Two subscribers of one owner; the first leaves: the manager
    returns, and the owner still has a connection. *)
Lemma handled_never_panics_witness :
  let s1 := fst (AddClient "u1" NewSSEManager) in
  let c1 := snd (AddClient "u1" NewSSEManager) in
  let s2 := fst (AddClient "u1" s1) in
  (exists s', step (OpRemoveClient "u1" c1) s2 = Returns s') /\
  (HasUserConnection "u1" s2 = true <-> is_Some (clients s2 !! "u1"%string)).
Proof.
  intros s1 c1 s2.
  assert (Hh : handled s2).
  { apply (handled_step (OpAddClient "u1") s1); [|exact I].
    apply (handled_step (OpAddClient "u1") NewSSEManager); [constructor | exact I]. }
  destruct (handled_never_panics s2 Hh) as (Hret & _ & Hhas).
  split; [|apply Hhas].
  apply Hret. exists {[snd (AddClient "u1" s1); c1]}. split.
  - vm_compute. reflexivity.
  - set_solver.
Defined.

End SSEDeliveryFacts.

(** ** The checkpoint of the sync job *)

Module SyncJobFacts.
Import Model SyncJob MoreScenarios.

Lemma mostRecentLoop_spec (emails : list Email) :
  forall mostRecent : Email,
    let r := mostRecentLoop mostRecent emails in
    (r = mostRecent /\
     forall e, In e emails -> ReceivedAt e <= ReceivedAt mostRecent) \/
    (exists pre post,
        emails = pre ++ r :: post /\
        ReceivedAt mostRecent < ReceivedAt r /\
        (forall e, In e pre -> ReceivedAt e < ReceivedAt r) /\
        (forall e, In e post -> ReceivedAt e <= ReceivedAt r)).
Proof.
  induction emails as [|email rest IH]; intros mostRecent; simpl.
  - left. split; [reflexivity | tauto].
  - destruct (ReceivedAt mostRecent <? ReceivedAt email) eqn:E.
    + apply Z.ltb_lt in E.
      destruct (IH email) as [[Hr Hall]|(pre & post & Hsplit & Hlt & Hpre & Hpost)].
      * right. exists [], rest. rewrite Hr. simpl.
        split; [reflexivity |]. split; [assumption |]. split; [tauto | assumption].
      * right. exists (email :: pre), post. rewrite Hsplit at 1. simpl.
        split; [reflexivity |]. split; [lia |]. split; [|assumption].
        intros e [<-|Hin]; [assumption | now apply Hpre].
    + apply Z.ltb_ge in E.
      destruct (IH mostRecent) as [[Hr Hall]|(pre & post & Hsplit & Hlt & Hpre & Hpost)].
      * left. split; [assumption |]. intros e [<-|Hin]; [assumption | now apply Hall].
      * right. exists (email :: pre), post. rewrite Hsplit at 1. simpl.
        split; [reflexivity |]. split; [assumption |]. split; [|assumption].
        intros e [<-|Hin]; [lia | now apply Hpre].
Qed.

(** The checkpoint of the periodic sync: of the stored messages of an
    owner, [getMostRecentEmailForUser] returns one with the latest
    reception time, the first such in the order of the store's answer;
    without stored messages it returns none, and an error of the store
    is passed on. *)
Theorem getMostRecentEmailForUser_latest (emails : list Email) :
  (emails <> [] ->
   exists pre r post,
     getMostRecentEmailForUser (Ok emails) = Ok (Some r) /\
     emails = pre ++ r :: post /\
     (forall e, In e pre -> ReceivedAt e < ReceivedAt r) /\
     (forall e, In e post -> ReceivedAt e <= ReceivedAt r)) /\
  getMostRecentEmailForUser (Ok []) = Ok None /\
  (forall e, getMostRecentEmailForUser (Err e) = Err e).
Proof.
  split; [|split; reflexivity].
  intros Hne. destruct emails as [|first rest]; [congruence |].
  unfold getMostRecentEmailForUser.
  destruct (mostRecentLoop_spec (first :: rest) first)
    as [[Hr Hall]|(pre & post & Hsplit & Hlt & Hpre & Hpost)].
  - exists [], first, rest. rewrite Hr. simpl.
    split; [reflexivity |]. split; [reflexivity |]. split; [tauto |].
    intros e Hin. apply Hall. now right.
  - exists pre, (mostRecentLoop first (first :: rest)), post.
    split; [reflexivity |]. split; [assumption |]. split; assumption.
Qed.

Lemma getMostRecentEmailForUser_latest_witness :
  exists pre r post,
    getMostRecentEmailForUser (Ok threeByTime) = Ok (Some r) /\
    threeByTime = pre ++ r :: post /\
    (forall e, In e pre -> ReceivedAt e < ReceivedAt r) /\
    (forall e, In e post -> ReceivedAt e <= ReceivedAt r).
Proof.
  apply (proj1 (getMostRecentEmailForUser_latest threeByTime)). discriminate.
Defined.

Lemma afterLoop_collects (afterEmailID : string) (post : list Email) :
  forall newEmails,
    afterLoop afterEmailID post true newEmails = newEmails ++ post.
Proof.
  induction post as [|e post IH]; intros newEmails; simpl.
  - now rewrite app_nil_r.
  - rewrite IH, <- app_assoc. reflexivity.
Qed.

Lemma afterLoop_skips (afterEmailID : string) (pre rest : list Email) :
  (forall e, In e pre -> GmailID e <> afterEmailID) ->
  forall newEmails,
    afterLoop afterEmailID (pre ++ rest) false newEmails
    = afterLoop afterEmailID rest false newEmails.
Proof.
  induction pre as [|e pre IH]; intros Hpre newEmails; simpl; [reflexivity |].
  destruct (String.eqb_spec (GmailID e) afterEmailID) as [Heq|Hne].
  - exfalso. apply (Hpre e); [now left | assumption].
  - apply IH. intros e' Hin. apply Hpre. now right.
Qed.

(** [getEmailsAfter] returns the stored messages that follow the first
    message bearing the given provider id, in the order of the store's
    answer (later messages bearing that id again included); when no
    stored message bears it, it returns none. *)
Theorem getEmailsAfter_suffix (allEmails : list Email) (afterEmailID : string) :
  (forall pre c post,
      allEmails = pre ++ c :: post ->
      GmailID c = afterEmailID ->
      (forall e, In e pre -> GmailID e <> afterEmailID) ->
      getEmailsAfter (Ok allEmails) afterEmailID = Ok post) /\
  ((forall e, In e allEmails -> GmailID e <> afterEmailID) ->
   getEmailsAfter (Ok allEmails) afterEmailID = Ok []).
Proof.
  unfold getEmailsAfter. split.
  - intros pre c post -> Hc Hpre.
    rewrite (afterLoop_skips afterEmailID pre (c :: post) Hpre). simpl.
    rewrite Hc, String.eqb_refl. now rewrite afterLoop_collects.
  - intros Hnone. rewrite <- (app_nil_r allEmails).
    now rewrite (afterLoop_skips afterEmailID allEmails [] Hnone).
Qed.

Lemma getEmailsAfter_suffix_witness :
  getEmailsAfter (Ok threeByTime) "g2"
  = Ok [mkEmail "e3" "u1" "g3" "a" "s" "b" EmptyString EmptyString 90 false 0 0].
Proof.
  refine (proj1 (getEmailsAfter_suffix threeByTime "g2")
            [mkEmail "e1" "u1" "g1" "a" "s" "b" EmptyString EmptyString 50 false 0 0]
            (mkEmail "e2" "u1" "g2" "a" "s" "b" EmptyString EmptyString 90 false 0 0)
            [mkEmail "e3" "u1" "g3" "a" "s" "b" EmptyString EmptyString 90 false 0 0]
            eq_refl eq_refl _).
  intros e [<-|[]]. discriminate.
Defined.

End SyncJobFacts.

(** ** Helpers of the unsubscribe service *)

Module UnsubscribeHelperFacts.
Import GoStrings UnsubscribeHelpers MoreTerms MoreScenarios.

Lemma HasPrefix_app (s p : string) :
  HasPrefix s p = true <-> exists post, s = String.append p post.
Proof.
  revert s. induction p as [|b p IH]; intros s; simpl.
  - split; [intros _; now exists s | intros _; now destruct s].
  - destruct s as [|a s].
    + split; [discriminate | intros [post H]; discriminate].
    + cbn [HasPrefix]. split.
      * intros H. apply andb_prop in H as [Hab Hp].
        apply Ascii.eqb_eq in Hab as ->. apply IH in Hp as [post ->].
        now exists post.
      * intros [post H]. rewrite StringFacts.append_cons in H.
        injection H as -> ->. rewrite Ascii.eqb_refl. simpl.
        apply IH. now exists post.
Qed.

Lemma Contains_app (s sub : string) :
  Contains s sub = true <->
  exists pre post, s = String.append pre (String.append sub post).
Proof.
  induction s as [|a s IH].
  - cbn [Contains]. rewrite orb_false_r, HasPrefix_app. split.
    + intros [post H]. now exists EmptyString, post.
    + intros (pre & post & H). destruct pre as [|x pre]; [now exists post |].
      rewrite StringFacts.append_cons in H. discriminate.
  - cbn [Contains]. rewrite orb_true_iff, HasPrefix_app, IH. split.
    + intros [[post H]|(pre & post & H)].
      * now exists EmptyString, post.
      * exists (String a pre), post. now rewrite StringFacts.append_cons, H.
    + intros (pre & post & H). destruct pre as [|x pre].
      * left. now exists post.
      * right. rewrite StringFacts.append_cons in H. injection H as -> ->.
        now exists pre, post.
Qed.

Lemma Contains_trans (s mid sub : string) :
  Contains s mid = true -> Contains mid sub = true -> Contains s sub = true.
Proof.
  rewrite !Contains_app.
  intros (p1 & q1 & ->) (p2 & q2 & ->).
  exists (String.append p1 p2), (String.append q2 q1).
  now rewrite !StringFacts.append_assoc.
Qed.

Lemma anyKeyword_exists (textLower : string) (keywords : list string) :
  anyKeyword textLower keywords = true <->
  exists k, In k keywords /\ Contains textLower k = true.
Proof.
  induction keywords as [|k ks IH]; simpl.
  - split; [discriminate | intros (k & [] & _)].
  - destruct (Contains textLower k) eqn:E.
    + split; [intros _; exists k; tauto | reflexivity].
    + rewrite IH. split.
      * intros (k' & Hin & Hc). exists k'. tauto.
      * intros (k' & [<-|Hin] & Hc); [congruence | now exists k'].
Qed.

(** Five of the nineteen keywords of [isUnsubscribeRelatedText] never
    decide: a text is unsubscribe-related exactly when its lower-case
    form contains one of the fourteen keywords that no shorter keyword
    implies (so any text with "cancel", "quit" or "disable" in it
    counts). *)
Theorem isUnsubscribeRelatedText_minimal (unicodeLower : string -> string)
    (text : string) :
  isUnsubscribeRelatedText unicodeLower text
  = anyKeyword (ToLower unicodeLower text) minimalKeywords.
Proof.
  unfold isUnsubscribeRelatedText.
  set (t := ToLower unicodeLower text).
  apply eq_true_iff_eq. rewrite !anyKeyword_exists. split.
  - intros (k & Hin & Hc).
    assert (Himp : exists k', In k' minimalKeywords /\ Contains k k' = true).
    { unfold unsubscribeKeywords in Hin. simpl in Hin. unfold minimalKeywords.
      repeat (destruct Hin as [<-|Hin];
              [first [ exists "unsub"%string; split; [simpl; tauto | reflexivity]
                     | exists "cancel"%string; split; [simpl; tauto | reflexivity]
                     | exists "stop email"%string; split; [simpl; tauto | reflexivity]
                     | exists "opt out"%string; split; [simpl; tauto | reflexivity]
                     | match goal with
                       | |- exists k', _ /\ Contains ?k k' = true =>
                           exists k; split; [simpl; tauto | reflexivity]
                       end ] |]).
      destruct Hin. }
    destruct Himp as (k' & Hin' & Hk'). exists k'. split; [assumption |].
    now apply (Contains_trans t k k').
  - intros (k & Hin & Hc). exists k. split; [|assumption].
    unfold minimalKeywords in Hin. simpl in Hin. unfold unsubscribeKeywords. simpl.
    intuition.
Qed.

(** [inferFieldValue] gives one of five values, and for every field
    name whose lower-case form contains "unsub", "opt" or "cancel" it
    gives "true". *)
Theorem inferFieldValue_values (unicodeLower : string -> string) (fieldName : string) :
  In (inferFieldValue unicodeLower fieldName) inferredValues /\
  (let lower := ToLower unicodeLower fieldName in
   Contains lower "unsub" || Contains lower "opt" || Contains lower "cancel" = true ->
   inferFieldValue unicodeLower fieldName = "true"%string).
Proof.
  unfold inferFieldValue.
  set (lower := ToLower unicodeLower fieldName).
  destruct (fieldValueMap !! lower) as [value|] eqn:E.
  - unfold fieldValueMap in E.
    repeat (rewrite lookup_insert in E;
            destruct (decide _) as [Heq|_] in E;
            [injection E as <-; rewrite <- Heq;
             split; [simpl; tauto | intros H; vm_compute in H; congruence] |]).
    now rewrite lookup_empty in E.
  - split.
    + destruct (_ || _); simpl; tauto.
    + simpl. now intros ->.
Qed.

Lemma inferFieldValue_values_witness :
  inferFieldValue (fun s => s) "Email_Opt_In" = "true"%string.
Proof.
  apply (proj2 (inferFieldValue_values (fun s => s) "Email_Opt_In")). reflexivity.
Defined.

Lemma addInput_skips (unicodeLower : string -> string) (input : Input)
    (formData : list (string * string)) :
  contributes unicodeLower input = false ->
  addInput unicodeLower input formData = formData.
Proof.
  unfold contributes, addInput. destruct (attrName input); [|reflexivity].
  simpl. destruct (_ || _); [reflexivity | discriminate].
Qed.

Lemma addInput_names (unicodeLower : string -> string) (input : Input)
    (formData : list (string * string)) :
  exists added,
    addInput unicodeLower input formData = formData ++ added /\
    (List.length added <= 1)%nat /\
    forall name value, In (name, value) added ->
      attrName input = Some name /\ contributes unicodeLower input = true.
Proof.
  unfold addInput, contributes. destruct (attrName input) as [name|].
  - cbn zeta.
    set (kind := ToLower unicodeLower (default "text"%string (attrType input))).
    destruct (String.eqb kind "submit" || String.eqb kind "button"); cbn [negb].
    + exists []. rewrite app_nil_r.
      split; [reflexivity |]. split; [simpl; lia |]. intros n v [].
    + destruct (String.eqb kind "checkbox" || String.eqb kind "radio").
      * destruct (attrChecked input || _ || _).
        -- eexists. split; [reflexivity |]. split; [simpl; lia |].
           intros n v [[= <- <-]|[]]. split; reflexivity.
        -- exists []. rewrite app_nil_r.
           split; [reflexivity |]. split; [simpl; lia |]. intros n v [].
      * destruct (attrValue input);
          (eexists; split; [reflexivity |]; split; [simpl; lia |];
           intros n v [[= <- <-]|[]]; split; reflexivity).
  - exists []. rewrite app_nil_r.
    split; [reflexivity |]. split; [simpl; lia |]. intros n v [].
Qed.

(** The fields a form submission carries: submit and button controls
    and inputs without a name never contribute, so that taking them out
    of the form changes nothing; every field that is sent bears the
    name of an input of the form that is neither; and at most one field
    is sent per such input. *)
Theorem collectInputs_contributors (unicodeLower : string -> string)
    (inputs : list Input) :
  collectInputs unicodeLower inputs []
  = collectInputs unicodeLower (List.filter (contributes unicodeLower) inputs) [] /\
  (forall name value,
      In (name, value) (collectInputs unicodeLower inputs []) ->
      exists input, In input inputs /\ attrName input = Some name /\
                    contributes unicodeLower input = true) /\
  (List.length (collectInputs unicodeLower inputs [])
   <= List.length (List.filter (contributes unicodeLower) inputs))%nat.
Proof.
  assert (Hfilter : forall formData,
             collectInputs unicodeLower inputs formData
             = collectInputs unicodeLower
                 (List.filter (contributes unicodeLower) inputs) formData).
  { induction inputs as [|input rest IH]; intros formData; simpl; [reflexivity |].
    destruct (contributes unicodeLower input) eqn:E; simpl; [apply IH |].
    rewrite (addInput_skips _ _ _ E). apply IH. }
  assert (Hnames : forall formData,
             exists added,
               collectInputs unicodeLower inputs formData = formData ++ added /\
               (List.length added
                <= List.length (List.filter (contributes unicodeLower) inputs))%nat /\
               forall name value, In (name, value) added ->
                 exists input, In input inputs /\ attrName input = Some name /\
                               contributes unicodeLower input = true).
  { clear Hfilter. induction inputs as [|input rest IH]; intros formData; simpl.
    - exists []. rewrite app_nil_r.
      split; [reflexivity |]. split; [simpl; lia |]. intros n v [].
    - destruct (addInput_names unicodeLower input formData)
        as (a1 & -> & Hlen1 & Hin1).
      destruct (IH (formData ++ a1)) as (a2 & -> & Hlen2 & Hin2).
      exists (a1 ++ a2). rewrite <- app_assoc. split; [reflexivity |]. split.
      + rewrite length_app.
        destruct (contributes unicodeLower input) eqn:E; simpl; [lia |].
        destruct a1 as [|[n v] a1]; [simpl; lia |].
        destruct (Hin1 n v (or_introl eq_refl)) as [_ Hc]. congruence.
      + intros n v Hin. apply in_app_or in Hin as [Hin|Hin].
        * destruct (Hin1 n v Hin) as [Hn Hc]. exists input. tauto.
        * destruct (Hin2 n v Hin) as (i & Hi & Hn & Hc). exists i. tauto. }
  split; [apply Hfilter |].
  destruct (Hnames []) as (added & -> & Hlen & Hin). simpl.
  split; assumption.
Qed.

End UnsubscribeHelperFacts.
